(** * Gobblet Gobblers solver core: a shallow embedding and its properties

    The development follows the Python sources of the repository:
    - [gobblet/types.py], [gobblet/state.py], [gobblet/moves.py],
      [gobblet/game.py] (data model, move generation);
    - [solver/fast_move.py] (in-place apply and undo);
    - [solver/encoding.py] (64-bit encoding, D4 symmetries);
    - [solver/minimax.py] (iterative solver with transposition table);
    - [solver/collect_positions.py] (breadth-first frontier enumeration).

    Conventions.  A Python exception (IndexError, KeyError, ValueError,
    AssertionError) is the [None] of an [option] result.  A Python list used
    as a stack keeps the Python orientation: index 0 is the bottom and the
    last element is the top.  Board coordinates are natural numbers, which
    leaves the negative indices of Python out of the model. *)

From Stdlib Require Import ZArith List Lia Bool Btauto.
From stdpp Require Import gmap list sorting strings.

Local Open Scope Z_scope.

(** ** gobblet/types.py *)

Inductive Player := ONE | TWO.

Inductive Size := SMALL | MEDIUM | LARGE.

Global Instance Player_eq_dec : EqDecision Player.
Proof. solve_decision. Defined.

Global Instance Size_eq_dec : EqDecision Size.
Proof. solve_decision. Defined.

Global Instance Player_countable : Countable Player.
Proof.
  refine (inj_countable'
            (λ p, match p with ONE => 0%nat | TWO => 1%nat end)
            (λ n, match n with 0%nat => ONE | _ => TWO end) _).
  by intros [].
Defined.

Global Instance Size_countable : Countable Size.
Proof.
  refine (inj_countable'
            (λ s, match s with SMALL => 0%nat | MEDIUM => 1%nat | LARGE => 2%nat end)
            (λ n, match n with 0%nat => SMALL | 1%nat => MEDIUM | _ => LARGE end) _).
  by intros [].
Defined.

(** [Player.value] *)
Definition player_value (p : Player) : Z :=
  match p with ONE => 1 | TWO => 2 end.

(** [Player.opponent] *)
Definition opponent (p : Player) : Player :=
  match p with ONE => TWO | TWO => ONE end.

(** [Size.value] *)
Definition size_value (s : Size) : Z :=
  match s with SMALL => 1 | MEDIUM => 2 | LARGE => 3 end.

(** [Size.can_gobble]: [self.value > other.value] *)
Definition size_can_gobble (self other : Size) : bool :=
  size_value self >? size_value other.

Record Piece := mkPiece { player : Player; size : Size }.

Global Instance Piece_eq_dec : EqDecision Piece.
Proof. solve_decision. Defined.

(** [Piece.can_gobble] *)
Definition can_gobble (self other : Piece) : bool :=
  size_can_gobble (size self) (size other).

(** [Position = tuple[int, int]], (row, col) *)
Definition Position : Type := nat * nat.

(** [STARTING_PIECES] *)
Definition STARTING_PIECES : list (Size * Z) :=
  [(SMALL, 2); (MEDIUM, 2); (LARGE, 2)].

(** ** gobblet/state.py *)

(** [_position_history] is left out: neither the in-place move engine nor
    the encoding reads or writes it. *)
Record GameState := mkState {
  _board : list (list (list Piece));
  _reserves : gmap (Player * Size) Z;
  current_player : Player
}.

Definition all_players : list Player := [ONE; TWO].
Definition all_sizes : list Size := [SMALL; MEDIUM; LARGE].

(** [GameState.__init__] *)
Definition initial_reserves : gmap (Player * Size) Z :=
  foldl (λ acc pl,
           foldl (λ acc' sc, <[(pl, fst sc) := snd sc]> acc') acc STARTING_PIECES)
        ∅ all_players.

Definition empty_board : list (list (list Piece)) :=
  replicate 3 (replicate 3 []).

Definition initial_state : GameState :=
  mkState empty_board initial_reserves ONE.

(** [get_stack]: [self._board[row][col]]; [None] is IndexError. *)
Definition get_stack (s : GameState) (pos : Position) : option (list Piece) :=
  row ← _board s !! fst pos; row !! snd pos.

(** [get_top]: [stack[-1] if stack else None].  On the 3x3 board the class
    builds, with [pos] one of [all_positions], the lookup cannot fail and
    [None] is the answer for an empty cell. *)
Definition get_top (s : GameState) (pos : Position) : option Piece :=
  match get_stack s pos with
  | Some stack => last stack
  | None => None
  end.

(** Writing back the stack of one cell, the effect of [append] and [pop]
    on [self._board[row][col]]. *)
Definition set_stack (s : GameState) (pos : Position) (stack : list Piece)
  : GameState :=
  match _board s !! fst pos with
  | Some row =>
      mkState (<[fst pos := <[snd pos := stack]> row]> (_board s))
              (_reserves s) (current_player s)
  | None => s
  end.

(** [place_piece]: [self._board[row][col].append(piece)] *)
Definition place_piece (s : GameState) (piece : Piece) (pos : Position)
  : option GameState :=
  stack ← get_stack s pos; Some (set_stack s pos (stack ++ [piece])).

(** [list.pop()]: IndexError on the empty list. *)
Definition pop_stack (stack : list Piece) : option (Piece * list Piece) :=
  match last stack with
  | Some top => Some (top, removelast stack)
  | None => None
  end.

(** [remove_top]: [self._board[row][col].pop()] *)
Definition remove_top (s : GameState) (pos : Position)
  : option (Piece * GameState) :=
  stack ← get_stack s pos;
  '(top, rest) ← pop_stack stack;
  Some (top, set_stack s pos rest).

(** [get_reserve] / [has_reserve]; [None] is KeyError. *)
Definition get_reserve (s : GameState) (pl : Player) (sz : Size) : option Z :=
  _reserves s !! (pl, sz).

Definition has_reserve (s : GameState) (pl : Player) (sz : Size) : bool :=
  match get_reserve s pl sz with
  | Some n => n >? 0
  | None => false
  end.

Definition set_reserves (s : GameState) (r : gmap (Player * Size) Z)
  : GameState :=
  mkState (_board s) r (current_player s).

Definition set_current_player (s : GameState) (pl : Player) : GameState :=
  mkState (_board s) (_reserves s) pl.

(** [all_positions]: row-major *)
Definition all_positions : list Position :=
  r ← [0; 1; 2]%nat; c ← [0; 1; 2]%nat; [(r, c)].

(** [WINNING_LINES] *)
Definition WINNING_LINES : list (list Position) :=
  [ [(0, 0); (0, 1); (0, 2)]; [(1, 0); (1, 1); (1, 2)]; [(2, 0); (2, 1); (2, 2)];
    [(0, 0); (1, 0); (2, 0)]; [(0, 1); (1, 1); (2, 1)]; [(0, 2); (1, 2); (2, 2)];
    [(0, 0); (1, 1); (2, 2)]; [(0, 2); (1, 1); (2, 0)] ]%nat.

(** One line of [check_winner]: all three tops present and of one player. *)
Definition line_winner (s : GameState) (line : list Position) : option Player :=
  match map (get_top s) line with
  | [Some p0; Some p1; Some p2] =>
      if decide (player p0 = player p1 ∧ player p1 = player p2)
      then Some (player p0) else None
  | _ => None
  end.

(** [check_winner]: the owner of the first complete line, in list order. *)
Fixpoint first_winner (s : GameState) (lines : list (list Position))
  : option Player :=
  match lines with
  | [] => None
  | line :: rest =>
      match line_winner s line with
      | Some w => Some w
      | None => first_winner s rest
      end
  end.

Definition check_winner (s : GameState) : option Player :=
  first_winner s WINNING_LINES.

(** [get_winning_lines] *)
Definition is_players_top (pl : Player) (o : option Piece) : bool :=
  match o with
  | Some p => bool_decide (player p = pl)
  | None => false
  end.

Definition get_winning_lines (s : GameState) (pl : Player)
  : list (list Position) :=
  List.filter (λ line, forallb (is_players_top pl) (map (get_top s) line))
              WINNING_LINES.

(** ** gobblet/moves.py *)

(** [Move]: [from_pos = None] places from the reserve and then [size] names
    the piece; otherwise the top of [from_pos] slides to [to_pos]. *)
Record Move := mkMove {
  move_player : Player;
  to_pos : Position;
  from_pos : option Position;
  move_size : option Size
}.

Global Instance Move_eq_dec : EqDecision Move.
Proof. solve_decision. Defined.

Definition is_from_reserve (m : Move) : bool :=
  match from_pos m with None => true | Some _ => false end.

(** [Move(player=player, to_pos=pos, size=size)] *)
Definition place_move (pl : Player) (sz : Size) (pos : Position) : Move :=
  mkMove pl pos None (Some sz).

(** [Move(player=player, to_pos=to_pos, from_pos=from_pos)] *)
Definition slide_move (pl : Player) (fp tp : Position) : Move :=
  mkMove pl tp (Some fp) None.

(** [can_place_at] *)
Definition can_place_at (piece : Piece) (pos : Position) (s : GameState) : bool :=
  match get_top s pos with
  | None => true
  | Some top => can_gobble piece top
  end.

(** The reserve loop shared by both generators. *)
Definition reserve_moves (s : GameState) : list Move :=
  let pl := current_player s in
  sz ← all_sizes;
  if has_reserve s pl sz
  then pos ← all_positions;
       if can_place_at (mkPiece pl sz) pos s then [place_move pl sz pos] else []
  else [].

(** The unrestricted slides of one origin. *)
Definition free_slides (s : GameState) (top : Piece) (fp : Position)
  : list Move :=
  tp ← all_positions;
  if bool_decide (fp ≠ tp) && can_place_at top tp s
  then [slide_move (current_player s) fp tp] else [].

(** [generate_basic_moves] *)
Definition generate_basic_moves (s : GameState) : list Move :=
  reserve_moves s ++
  (fp ← all_positions;
   match get_top s fp with
   | Some top =>
       if bool_decide (player top = current_player s)
       then free_slides s top fp else []
   | None => []
   end).

(** [valid_targets.add(pos)]: the Python set is kept as a list without
    duplicates, in insertion order.  The iteration order of a Python set
    is an implementation matter; the properties below that speak of
    generated moves speak of membership only. *)
Definition set_add (pos : Position) (acc : list Position) : list Position :=
  if bool_decide (pos ∈ acc) then acc else acc ++ [pos].

(** The body of the reveal branch: the squares of the revealed lines,
    other than the origin, whose top the lifted piece can gobble. *)
Definition valid_targets (state_after_lift : GameState) (top : Piece)
    (fp : Position) (opponent_winning_lines : list (list Position))
  : list Position :=
  foldl (λ acc line,
           foldl (λ acc' pos,
                    if bool_decide (pos = fp) then acc'
                    else match get_top state_after_lift pos with
                         | Some target_top =>
                             if can_gobble top target_top
                             then set_add pos acc' else acc'
                         | None => acc'
                         end)
                 acc line)
        [] opponent_winning_lines.

(** The slides of one origin under the reveal rule. *)
Definition board_moves_from (s : GameState) (fp : Position) : list Move :=
  let pl := current_player s in
  match get_top s fp with
  | None => []
  | Some top =>
      if bool_decide (player top ≠ pl) then []
      else
        match remove_top s fp with
        | None => []
        | Some (_, state_after_lift) =>
            let opponent_winning_lines :=
              get_winning_lines state_after_lift (opponent pl) in
            match opponent_winning_lines with
            | _ :: _ =>
                map (slide_move pl fp)
                    (valid_targets state_after_lift top fp
                                   opponent_winning_lines)
            | [] => free_slides s top fp
            end
        end
  end.

(** [generate_moves_with_reveal_check] *)
Definition generate_moves_with_reveal_check (s : GameState) : list Move :=
  reserve_moves s ++ (fp ← all_positions; board_moves_from s fp).

(** [generate_moves] *)
Definition generate_moves_opt (s : GameState) (check_reveal : bool)
  : list Move :=
  if check_reveal then generate_moves_with_reveal_check s
  else generate_basic_moves s.

Definition generate_moves (s : GameState) : list Move :=
  generate_moves_opt s true.

(** ** gobblet/game.py: [GameResult] *)

Inductive GameResult := ONGOING | PLAYER_ONE_WINS | PLAYER_TWO_WINS | DRAW_RESULT.

Global Instance GameResult_eq_dec : EqDecision GameResult.
Proof. solve_decision. Defined.

(** [GameResult.winner] *)
Definition winner (pl : Player) : GameResult :=
  match pl with ONE => PLAYER_ONE_WINS | TWO => PLAYER_TWO_WINS end.

(** ** solver/fast_move.py *)

Record UndoInfo := mkUndo {
  move : Move;
  piece : Piece;
  move_completed : bool;
  player_switched : bool
}.

(** The loop that sets [can_save]: some revealed line holds the
    destination and the lifted piece gobbles the top found there. *)
Definition can_save (s : GameState) (m : Move) (lifted : Piece)
    (opponent_winning_lines : list (list Position)) : bool :=
  existsb (λ line,
             bool_decide (to_pos m ∈ line) &&
             match get_top s (to_pos m) with
             | Some target => can_gobble lifted target
             | None => false
             end)
          opponent_winning_lines.

(** The common tail of [apply_move_in_place]: winner check, then the
    switch of the side to move for an ongoing game. *)
Definition finish_move (s : GameState) (m : Move) (p : Piece)
  : GameResult * UndoInfo * GameState :=
  match check_winner s with
  | Some w => (winner w, mkUndo m p true false, s)
  | None =>
      (ONGOING, mkUndo m p true true,
       set_current_player s (opponent (current_player s)))
  end.

(** [apply_move_in_place]: the result, the undo record and the mutated
    state. *)
Definition apply_move_in_place (s : GameState) (m : Move)
  : option (GameResult * UndoInfo * GameState) :=
  let pl := current_player s in
  let opp := opponent pl in
  match from_pos m with
  | None =>
      sz ← move_size m;
      let p := mkPiece pl sz in
      n ← _reserves s !! (pl, sz);
      let s1 := set_reserves s (<[(pl, sz) := n - 1]> (_reserves s)) in
      s2 ← place_piece s1 p (to_pos m);
      Some (finish_move s2 m p)
  | Some fp =>
      '(p, s1) ← remove_top s fp;
      let opponent_winning_lines := get_winning_lines s1 opp in
      match opponent_winning_lines with
      | _ :: _ =>
          if can_save s1 m p opponent_winning_lines
          then s2 ← place_piece s1 p (to_pos m); Some (finish_move s2 m p)
          else Some (winner opp, mkUndo m p false false, s1)
      | [] =>
          s2 ← place_piece s1 p (to_pos m); Some (finish_move s2 m p)
      end
  end.

(** [undo_move_in_place] *)
Definition undo_move_in_place (s : GameState) (undo : UndoInfo)
  : option GameState :=
  let m := move undo in
  let p := piece undo in
  let s0 :=
    if player_switched undo
    then set_current_player s (opponent (current_player s)) else s in
  if negb (move_completed undo) then
    fp ← from_pos m;
    place_piece s0 p fp
  else
    match from_pos m with
    | None =>
        '(_, s1) ← remove_top s0 (to_pos m);
        n ← _reserves s1 !! (player p, size p);
        Some (set_reserves s1 (<[(player p, size p) := n + 1]> (_reserves s1)))
    | Some fp =>
        '(_, s1) ← remove_top s0 (to_pos m);
        place_piece s1 p fp
    end.


(** ** solver/encoding.py *)

(** The inner loop of [encode_state] over one stack: the owner recorded
    for each size is the owner of the last piece of that size. *)
Definition stack_owners (stack : list Piece) : Z * Z * Z :=
  foldl (λ '(small_owner, medium_owner, large_owner) p,
           match size p with
           | SMALL => (player_value (player p), medium_owner, large_owner)
           | MEDIUM => (small_owner, player_value (player p), large_owner)
           | LARGE => (small_owner, medium_owner, player_value (player p))
           end)
        (0, 0, 0) stack.

(** [small_owner | (medium_owner << 2) | (large_owner << 4)] *)
Definition cell_bits (stack : list Piece) : Z :=
  let '(small_owner, medium_owner, large_owner) := stack_owners stack in
  Z.lor (Z.lor small_owner (Z.shiftl medium_owner 2)) (Z.shiftl large_owner 4).

(** One round of the cell loop of [encode_state]; the accumulator holds
    [encoded] and [bit_pos]. *)
Definition encode_cell (s : GameState) (acc : option (Z * Z)) (pos : Position)
  : option (Z * Z) :=
  '(encoded, bit_pos) ← acc;
  stack ← get_stack s pos;
  Some (Z.lor encoded (Z.shiftl (cell_bits stack) bit_pos), bit_pos + 6).

(** [encode_state] *)
Definition encode_state (s : GameState) : option Z :=
  '(encoded, _) ← foldl (encode_cell s) (Some (0, 0)) all_positions;
  let player_bit := if decide (current_player s = ONE) then 0 else 1 in
  Some (Z.lor encoded (Z.shiftl player_bit 54)).

(** [Player(value)]: ValueError unless the value is 1 or 2. *)
Definition Player_of_value (v : Z) : option Player :=
  if decide (v = 1) then Some ONE
  else if decide (v = 2) then Some TWO
  else None.

(** One of the three [if owner != 0] blocks of [decode_state]. *)
Definition decode_slot (pos : Position) (sz : Size) (owner : Z)
    (s : GameState) : option GameState :=
  if decide (owner ≠ 0) then
    pl ← Player_of_value owner;
    s1 ← place_piece s (mkPiece pl sz) pos;
    n ← _reserves s1 !! (pl, sz);
    Some (set_reserves s1 (<[(pl, sz) := n - 1]> (_reserves s1)))
  else Some s.

(** One round of the cell loop of [decode_state]; the accumulator holds
    [state] and [bit_pos]. *)
Definition decode_cell (encoded : Z) (acc : option (GameState * Z))
    (pos : Position) : option (GameState * Z) :=
  '(s, bit_pos) ← acc;
  let cell_bits := Z.land (Z.shiftr encoded bit_pos) 63 in
  let small_owner := Z.land cell_bits 3 in
  let medium_owner := Z.land (Z.shiftr cell_bits 2) 3 in
  let large_owner := Z.land (Z.shiftr cell_bits 4) 3 in
  s1 ← decode_slot pos SMALL small_owner s;
  s2 ← decode_slot pos MEDIUM medium_owner s1;
  s3 ← decode_slot pos LARGE large_owner s2;
  Some (s3, bit_pos + 6).

(** [decode_state] *)
Definition decode_state (encoded : Z) : option GameState :=
  '(s, _) ← foldl (decode_cell encoded) (Some (initial_state, 0)) all_positions;
  let player_bit := Z.land (Z.shiftr encoded 54) 1 in
  Some (set_current_player s (if decide (player_bit = 0) then ONE else TWO)).

(** The index of a character in the standard base64 alphabet. *)
Definition b64_index (c : Ascii.ascii) : option Z :=
  let n := Z.of_N (Ascii.N_of_ascii c) in
  if bool_decide (65 ≤ n ≤ 90) then Some (n - 65)
  else if bool_decide (97 ≤ n ≤ 122) then Some (n - 71)
  else if bool_decide (48 ≤ n ≤ 57) then Some (n + 4)
  else if bool_decide (n = 43) then Some 62
  else if bool_decide (n = 47) then Some 63
  else None.

(** [base64_to_int]: the padding, [base64.b64decode] and
    [int.from_bytes(raw_bytes, byteorder='big')], for a string over the
    64 characters of the standard alphabet.  Four characters give three
    bytes; a tail of two or three characters gives one or two bytes and
    its last 4 or 2 bits are dropped; a tail of one character is an
    error of the library.  Strings with other characters (the padding
    character, characters the library skips) are outside the model and
    give [None]. *)
Definition base64_to_int (s : string) : option Z :=
  sextets ← mapM b64_index (String.list_ascii_of_string s);
  let n := Z.of_nat (length sextets) in
  if decide (n `mod` 4 = 1) then None
  else Some (Z.shiftr (foldl (λ acc v, acc * 64 + v) 0 sextets)
                      ((6 * n) `mod` 8)).

(** [base64_to_state] *)
Definition base64_to_state (s : string) : option GameState :=
  base64_to_int s ≫= decode_state.

(** The (row, col) pairs of the two nested [range(3)] loops of the
    symmetry transforms, which compute with them as integers. *)
Definition index_pairs : list (Z * Z) :=
  r ← [0; 1; 2]; c ← [0; 1; 2]; [(r, c)].

(** [_rotate_90] *)
Definition _rotate_90 (encoded : Z) : Z :=
  let player_bit := Z.land (Z.shiftr encoded 54) 1 in
  let new_encoded :=
    foldl (λ new_encoded '(old_row, old_col),
             let old_idx := old_row * 3 + old_col in
             let old_cell := Z.land (Z.shiftr encoded (old_idx * 6)) 63 in
             let new_row := old_col in
             let new_col := 2 - old_row in
             let new_idx := new_row * 3 + new_col in
             Z.lor new_encoded (Z.shiftl old_cell (new_idx * 6)))
          0 index_pairs in
  Z.lor new_encoded (Z.shiftl player_bit 54).

(** [_reflect_horizontal] *)
Definition _reflect_horizontal (encoded : Z) : Z :=
  let player_bit := Z.land (Z.shiftr encoded 54) 1 in
  let new_encoded :=
    foldl (λ new_encoded '(row, col),
             let old_idx := row * 3 + col in
             let old_cell := Z.land (Z.shiftr encoded (old_idx * 6)) 63 in
             let new_col := 2 - col in
             let new_idx := row * 3 + new_col in
             Z.lor new_encoded (Z.shiftl old_cell (new_idx * 6)))
          0 index_pairs in
  Z.lor new_encoded (Z.shiftl player_bit 54).

(** The loop of [get_all_symmetries], [n] rounds from [current]. *)
Fixpoint symmetries_from (n : nat) (current : Z) : list Z :=
  match n with
  | O => []
  | S n' =>
      current :: _reflect_horizontal current
        :: symmetries_from n' (_rotate_90 current)
  end.

(** [get_all_symmetries] *)
Definition get_all_symmetries (encoded : Z) : list Z :=
  symmetries_from 4 encoded.

(** [min] of a list; ValueError on the empty list. *)
Definition list_min (l : list Z) : option Z :=
  match l with
  | [] => None
  | x :: rest => Some (foldl Z.min x rest)
  end.

(** [canonicalize]: the list of symmetries is never empty. *)
Definition canonicalize (encoded : Z) : Z :=
  default 0 (list_min (get_all_symmetries encoded)).

(** [canonicalize_state] *)
Definition canonicalize_state (s : GameState) : option Z :=
  canonicalize <$> encode_state s.

(** ** solver/minimax.py *)

(** [Outcome(IntEnum)]: WIN_P2 = -1, DRAW = 0, WIN_P1 = 1 *)
Inductive Outcome := WIN_P2 | DRAW | WIN_P1.

Global Instance Outcome_eq_dec : EqDecision Outcome.
Proof. solve_decision. Defined.

Definition outcome_value (o : Outcome) : Z :=
  match o with WIN_P2 => -1 | DRAW => 0 | WIN_P1 => 1 end.

(** [max] and [min] of two outcomes, by value. *)
Definition outcome_max (a b : Outcome) : Outcome :=
  if outcome_value b >? outcome_value a then b else a.

Definition outcome_min (a b : Outcome) : Outcome :=
  if outcome_value b <? outcome_value a then b else a.

(** [max(child_outcomes)] and [min(child_outcomes)]; ValueError on the
    empty list. *)
Definition max_outcome (l : list Outcome) : option Outcome :=
  match l with
  | [] => None
  | o :: rest => Some (foldl outcome_max o rest)
  end.

Definition min_outcome (l : list Outcome) : option Outcome :=
  match l with
  | [] => None
  | o :: rest => Some (foldl outcome_min o rest)
  end.

(** [_game_result_to_outcome]; ValueError on ONGOING. *)
Definition _game_result_to_outcome (r : GameResult) : option Outcome :=
  match r with
  | PLAYER_ONE_WINS => Some WIN_P1
  | PLAYER_TWO_WINS => Some WIN_P2
  | DRAW_RESULT => Some DRAW
  | ONGOING => None
  end.

(** The outcome of a position whose mover has no move:
    [WIN_P2 if state.current_player == Player.ONE else WIN_P1]. *)
Definition mover_loses (pl : Player) : Outcome :=
  match pl with ONE => WIN_P2 | TWO => WIN_P1 end.

(** [StackFrame].  The field [state] of the source is one object shared
    by all frames, the position the solver mutates; it is kept once, in
    the solver run below, not in each frame. *)
Record StackFrame := mkFrame {
  canonical : Z;
  moves : list (Move * Z * GameResult);
  move_idx : nat;
  child_outcomes : list Outcome;
  undo_on_pop : option UndoInfo
}.

(** One round of the loop of [_create_frame_fast]: apply, key of the
    child, table write for a finished game, undo.  The accumulator holds
    [moves_info], the table and the shared state.  Every write to the
    table is also appended to a log, which the source does not keep; it
    is there to state properties of the sequence of writes. *)
Definition frame_round
    (acc : option (list (Move * Z * GameResult) * gmap Z Outcome
                   * list (Z * Outcome) * GameState))
    (m : Move)
  : option (list (Move * Z * GameResult) * gmap Z Outcome
            * list (Z * Outcome) * GameState) :=
  '(moves_info, table, log, s) ← acc;
  '(game_result, undo, s1) ← apply_move_in_place s m;
  child_canonical ← canonicalize <$> encode_state s1;
  '(table', log') ←
    (if decide (game_result ≠ ONGOING) then
       child_outcome ← _game_result_to_outcome game_result;
       Some (<[child_canonical := child_outcome]> table,
             log ++ [(child_canonical, child_outcome)])
     else Some (table, log));
  s2 ← undo_move_in_place s1 undo;
  Some (moves_info ++ [(m, child_canonical, game_result)], table', log', s2).

(** [move_priority] *)
Definition move_priority (table : gmap Z Outcome) (best_outcome : Outcome)
    (item : Move * Z * GameResult) : nat :=
  match table !! item.1.2 with
  | Some outcome =>
      if decide (outcome = best_outcome) then 0
      else if decide (outcome = DRAW) then 1
      else 2
  | None => 1
  end%nat.

(** [moves_info.sort(key=move_priority)]: the sort of Python is stable
    and the key takes the values 0, 1, 2. *)
Definition sort_by_priority (table : gmap Z Outcome) (best_outcome : Outcome)
    (l : list (Move * Z * GameResult)) : list (Move * Z * GameResult) :=
  List.filter (λ x, move_priority table best_outcome x =? 0)%nat l ++
  List.filter (λ x, move_priority table best_outcome x =? 1)%nat l ++
  List.filter (λ x, move_priority table best_outcome x =? 2)%nat l.

(** [_create_frame_fast]: the frame ([None] for a position without
    moves), the table, the log of writes and the shared state. *)
Definition _create_frame_fast (table : gmap Z Outcome)
    (log : list (Z * Outcome)) (s : GameState) (canonical : Z)
  : option (option StackFrame * gmap Z Outcome * list (Z * Outcome)
            * GameState) :=
  '(moves_info, table1, log1, s1) ←
    foldl frame_round (Some ([], table, log, s)) (generate_moves s);
  match moves_info with
  | [] =>
      let outcome := mover_loses (current_player s1) in
      Some (None, <[canonical := outcome]> table1,
            log1 ++ [(canonical, outcome)], s1)
  | _ :: _ =>
      let best_outcome :=
        if decide (current_player s1 = ONE) then WIN_P1 else WIN_P2 in
      Some (Some (mkFrame canonical
                    (sort_by_priority table1 best_outcome moves_info)
                    0 [] None),
            table1, log1, s1)
  end.

(** The state of a run of [_solve_iterative_fast]: the shared position,
    the frame stack (its head is the top, [stack[-1]]), the table, the
    log of table writes and the path set.  The statistics counters and
    the progress report of the source are left out; they do not steer
    the search. *)
Record SolverRun := mkRun {
  run_state : GameState;
  run_stack : list StackFrame;
  run_table : gmap Z Outcome;
  run_log : list (Z * Outcome);
  run_path : gset Z
}.

Definition add_outcome (f : StackFrame) (o : Outcome) : StackFrame :=
  mkFrame (canonical f) (moves f) (move_idx f) (child_outcomes f ++ [o])
          (undo_on_pop f).

Definition set_move_idx (f : StackFrame) (i : nat) : StackFrame :=
  mkFrame (canonical f) (moves f) i (child_outcomes f) (undo_on_pop f).

(** [max(...) if current_player == ONE else min(...)] *)
Definition best_for (pl : Player) (l : list Outcome) : option Outcome :=
  match pl with ONE => max_outcome l | TWO => min_outcome l end.

(** The alpha-beta block at the head of the loop body. *)
Definition prune_frame (prune : bool) (pl : Player) (f : StackFrame)
  : StackFrame :=
  if prune then
    match best_for pl (child_outcomes f) with
    | Some current_best =>
        if decide (pl = ONE ∧ current_best = WIN_P1)
        then set_move_idx f (length (moves f))
        else if decide (pl = TWO ∧ current_best = WIN_P2)
        then set_move_idx f (length (moves f))
        else f
    | None => f
    end
  else f.

(** One pass through the body of [while stack], for a stack that is not
    empty. *)
Definition solve_step (prune : bool) (run : SolverRun) : option SolverRun :=
  match run_stack run with
  | [] => Some run
  | frame0 :: rest =>
      let s := run_state run in
      let frame := prune_frame prune (current_player s) frame0 in
      match moves frame !! move_idx frame with
      | Some (m, child_canonical, game_result) =>
          let frame := set_move_idx frame (S (move_idx frame)) in
          if decide (child_canonical ∈ run_path run) then
            Some (mkRun s (add_outcome frame DRAW :: rest)
                        (run_table run) (run_log run) (run_path run))
          else
            match run_table run !! child_canonical with
            | Some o =>
                Some (mkRun s (add_outcome frame o :: rest)
                            (run_table run) (run_log run) (run_path run))
            | None =>
                if decide (game_result ≠ ONGOING) then
                  (* [self.table[child_canonical]] on a missing key *)
                  None
                else
                  '(_, undo, s1) ← apply_move_in_place s m;
                  '(child_frame, table1, log1, s2) ←
                    _create_frame_fast (run_table run) (run_log run) s1
                                       child_canonical;
                  match child_frame with
                  | None =>
                      o ← table1 !! child_canonical;
                      s3 ← undo_move_in_place s2 undo;
                      Some (mkRun s3 (add_outcome frame o :: rest)
                                  table1 log1 (run_path run))
                  | Some cf =>
                      let cf :=
                        mkFrame (canonical cf) (moves cf) (move_idx cf)
                                (child_outcomes cf) (Some undo) in
                      Some (mkRun s2 (cf :: frame :: rest) table1 log1
                                  ({[child_canonical]} ∪ run_path run))
                  end
            end
      | None =>
          let path := run_path run ∖ {[canonical frame]} in
          let outcome :=
            match best_for (current_player s) (child_outcomes frame) with
            | Some o => o
            | None => mover_loses (current_player s)
            end in
          let table := <[canonical frame := outcome]> (run_table run) in
          let log := run_log run ++ [(canonical frame, outcome)] in
          s1 ← match undo_on_pop frame with
               | Some undo => undo_move_in_place s undo
               | None => Some s
               end;
          let rest' :=
            match rest with
            | parent :: others => add_outcome parent outcome :: others
            | [] => []
            end in
          Some (mkRun s1 rest' table log path)
      end
  end.

(** [while stack: ...], with [fuel] passes at most; [None] is an
    exception of the body or the end of the fuel. *)
Fixpoint solve_loop (prune : bool) (fuel : nat) (run : SolverRun)
  : option SolverRun :=
  match run_stack run with
  | [] => Some run
  | _ :: _ =>
      match fuel with
      | O => None
      | S fuel' => run' ← solve_step prune run; solve_loop prune fuel' run'
      end
  end.

(** [_solve_iterative_fast]: the outcome of the root with the table and
    the log of writes. *)
Definition _solve_iterative_fast (table : gmap Z Outcome) (prune force : bool)
    (fuel : nat) (initial_state : GameState)
  : option (Outcome * gmap Z Outcome * list (Z * Outcome)) :=
  initial_canonical ← canonicalize <$> encode_state initial_state;
  match (if force then None else table !! initial_canonical) with
  | Some o => Some (o, table, [])
  | None =>
      '(initial_frame, table1, log1, s1) ←
        _create_frame_fast table [] initial_state initial_canonical;
      match initial_frame with
      | None => o ← table1 !! initial_canonical; Some (o, table1, log1)
      | Some f =>
          run ← solve_loop prune fuel
                  (mkRun s1 [f] table1 log1 {[initial_canonical]});
          o ← run_table run !! initial_canonical;
          Some (o, run_table run, run_log run)
      end
  end.

(** [Solver.solve] on the table of the solver, for [fast=True], the
    default and the path the drivers use; [state=None] is the initial
    position. *)
Definition solve (table : gmap Z Outcome) (state : option GameState)
    (prune force : bool) (fuel : nat)
  : option (Outcome * gmap Z Outcome * list (Z * Outcome)) :=
  _solve_iterative_fast table prune force fuel (default initial_state state).

(** [get_outcome] *)
Definition get_outcome (table : gmap Z Outcome) (s : GameState)
  : option (option Outcome) :=
  c ← canonicalize <$> encode_state s; Some (table !! c).

(** ** solver/collect_positions.py *)

(** The three containers of [_enumerate_with_encoding_queue]: the dict
    [unsolved], the set [visited] and the deque [queue], whose head is
    the next entry [popleft] returns. *)
Record BfsRun := mkBfs {
  bfs_unsolved : gmap Z nat;
  bfs_visited : gset Z;
  bfs_queue : list (Z * nat)
}.

(** The body of [if result == GameResult.ONGOING] once the key of the
    child is known. *)
Definition bfs_record (table : gmap Z Outcome) (depth : nat) (run : BfsRun)
    (child_canonical : Z) : BfsRun :=
  if decide (child_canonical ∈ bfs_visited run) then run
  else
    let visited := {[child_canonical]} ∪ bfs_visited run in
    match table !! child_canonical with
    | None =>
        mkBfs (<[child_canonical := S depth]> (bfs_unsolved run)) visited
              (bfs_queue run)
    | Some _ =>
        mkBfs (bfs_unsolved run) visited
              (bfs_queue run ++ [(child_canonical, S depth)])
    end.

(** One round of [for move in generate_moves(state)]: apply, record,
    undo, on the one state object the loop mutates. *)
Definition bfs_round (table : gmap Z Outcome) (depth : nat)
    (acc : option (BfsRun * GameState)) (m : Move)
  : option (BfsRun * GameState) :=
  '(run, s) ← acc;
  '(result, undo, s1) ← apply_move_in_place s m;
  run' ← (if decide (result = ONGOING) then
            child_canonical ← canonicalize <$> encode_state s1;
            Some (bfs_record table depth run child_canonical)
          else Some run);
  s2 ← undo_move_in_place s1 undo;
  Some (run', s2).

(** One pass through the body of [while queue], for a queue that is not
    empty: [popleft], decode, the loop over the moves. *)
Definition bfs_expand (table : gmap Z Outcome) (run : BfsRun)
  : option BfsRun :=
  match bfs_queue run with
  | [] => Some run
  | (encoded, depth) :: rest =>
      state ← decode_state encoded;
      fst <$> foldl (bfs_round table depth)
                (Some (mkBfs (bfs_unsolved run) (bfs_visited run) rest,
                       state))
                (generate_moves state)
  end.

(** [while queue: ...].  The loop leaves through [break] when the
    timeout has passed or the stop flag is set, which the clock and a
    signal handler decide; [stop_after] is the number of passes made
    before that happens.  The containers are returned as they are then.
    [None] is an exception of the body. *)
Fixpoint bfs_loop (table : gmap Z Outcome) (stop_after : nat) (run : BfsRun)
  : option BfsRun :=
  match stop_after with
  | O => Some run
  | S n =>
      match bfs_queue run with
      | [] => Some run
      | _ :: _ => run' ← bfs_expand table run; bfs_loop table n run'
      end
  end.

Definition bfs_start (initial_canonical : Z) : BfsRun :=
  mkBfs ∅ {[initial_canonical]} [(initial_canonical, 0%nat)].

(** [_enumerate_with_encoding_queue]: the dict [unsolved] it returns.
    The log lines and the checkpoint file are left out. *)
Definition _enumerate_with_encoding_queue (table : gmap Z Outcome)
    (stop_after : nat) : option (gmap Z nat) :=
  initial_canonical ← canonicalize <$> encode_state initial_state;
  bfs_unsolved <$> bfs_loop table stop_after (bfs_start initial_canonical).

(** * Views used by the proofs about the encoding *)

(** A 6-bit cell field. *)
Definition is_cell (c : Z) : Prop := 0 ≤ c < 64.

(** The cell field number [i] of an encoding, as every decoder of
    [solver/encoding.py] reads it. *)
Definition cell_at (e i : Z) : Z := Z.land (Z.shiftr e (i * 6)) 63.

(** Nine cell fields and what lies above them, as one integer. *)
Definition pack (c0 c1 c2 c3 c4 c5 c6 c7 c8 p : Z) : Z :=
  c0 + 64 * (c1 + 64 * (c2 + 64 * (c3 + 64 * (c4 + 64 * (c5 + 64 *
  (c6 + 64 * (c7 + 64 * (c8 + 64 * p)))))))).

(** The side to move as bit 54. *)
Definition player_bit (pl : Player) : Z :=
  if decide (pl = ONE) then 0 else 1.

(** An encoding in the sense of the data model: bits 55 and up are zero. *)
Definition is_encoding (e : Z) : Prop := 0 ≤ e < 2 ^ 55.

(** The transforms of a position.  The source transforms encodings only;
    the board transforms are written from the cell mappings that
    [_rotate_90] and [_reflect_horizontal] document: (r, c) -> (c, 2 - r)
    and (r, c) -> (r, 2 - c).  Reserves and side to move are kept. *)
Definition stack_at (s : GameState) (pos : Position) : list Piece :=
  default [] (get_stack s pos).

Definition rotate_state (s : GameState) : GameState :=
  mkState
    [ [stack_at s (2, 0); stack_at s (1, 0); stack_at s (0, 0)];
      [stack_at s (2, 1); stack_at s (1, 1); stack_at s (0, 1)];
      [stack_at s (2, 2); stack_at s (1, 2); stack_at s (0, 2)] ]%nat
    (_reserves s) (current_player s).

Definition reflect_state (s : GameState) : GameState :=
  mkState
    [ [stack_at s (0, 2); stack_at s (0, 1); stack_at s (0, 0)];
      [stack_at s (1, 2); stack_at s (1, 1); stack_at s (1, 0)];
      [stack_at s (2, 2); stack_at s (2, 1); stack_at s (2, 0)] ]%nat
    (_reserves s) (current_player s).

(** The group generated by the two transforms: every element is a word in
    the generators. *)
Inductive D4_generator := Rotate90 | ReflectH.

Definition apply_generator (g : D4_generator) (s : GameState) : GameState :=
  match g with
  | Rotate90 => rotate_state s
  | ReflectH => reflect_state s
  end.

Definition apply_transform (t : list D4_generator) (s : GameState)
  : GameState :=
  foldr apply_generator s t.

(** The cell mappings on positions, and a move carried along by one. *)
Definition rotate_pos (pos : Position) : Position := (pos.2, 2 - pos.1)%nat.
Definition reflect_pos (pos : Position) : Position := (pos.1, 2 - pos.2)%nat.

Definition generator_pos (g : D4_generator) : Position → Position :=
  match g with
  | Rotate90 => rotate_pos
  | ReflectH => reflect_pos
  end.

Definition move_image (σ : Position → Position) (m : Move) : Move :=
  mkMove (move_player m) (σ (to_pos m)) (σ <$> from_pos m) (move_size m).

Definition transform_pos (t : list D4_generator) (pos : Position) : Position :=
  foldr generator_pos pos t.

(** A word in the generators, on encodings. *)
Definition generator_encoding (g : D4_generator) : Z → Z :=
  match g with
  | Rotate90 => _rotate_90
  | ReflectH => _reflect_horizontal
  end.

Definition transform_encoding (t : list D4_generator) (e : Z) : Z :=
  foldr generator_encoding e t.

(** The word that undoes a generator. *)
Definition generator_inverse (g : D4_generator) : list D4_generator :=
  match g with
  | Rotate90 => [Rotate90; Rotate90; Rotate90]
  | ReflectH => [ReflectH]
  end.

(** * Sample positions *)

Definition P1S := mkPiece ONE SMALL.
Definition P1M := mkPiece ONE MEDIUM.
Definition P1L := mkPiece ONE LARGE.
Definition P2S := mkPiece TWO SMALL.
Definition P2M := mkPiece TWO MEDIUM.
Definition P2L := mkPiece TWO LARGE.

(** Reserve counts given in the order 1S 1M 1L 2S 2M 2L. *)
Definition reserves_of (a b c d e f : Z) : gmap (Player * Size) Z :=
  <[(TWO, LARGE) := f]> (<[(TWO, MEDIUM) := e]> (<[(TWO, SMALL) := d]>
  (<[(ONE, LARGE) := c]> (<[(ONE, MEDIUM) := b]> (<[(ONE, SMALL) := a]> ∅))))).

(** Player ONE to move with a large piece on the centre, over a small
    piece of player TWO, whose pieces show on the four corners: lifting
    the centre piece reveals both diagonals. *)
Definition double_reveal_state : GameState :=
  mkState [ [[P2M]; []; [P2M]];
            [[]; [P2S; P1L]; []];
            [[P2L]; []; [P2L]] ]
          (reserves_of 2 2 1 1 0 0) ONE.

Definition double_reveal_lifted : GameState :=
  mkState [ [[P2M]; []; [P2M]];
            [[]; [P2S]; []];
            [[P2L]; []; [P2L]] ]
          (reserves_of 2 2 1 1 0 0) ONE.

(** The position of [test_reveal_loss_roundtrip]. *)
Definition reveal_loss_state : GameState :=
  mkState [ [[P1S; P2L]; []; []];
            [[P1M]; []; []];
            [[P1L]; []; []] ]
          (reserves_of 1 1 1 2 2 1) TWO.

(** Player ONE to move, reached from the initial position by
    [moves_to_two_line_state].  Lifting the large piece from (0,2) shows
    row 0 and column 2 of player TWO. *)
Definition two_line_state : GameState :=
  mkState [ [[P2L]; [P2M]; [P2S; P1L]];
            [[P1M]; [P1L]; [P2M]];
            [[]; [P1M]; [P2L]] ]
          (reserves_of 2 0 0 1 0 0) ONE.

Definition moves_to_two_line_state : list Move :=
  [ place_move ONE LARGE (1, 1); place_move TWO SMALL (0, 2);
    place_move ONE LARGE (0, 2); place_move TWO MEDIUM (0, 1);
    place_move ONE MEDIUM (0, 0); place_move TWO MEDIUM (1, 2);
    place_move ONE MEDIUM (2, 1); place_move TWO LARGE (2, 2);
    slide_move ONE (0, 0) (1, 0); place_move TWO LARGE (0, 0) ]%nat.

(** Playing a list of moves, each one generated and leaving the game
    ongoing. *)
Fixpoint play_moves (s : GameState) (ms : list Move) : option GameState :=
  match ms with
  | [] => Some s
  | m :: rest =>
      if bool_decide (m ∈ generate_moves s) then
        match apply_move_in_place s m with
        | Some (ONGOING, _, s') => play_moves s' rest
        | _ => None
        end
      else None
  end.

(** A position without a legal move: player ONE has no reserve and one
    piece on the board, which cannot leave its square.  It is the
    position of [test_reveal_no_save_possible] with the reserves of
    player ONE emptied, scenario S3 of the specification. *)
Definition zugzwang_state : GameState :=
  mkState [ [[P2L]; [P2L]; [P2L; P1M]];
            [[]; []; []];
            [[]; []; []] ]
          (reserves_of 0 0 0 2 2 2) ONE.

(** A table that holds three positions of one line of play: the small
    piece of player ONE on the centre, the small piece of player TWO
    added on a corner, the piece of player ONE moved to the opposite
    corner.  The outcomes stored do not matter to the enumerator. *)
Definition bfs_example_table : gmap Z Outcome :=
  list_to_map [ (18014398526259200, DRAW); (16777218, DRAW);
                (18014467228966912, DRAW) ].

(** Two lines of play that end in positions of key 129: one through the
    positions of the table, one of two moves. *)
Definition long_line : list Move :=
  [ place_move ONE SMALL (1, 1); place_move TWO SMALL (2, 2);
    slide_move ONE (1, 1) (0, 0); slide_move TWO (2, 2) (0, 1) ]%nat.

Definition short_line : list Move :=
  [ place_move ONE SMALL (0, 0); place_move TWO SMALL (0, 1) ]%nat.

(** A line of play from the initial position to [double_reveal_state]. *)
Definition moves_to_double_reveal_state : list Move :=
  [ place_move ONE LARGE (0, 1); place_move TWO MEDIUM (0, 0);
    slide_move ONE (0, 1) (1, 0); place_move TWO MEDIUM (0, 2);
    slide_move ONE (1, 0) (0, 1); place_move TWO SMALL (1, 1);
    slide_move ONE (0, 1) (0, 0); place_move TWO LARGE (2, 2);
    slide_move ONE (0, 0) (1, 1); place_move TWO LARGE (2, 0) ]%nat.

(** * Predicates used in the statements *)

(** The board is the 3x3 grid that [GameState.__init__] builds; no method
    of the class changes its shape. *)
Definition board_shape (s : GameState) : Prop :=
  length (_board s) = 3%nat ∧ Forall (λ row, length row = 3%nat) (_board s).

(** A slide of the in-place engine that ended in a reveal loss. *)
Definition reveal_loss (u : UndoInfo) : Prop :=
  move_completed u = false.

(** The save condition the engine implements for a slide that reveals the
    lines [L]: the destination lies on one of them and the lifted piece
    gobbles the top found there after the lift. *)
Definition saves_some_line (state_after_lift : GameState) (top : Piece)
    (L : list (list Position)) (tp : Position) : Prop :=
  (∃ line, line ∈ L ∧ tp ∈ line) ∧
  (∃ t, get_top state_after_lift tp = Some t ∧ can_gobble top t = true).

(** The save condition in the words of the specification: the destination
    lies on every revealed line. *)
Definition saves_every_line (state_after_lift : GameState) (top : Piece)
    (L : list (list Position)) (tp : Position) : Prop :=
  (∀ line, line ∈ L → tp ∈ line) ∧
  (∃ t, get_top state_after_lift tp = Some t ∧ can_gobble top t = true).

(** Every square of the line shows a piece of the player. *)
Definition line_full (s : GameState) (pl : Player) (line : list Position)
  : Prop :=
  ∀ pos, pos ∈ line → ∃ t, get_top s pos = Some t ∧ player t = pl.

(** The squares a move names are squares of the board. *)
Definition move_on_board (m : Move) : Prop :=
  to_pos m ∈ all_positions ∧
  ∀ fp, from_pos m = Some fp → fp ∈ all_positions.

(** ** The position invariants of the data model *)

(** How many pieces of one kind a stack, and the whole board, hold. *)
Definition count_in_stack (k : Piece) (stack : list Piece) : nat :=
  length (filter (λ p, p = k) stack).

Definition count_on_board (s : GameState) (pl : Player) (sz : Size) : nat :=
  sum_list_with (sum_list_with (count_in_stack (mkPiece pl sz))) (_board s).

(** Invariant 1: reserve count plus on-board count is 2, for each player
    and size.  The reserve count is a Python integer; nothing in the
    statement keeps it from being negative. *)
Definition reserves_match_board (s : GameState) : Prop :=
  ∀ pl sz, _reserves s !! (pl, sz)
           = Some (2 - Z.of_nat (count_on_board s pl sz)).

(** Invariant 2: sizes strictly increase from the bottom of a stack to
    its top. *)
Definition size_lt (p q : Piece) : Prop :=
  size_value (size p) < size_value (size q).

Definition stack_sorted (stack : list Piece) : Prop :=
  StronglySorted size_lt stack.

(** Invariant 3: no two pieces of one size in a cell. *)
Definition stack_sizes_distinct (stack : list Piece) : Prop :=
  NoDup (map size stack).

(** Invariant 4: at most three pieces in a cell. *)
Definition stack_height_ok (stack : list Piece) : Prop :=
  (length stack ≤ 3)%nat.

Definition stacks_sorted (s : GameState) : Prop :=
  ∀ pos stack, get_stack s pos = Some stack → stack_sorted stack.

Definition position_invariants (s : GameState) : Prop :=
  board_shape s ∧ reserves_match_board s ∧
  ∀ pos stack, get_stack s pos = Some stack →
    stack_sorted stack ∧ stack_sizes_distinct stack ∧ stack_height_ok stack.

(** Positions reachable from the initial one by generated moves, applied
    in place. *)
Inductive reachable : GameState → Prop :=
  | reachable_initial : reachable initial_state
  | reachable_move p m r u p' :
      reachable p → m ∈ generate_moves p →
      apply_move_in_place p m = Some (r, u, p') → reachable p'.

(** ** Decoding, cell by cell *)

(** The piece a slot value stands for. *)
Definition slot_pieces (sz : Size) (owner : Z) : list Piece :=
  match Player_of_value owner with
  | Some pl => [mkPiece pl sz]
  | None => []
  end.

(** The stack a 6-bit cell field stands for. *)
Definition cell_pieces (v : Z) : list Piece :=
  slot_pieces SMALL (Z.land v 3) ++
  slot_pieces MEDIUM (Z.land (Z.shiftr v 2) 3) ++
  slot_pieces LARGE (Z.land (Z.shiftr v 4) 3).

(** No slot of the cell field holds the value 3. *)
Definition cell_valid (v : Z) : Prop :=
  Z.land v 3 ≠ 3 ∧ Z.land (Z.shiftr v 2) 3 ≠ 3 ∧ Z.land (Z.shiftr v 4) 3 ≠ 3.

Definition slots_valid (e : Z) : Prop :=
  Forall (λ i, cell_valid (cell_at e i)) [0; 1; 2; 3; 4; 5; 6; 7; 8].

Global Instance cell_valid_dec v : Decision (cell_valid v).
Proof. unfold cell_valid. apply _. Defined.

Global Instance slots_valid_dec e : Decision (slots_valid e).
Proof. unfold slots_valid. apply _. Defined.

(** The board update behind [set_stack]. *)
Definition board_set (b : list (list (list Piece))) (pos : Position)
    (stack : list Piece) : list (list (list Piece)) :=
  match b !! pos.1 with
  | Some row => <[pos.1 := <[pos.2 := stack]> row]> b
  | None => b
  end.

(** Shape, invariant 1 and invariant 2 together; invariants 3 and 4
    follow from invariant 2. *)
Definition well_formed (s : GameState) : Prop :=
  board_shape s ∧ reserves_match_board s ∧ stacks_sorted s.

(** ** The sequence of table writes *)

(** No key is written twice with two different outcomes. *)
Definition writes_monotone (log : list (Z * Outcome)) : Prop :=
  ∀ i j k o o', (i < j)%nat →
    log !! i = Some (k, o) → log !! j = Some (k, o') → o = o'.

(** ** The graph the enumerator walks *)

(** The keys of the children of a position that leave the game ongoing,
    in the order of [generate_moves]. *)
Definition child_key (s : GameState) (m : Move) : option Z :=
  match apply_move_in_place s m with
  | Some (ONGOING, _, s') => canonicalize_state s'
  | _ => None
  end.

Definition child_keys (s : GameState) : list Z :=
  omap (child_key s) (generate_moves s).

(** One move between positions, game ongoing after it. *)
Definition ongoing_move (p p' : GameState) : Prop :=
  ∃ m u, m ∈ generate_moves p ∧
         apply_move_in_place p m = Some (ONGOING, u, p').

(** The enumerator expands the root and the positions whose key is in
    the table. *)
Definition expanded (table : gmap Z Outcome) (root : GameState)
    (p : GameState) : Prop :=
  canonicalize_state p = canonicalize_state root ∨
  ∃ k, canonicalize_state p = Some k ∧ is_Some (table !! k).

(** Lines of play from the root in which every position before the last
    is one the enumerator expands, by length. *)
Inductive solved_line (table : gmap Z Outcome) (root : GameState)
  : nat → GameState → Prop :=
  | solved_line_root : solved_line table root 0 root
  | solved_line_move n p p' :
      solved_line table root n p → expanded table root p →
      ongoing_move p p' → solved_line table root (S n) p'.

(** Lines of play from the root without that restriction. *)
Inductive line_of_play (root : GameState) : nat → GameState → Prop :=
  | line_of_play_root : line_of_play root 0 root
  | line_of_play_move n p p' :
      line_of_play root n p → ongoing_move p p' →
      line_of_play root (S n) p'.

(** The same walk on keys, each key standing for the position it
    decodes to. *)
Definition key_step (k k' : Z) : Prop :=
  ∃ s, decode_state k = Some s ∧ k' ∈ child_keys s.

Inductive solved_key_path (table : gmap Z Outcome) (k0 : Z)
  : nat → Z → Prop :=
  | solved_key_path_root : solved_key_path table k0 0 k0
  | solved_key_path_step n k k' :
      solved_key_path table k0 n k →
      k = k0 ∨ is_Some (table !! k) →
      key_step k k' → solved_key_path table k0 (S n) k'.

Definition expands (table : gmap Z Outcome) (k0 k : Z) : Prop :=
  k = k0 ∨ is_Some (table !! k).

(** The invariant of the loop of the enumerator.  [D] gives every
    visited key the depth it was found at, [L] is the depth of the
    entries in the front part [Q1] of the queue, the back part [Q2]
    holds entries of depth [L + 1], and [cur] is the key whose children
    are being recorded. *)
Record bfs_inv (table : gmap Z Outcome) (k0 : Z) (L : nat) (cur : option Z)
    (D : gmap Z nat) (Q1 Q2 : list (Z * nat)) (run : BfsRun) : Prop :=
  mk_bfs_inv {
    inv_queue : bfs_queue run = Q1 ++ Q2;
    inv_root : D !! k0 = Some 0%nat;
    inv_dom : ∀ k, k ∈ bfs_visited run ↔ is_Some (D !! k);
    inv_unsolved : ∀ k d, bfs_unsolved run !! k = Some d →
                          D !! k = Some d ∧ table !! k = None;
    inv_path : ∀ k d, D !! k = Some d → solved_key_path table k0 d k;
    inv_q1 : ∀ k d, (k, d) ∈ Q1 →
                    d = L ∧ D !! k = Some d ∧ expands table k0 k;
    inv_q2 : ∀ k d, (k, d) ∈ Q2 →
                    d = S L ∧ D !! k = Some d ∧ expands table k0 k;
    inv_bound : ∀ k d, D !! k = Some d → (d ≤ S L)%nat;
    inv_closed : ∀ k d, D !! k = Some d → expands table k0 k →
                   k ∉ (Q1 ++ Q2).*1 → Some k ≠ cur →
                   ∀ k', key_step k k' →
                         ∃ d', D !! k' = Some d' ∧ (d' ≤ S d)%nat;
    inv_complete : ∀ n k, solved_key_path table k0 n k → (n ≤ L)%nat →
                          ∃ d, D !! k = Some d ∧ (d ≤ n)%nat
  }.

(** The depth the specification asks of a frontier entry: the least
    number of moves of a line of play from the root to a position of the
    key. *)
Definition least_depth (root : GameState) (c : Z) (d : nat) : Prop :=
  (∃ p, line_of_play root d p ∧ canonicalize_state p = Some c) ∧
  ∀ n p, line_of_play root n p → canonicalize_state p = Some c → (d ≤ n)%nat.

(** The depth the enumerator records: the same, over the lines of play
    that stay among the positions it expands. *)
Definition least_solved_depth (table : gmap Z Outcome) (root : GameState)
    (c : Z) (d : nat) : Prop :=
  (∃ p, solved_line table root d p ∧ canonicalize_state p = Some c) ∧
  ∀ n p, solved_line table root n p → canonicalize_state p = Some c →
         (d ≤ n)%nat.
(** * Properties of the move engine *)

(** ** Cells: reading and writing one stack *)

Lemma pop_stack_snoc (stack : list Piece) (p : Piece) :
  pop_stack (stack ++ [p]) = Some (p, stack).
Proof.
  unfold pop_stack. rewrite last_snoc. by rewrite removelast_last.
Qed.

Lemma pop_stack_Some (stack rest : list Piece) (p : Piece) :
  pop_stack stack = Some (p, rest) → stack = rest ++ [p].
Proof.
  unfold pop_stack. intros H.
  destruct (last stack) as [q|] eqn:Hl; [|done].
  injection H as -> <-.
  destruct stack as [|x stack] using rev_ind; [done|].
  rewrite last_snoc in Hl. injection Hl as ->.
  by rewrite removelast_last.
Qed.

Lemma reserves_set_stack s pos stack :
  _reserves (set_stack s pos stack) = _reserves s.
Proof. unfold set_stack. by destruct (_board s !! pos.1). Qed.

Lemma current_player_set_stack s pos stack :
  current_player (set_stack s pos stack) = current_player s.
Proof. unfold set_stack. by destruct (_board s !! pos.1). Qed.

Lemma get_stack_set_stack_eq s pos stack :
  is_Some (get_stack s pos) →
  get_stack (set_stack s pos stack) pos = Some stack.
Proof.
  unfold get_stack, set_stack. intros [old H].
  destruct (_board s !! pos.1) as [row|] eqn:Hrow; [|done]. simpl in *.
  rewrite list_lookup_insert_eq; [|by eapply lookup_lt_Some]. simpl.
  apply list_lookup_insert_eq. by eapply lookup_lt_Some.
Qed.

Lemma get_stack_set_stack_ne s pos pos' stack :
  pos ≠ pos' →
  get_stack (set_stack s pos stack) pos' = get_stack s pos'.
Proof.
  unfold get_stack, set_stack. intros Hne.
  destruct (_board s !! pos.1) as [row|] eqn:Hrow; [|done]. simpl.
  destruct (decide (pos.1 = pos'.1)) as [Heq|Hr].
  - rewrite <- Heq, Hrow.
    rewrite list_lookup_insert_eq; [|by eapply lookup_lt_Some]. simpl.
    apply list_lookup_insert_ne. intros Hc. apply Hne.
    destruct pos, pos'; simpl in *; congruence.
  - by rewrite list_lookup_insert_ne.
Qed.

Lemma set_stack_set_stack s pos a b :
  set_stack (set_stack s pos a) pos b = set_stack s pos b.
Proof.
  unfold set_stack.
  destruct (_board s !! pos.1) as [row|] eqn:Hrow; simpl; [|by rewrite Hrow].
  rewrite list_lookup_insert_eq; [|by eapply lookup_lt_Some].
  by rewrite list_insert_insert_eq, list_insert_insert_eq.
Qed.

Lemma set_stack_id s pos stack :
  get_stack s pos = Some stack → set_stack s pos stack = s.
Proof.
  unfold get_stack, set_stack. intros H.
  destruct (_board s !! pos.1) as [row|] eqn:Hrow; [|done]. simpl in H.
  rewrite (list_insert_id row), list_insert_id by done. by destruct s.
Qed.

Lemma set_current_player_set_stack s pl pos stack :
  set_current_player (set_stack s pos stack) pl
  = set_stack (set_current_player s pl) pos stack.
Proof. unfold set_stack. simpl. by destruct (_board s !! pos.1). Qed.

Lemma set_current_player_back s pl :
  set_current_player (set_current_player s pl) (current_player s) = s.
Proof. by destruct s. Qed.

Lemma opponent_involutive pl : opponent (opponent pl) = pl.
Proof. by destruct pl. Qed.

(** ** Push and pop on a cell undo each other *)

Lemma remove_top_place_piece s s' p pos :
  place_piece s p pos = Some s' → remove_top s' pos = Some (p, s).
Proof.
  unfold place_piece, remove_top. intros H.
  destruct (get_stack s pos) as [stack|] eqn:Hs; [|done].
  injection H as <-.
  rewrite get_stack_set_stack_eq by (by rewrite Hs). simpl.
  rewrite pop_stack_snoc. simpl.
  by rewrite set_stack_set_stack, set_stack_id.
Qed.

Lemma place_piece_remove_top s s' p pos :
  remove_top s pos = Some (p, s') → place_piece s' p pos = Some s.
Proof.
  unfold place_piece, remove_top. intros H.
  destruct (get_stack s pos) as [stack|] eqn:Hs; [|done]. simpl in H.
  destruct (pop_stack stack) as [[q rest]|] eqn:Hp; [|done].
  injection H as -> <-. apply pop_stack_Some in Hp as ->.
  rewrite get_stack_set_stack_eq by (by rewrite Hs). simpl.
  by rewrite set_stack_set_stack, set_stack_id.
Qed.

Lemma reserves_place_piece s s' p pos :
  place_piece s p pos = Some s' → _reserves s' = _reserves s.
Proof.
  unfold place_piece. destruct (get_stack s pos); [|done].
  intros [= <-]. apply reserves_set_stack.
Qed.

Lemma reserves_remove_top s s' p pos :
  remove_top s pos = Some (p, s') → _reserves s' = _reserves s.
Proof.
  unfold remove_top. destruct (get_stack s pos) as [stack|]; [|done]. simpl.
  destruct (pop_stack stack) as [[q rest]|]; [|done].
  intros [= _ <-]. apply reserves_set_stack.
Qed.

Lemma current_player_place_piece s s' p pos :
  place_piece s p pos = Some s' → current_player s' = current_player s.
Proof.
  unfold place_piece. destruct (get_stack s pos); [|done].
  intros [= <-]. apply current_player_set_stack.
Qed.

Lemma current_player_remove_top s s' p pos :
  remove_top s pos = Some (p, s') → current_player s' = current_player s.
Proof.
  unfold remove_top. destruct (get_stack s pos) as [stack|]; [|done]. simpl.
  destruct (pop_stack stack) as [[q rest]|]; [|done].
  intros [= _ <-]. apply current_player_set_stack.
Qed.

Lemma place_piece_set_current_player s s' p pos pl :
  place_piece s p pos = Some s' →
  place_piece (set_current_player s pl) p pos = Some (set_current_player s' pl).
Proof.
  unfold place_piece, get_stack. simpl.
  destruct (_board s !! pos.1 ≫= λ row, row !! pos.2); [|done].
  intros [= <-]. simpl. by rewrite set_current_player_set_stack.
Qed.

Lemma remove_top_set_current_player s s' p pos pl :
  remove_top s pos = Some (p, s') →
  remove_top (set_current_player s pl) pos = Some (p, set_current_player s' pl).
Proof.
  unfold remove_top, get_stack. simpl.
  destruct (_board s !! pos.1 ≫= λ row, row !! pos.2) as [stack|]; [|done].
  simpl. destruct (pop_stack stack) as [[q rest]|]; [|done].
  intros [= -> <-]. simpl. by rewrite set_current_player_set_stack.
Qed.

(** ** Reserves are a frame of every slide *)

Lemma reserves_finish_move s m p r u s' :
  finish_move s m p = (r, u, s') → _reserves s' = _reserves s.
Proof.
  unfold finish_move. destruct (check_winner s); by intros [= _ _ <-].
Qed.

(** A placement from the reserve, in contrast, takes one piece of the
    placed size from the mover's reserve. *)
Lemma place_decrements_reserve s m r u s' :
  from_pos m = None →
  apply_move_in_place s m = Some (r, u, s') →
  ∃ sz n, move_size m = Some sz ∧
          _reserves s !! (current_player s, sz) = Some n ∧
          _reserves s' = <[(current_player s, sz) := n - 1]> (_reserves s).
Proof.
  unfold apply_move_in_place. intros -> H.
  destruct (move_size m) as [sz|]; [|done]. simpl in H.
  destruct (_reserves s !! (current_player s, sz)) as [n|] eqn:Hn; [|done].
  simpl in H.
  destruct (place_piece _ _ _) as [s2|] eqn:Hp; [|done]. simpl in H.
  injection H as H. apply reserves_finish_move in H.
  apply reserves_place_piece in Hp. exists sz, n.
  split; [done|]. split; [done|]. by rewrite H, Hp.
Qed.

(** C10.  For a slide (a move with an origin square) the in-place apply
    leaves every reserve count as it was, whether the slide is completed
    or ends in a reveal loss, and so does the undo of a slide. *)
Theorem slide_preserves_reserves (s : GameState) (m : Move) (fp : Position) :
  from_pos m = Some fp →
  (∀ r u s', apply_move_in_place s m = Some (r, u, s') →
             _reserves s' = _reserves s) ∧
  (∀ u s', move u = m → undo_move_in_place s u = Some s' →
           _reserves s' = _reserves s).
Proof.
  intros Hfrom. split.
  - intros r u s'. unfold apply_move_in_place. rewrite Hfrom.
    destruct (remove_top s fp) as [[p s1]|] eqn:Hrm; [|done]. simpl.
    apply reserves_remove_top in Hrm.
    assert (Hplace : ∀ x,
      (place_piece s1 p (to_pos m) ≫= λ s2, Some (finish_move s2 m p))
      = Some x → _reserves x.2 = _reserves s).
    { intros [[r' u'] x] H.
      destruct (place_piece s1 p (to_pos m)) as [s2|] eqn:Hp; [|done].
      injection H as H. apply reserves_finish_move in H.
      apply reserves_place_piece in Hp. simpl. congruence. }
    destruct (get_winning_lines s1 _) as [|l ls].
    + intros H. by apply Hplace in H.
    + destruct (can_save s1 m p (l :: ls)).
      * intros H. by apply Hplace in H.
      * by intros [= _ _ <-].
  - intros u s' Hm. unfold undo_move_in_place. rewrite Hm, Hfrom.
    set (s0 := if player_switched u then _ else _).
    assert (Hs0 : _reserves s0 = _reserves s) by (subst s0; by destruct (player_switched u)).
    destruct (move_completed u); simpl.
    + destruct (remove_top s0 (to_pos m)) as [[q s1]|] eqn:Hrm; [|done].
      simpl. intros Hp. apply reserves_place_piece in Hp.
      apply reserves_remove_top in Hrm. congruence.
    + intros Hp. apply reserves_place_piece in Hp. congruence.
Qed.

(** ** Undo restores the position *)

Lemma undo_finish_move s0 s m p r u s' :
  current_player s = current_player s0 →
  finish_move s m p = (r, u, s') →
  (if player_switched u
   then set_current_player s' (opponent (current_player s')) else s') = s
  ∧ move u = m ∧ piece u = p ∧ move_completed u = true.
Proof.
  unfold finish_move. intros Hpl.
  destruct (check_winner s); intros [= <- <- <-]; simpl; [done|].
  rewrite opponent_involutive. by destruct s.
Qed.

(** Undo after apply gives back the position, for any move on which apply
    does not fail. *)
Lemma undo_apply s m r u s' :
  apply_move_in_place s m = Some (r, u, s') →
  undo_move_in_place s' u = Some s.
Proof.
  unfold apply_move_in_place.
  destruct (from_pos m) as [fp|] eqn:Hfrom.
  - destruct (remove_top s fp) as [[p s1]|] eqn:Hrm; [|done]. simpl.
    assert (Hplace :
      (place_piece s1 p (to_pos m) ≫= λ s2, Some (finish_move s2 m p))
      = Some (r, u, s') → undo_move_in_place s' u = Some s).
    { intros H.
      destruct (place_piece s1 p (to_pos m)) as [s2|] eqn:Hp; [|done].
      injection H as H.
      apply (undo_finish_move s2) in H as (Hback & Hm & Hpc & Hc); [|done].
      unfold undo_move_in_place. rewrite Hc, Hm, Hpc, Hfrom, Hback. simpl.
      apply remove_top_place_piece in Hp. rewrite Hp. simpl.
      by apply place_piece_remove_top. }
    destruct (get_winning_lines s1 _) as [|l ls]; [done|].
    destruct (can_save s1 m p (l :: ls)); [done|].
    intros [= <- <- <-]. unfold undo_move_in_place. simpl. rewrite Hfrom.
    simpl. by apply place_piece_remove_top.
  - destruct (move_size m) as [sz|]; [|done]. simpl.
    destruct (_reserves s !! (current_player s, sz)) as [n|] eqn:Hn; [|done].
    simpl.
    destruct (place_piece _ _ (to_pos m)) as [s2|] eqn:Hp; [|done]. simpl.
    intros [= H].
    apply (undo_finish_move s2) in H as (Hback & Hm & Hpc & Hc); [|done].
    unfold undo_move_in_place. rewrite Hc, Hm, Hpc, Hfrom, Hback. simpl.
    apply remove_top_place_piece in Hp. rewrite Hp. simpl.
    rewrite lookup_insert_eq. simpl. f_equal.
    unfold set_reserves. simpl.
    rewrite insert_insert_eq.
    replace (n - 1 + 1) with n by lia.
    rewrite insert_id by done. by destruct s.
Qed.

(** ** What the generator emits *)

Lemma elem_of_all_positions (pos : Position) :
  pos ∈ all_positions ↔ (pos.1 < 3)%nat ∧ (pos.2 < 3)%nat.
Proof.
  destruct pos as [r c]. simpl. split.
  - intros H. vm_compute in H.
    repeat (apply elem_of_cons in H as [[= -> ->]|H]; [lia|]).
    by apply elem_of_nil in H.
  - intros [Hr Hc].
    apply list_elem_of_In.
    do 3 (destruct r as [|r]; [do 3 (destruct c as [|c]; [simpl; tauto|]); lia|]).
    lia.
Qed.

Lemma board_shape_get_stack s pos :
  board_shape s → pos ∈ all_positions → is_Some (get_stack s pos).
Proof.
  intros [Hlen Hrows] [Hr Hc]%elem_of_all_positions. unfold get_stack.
  destruct (lookup_lt_is_Some_2 (_board s) pos.1) as [row Hrow]; [lia|].
  rewrite Hrow. simpl. apply lookup_lt_is_Some_2.
  rewrite Forall_forall in Hrows.
  rewrite (Hrows row); [done|]. by eapply list_elem_of_lookup_2.
Qed.

Lemma get_stack_all_positions s pos :
  board_shape s → is_Some (get_stack s pos) → pos ∈ all_positions.
Proof.
  intros [Hlen Hrows] [stack H]. apply elem_of_all_positions.
  unfold get_stack in H.
  destruct (_board s !! pos.1) as [row|] eqn:Hrow; [|done]. simpl in H.
  apply lookup_lt_Some in H. rewrite Forall_forall in Hrows.
  rewrite (Hrows row) in H by (by eapply list_elem_of_lookup_2).
  apply lookup_lt_Some in Hrow. lia.
Qed.

Lemma winning_lines_positions line pos :
  line ∈ WINNING_LINES → pos ∈ line → pos ∈ all_positions.
Proof.
  intros Hl Hp. apply elem_of_all_positions.
  unfold WINNING_LINES in Hl.
  repeat (apply elem_of_cons in Hl as [->|Hl];
          [repeat (apply elem_of_cons in Hp as [->|Hp]; [simpl; lia|]);
           by apply elem_of_nil in Hp|]).
  by apply elem_of_nil in Hl.
Qed.

Lemma elem_of_get_winning_lines s pl line :
  line ∈ get_winning_lines s pl → line ∈ WINNING_LINES.
Proof.
  unfold get_winning_lines. rewrite !list_elem_of_In.
  intros H. by apply filter_In in H as [H _].
Qed.

Lemma board_shape_set_stack s pos stack :
  board_shape s → board_shape (set_stack s pos stack).
Proof.
  intros [Hlen Hrows]. unfold set_stack.
  destruct (_board s !! pos.1) as [row|] eqn:Hrow; [|done].
  split; simpl.
  - by rewrite length_insert.
  - apply Forall_insert; [done|]. rewrite length_insert.
    rewrite Forall_forall in Hrows. apply Hrows.
    by eapply list_elem_of_lookup_2.
Qed.

Lemma board_shape_remove_top s s' p pos :
  board_shape s → remove_top s pos = Some (p, s') → board_shape s'.
Proof.
  unfold remove_top. intros Hs.
  destruct (get_stack s pos) as [stack|]; [|done]. simpl.
  destruct (pop_stack stack) as [[q rest]|]; [|done].
  intros [= _ <-]. by apply board_shape_set_stack.
Qed.

Lemma board_shape_place_piece s s' p pos :
  board_shape s → place_piece s p pos = Some s' → board_shape s'.
Proof.
  unfold place_piece. intros Hs.
  destruct (get_stack s pos) as [stack|]; [|done].
  intros [= <-]. by apply board_shape_set_stack.
Qed.

Lemma get_top_remove_top s pos top :
  get_top s pos = Some top →
  ∃ s', remove_top s pos = Some (top, s').
Proof.
  unfold get_top, remove_top, pop_stack.
  destruct (get_stack s pos) as [stack|]; [|done]. simpl.
  intros ->. eauto.
Qed.

Lemma remove_top_get_top s s' pos p :
  remove_top s pos = Some (p, s') → get_top s pos = Some p.
Proof.
  unfold get_top, remove_top, pop_stack.
  destruct (get_stack s pos) as [stack|]; [|done]. simpl.
  destruct (last stack); [|done]. by intros [= -> _].
Qed.

Lemma elem_of_reserve_moves s m :
  m ∈ reserve_moves s ↔
  ∃ sz pos, m = place_move (current_player s) sz pos ∧
            has_reserve s (current_player s) sz = true ∧
            pos ∈ all_positions ∧
            can_place_at (mkPiece (current_player s) sz) pos s = true.
Proof.
  unfold reserve_moves. rewrite list_elem_of_bind. split.
  - intros (sz & H & _).
    destruct (has_reserve s (current_player s) sz) eqn:Hr;
      [|by apply elem_of_nil in H].
    apply list_elem_of_bind in H as (pos & H & Hpos).
    destruct (can_place_at _ pos s) eqn:Hc; [|by apply elem_of_nil in H].
    apply list_elem_of_singleton in H. by exists sz, pos.
  - intros (sz & pos & -> & Hr & Hpos & Hc). exists sz. split.
    + rewrite Hr. apply list_elem_of_bind. exists pos. split; [|done].
      rewrite Hc. by apply list_elem_of_singleton.
    + apply list_elem_of_In. destruct sz; simpl; auto.
Qed.

Lemma elem_of_free_slides s top fp m :
  m ∈ free_slides s top fp ↔
  ∃ tp, m = slide_move (current_player s) fp tp ∧ tp ∈ all_positions ∧
        fp ≠ tp ∧ can_place_at top tp s = true.
Proof.
  unfold free_slides. rewrite list_elem_of_bind. split.
  - intros (tp & H & Htp).
    destruct (bool_decide (fp ≠ tp)) eqn:Hne; simpl in H;
      [|by apply elem_of_nil in H].
    destruct (can_place_at top tp s) eqn:Hc; [|by apply elem_of_nil in H].
    apply list_elem_of_singleton in H. apply bool_decide_eq_true in Hne.
    by exists tp.
  - intros (tp & -> & Htp & Hne & Hc). exists tp. split; [|done].
    rewrite bool_decide_eq_true_2, Hc by done. by apply list_elem_of_singleton.
Qed.

Lemma elem_of_set_add pos x acc :
  x ∈ set_add pos acc ↔ x ∈ acc ∨ x = pos.
Proof.
  unfold set_add. case_bool_decide as Hin.
  - split; [by left|]. by intros [Hx| ->].
  - by rewrite elem_of_app, list_elem_of_singleton.
Qed.

Lemma elem_of_valid_targets_line sl top fp line acc x :
  x ∈ foldl (λ acc' pos,
               if bool_decide (pos = fp) then acc'
               else match get_top sl pos with
                    | Some target_top =>
                        if can_gobble top target_top
                        then set_add pos acc' else acc'
                    | None => acc'
                    end) acc line
  ↔ x ∈ acc ∨
    (x ∈ line ∧ x ≠ fp ∧
     ∃ t, get_top sl x = Some t ∧ can_gobble top t = true).
Proof.
  revert acc. induction line as [|pos line IH]; intros acc; simpl.
  - split; [by left|]. intros [H|[H _]]; [done|by apply elem_of_nil in H].
  - rewrite IH. clear IH. rewrite elem_of_cons.
    case_bool_decide as Hfp.
    + subst pos. naive_solver.
    + destruct (get_top sl pos) as [t|] eqn:Ht.
      * destruct (can_gobble top t) eqn:Hg.
        -- rewrite elem_of_set_add. split.
           ++ intros [[Hx|Hx]|(Hx & Hne & Hg')]; [by left| |right; eauto].
              subst x. right. split; [by left|]. split; [done|]. by exists t.
           ++ intros [Hx|([Hx|Hx] & Hne & Hg')];
                [by left; left|by left; right|right; eauto].
        -- split.
           ++ intros [Hx|(Hx & Hne & Hg')]; [by left|right; eauto].
           ++ intros [Hx|([Hx|Hx] & Hne & t0 & Ht0 & Hg')];
                [by left| |right; eauto].
              subst x. congruence.
      * split.
        -- intros [Hx|(Hx & Hne & Hg')]; [by left|right; eauto].
        -- intros [Hx|([Hx|Hx] & Hne & t0 & Ht0 & Hg')];
             [by left| |right; eauto].
           subst x. congruence.
Qed.

Lemma elem_of_valid_targets sl top fp L tp :
  tp ∈ valid_targets sl top fp L ↔ saves_some_line sl top L tp ∧ tp ≠ fp.
Proof.
  unfold valid_targets, saves_some_line.
  assert (G : ∀ acc,
    tp ∈ foldl (λ acc line,
           foldl (λ acc' pos,
                    if bool_decide (pos = fp) then acc'
                    else match get_top sl pos with
                         | Some target_top =>
                             if can_gobble top target_top
                             then set_add pos acc' else acc'
                         | None => acc'
                         end)
                 acc line) acc L
    ↔ tp ∈ acc ∨
      (((∃ line, line ∈ L ∧ tp ∈ line) ∧
        (∃ t, get_top sl tp = Some t ∧ can_gobble top t = true)) ∧ tp ≠ fp)).
  { induction L as [|line L IH]; intros acc; simpl.
    - split; [by left|]. intros [H|[[(l & H & _) _] _]]; [done|].
      by apply elem_of_nil in H.
    - rewrite IH, elem_of_valid_targets_line. clear IH.
      setoid_rewrite elem_of_cons. naive_solver. }
  rewrite G. split; [|by right]. intros [H|H]; [|done].
  by apply elem_of_nil in H.
Qed.

Lemma elem_of_generate_moves s m :
  m ∈ generate_moves s ↔
  m ∈ reserve_moves s ∨ ∃ fp, fp ∈ all_positions ∧ m ∈ board_moves_from s fp.
Proof.
  unfold generate_moves, generate_moves_opt, generate_moves_with_reveal_check.
  rewrite elem_of_app, list_elem_of_bind.
  split; (intros [H|(fp & H1 & H2)]; [by left|right; by exists fp]).
Qed.

Lemma from_pos_board_moves_from s fp m :
  m ∈ board_moves_from s fp → from_pos m = Some fp.
Proof.
  unfold board_moves_from.
  destruct (get_top s fp) as [top|]; [|by intros ?%elem_of_nil].
  case_bool_decide; [by intros ?%elem_of_nil|].
  destruct (remove_top s fp) as [[q sl]|]; [|by intros ?%elem_of_nil].
  destruct (get_winning_lines sl _).
  - by intros (tp & -> & _)%elem_of_free_slides.
  - by intros (tp & -> & _)%list_elem_of_fmap.
Qed.

Lemma from_pos_reserve_moves s m :
  m ∈ reserve_moves s → from_pos m = None.
Proof. by intros (sz & pos & -> & _)%elem_of_reserve_moves. Qed.

Lemma can_save_true s1 m p L :
  can_save s1 m p L = true ↔ saves_some_line s1 p L (to_pos m).
Proof.
  unfold can_save, saves_some_line. rewrite existsb_exists. split.
  - intros (line & Hin & H). apply andb_true_iff in H as [H1 H2].
    apply bool_decide_eq_true in H1. apply list_elem_of_In in Hin.
    split; [by exists line|].
    destruct (get_top s1 (to_pos m)) as [t|]; [|done]. by exists t.
  - intros [(line & Hin & Hline) (t & Ht & Hg)]. exists line.
    split; [by apply list_elem_of_In|].
    rewrite Ht, Hg, bool_decide_eq_true_2; done.
Qed.

Lemma finish_move_completed s m p :
  move_completed (finish_move s m p).1.2 = true.
Proof. unfold finish_move. by destruct (check_winner s). Qed.

(** The reveal branch of the generator, for an origin whose lift shows
    opponent lines. *)
Lemma board_moves_from_reveal s fp top sl m :
  remove_top s fp = Some (top, sl) →
  player top = current_player s →
  get_winning_lines sl (opponent (current_player s)) ≠ [] →
  m ∈ board_moves_from s fp ↔
  ∃ tp, m = slide_move (current_player s) fp tp ∧
        saves_some_line sl top
          (get_winning_lines sl (opponent (current_player s))) tp ∧ tp ≠ fp.
Proof.
  intros Hrm Hpl HL. unfold board_moves_from.
  rewrite (remove_top_get_top _ _ _ _ Hrm), Hrm.
  rewrite bool_decide_eq_false_2 by (intros Hne; by apply Hne).
  destruct (get_winning_lines sl _) as [|l ls] eqn:HLs; [done|].
  rewrite list_elem_of_fmap. setoid_rewrite elem_of_valid_targets. done.
Qed.

(** Every generated move is applied without failure and is completed: the
    generator never emits a slide that would end in a reveal loss. *)
Lemma generated_move_applies s m :
  board_shape s → m ∈ generate_moves s →
  ∃ r u s', apply_move_in_place s m = Some (r, u, s') ∧
            move_completed u = true.
Proof.
  intros Hshape [Hm|(fp & Hfp & Hm)]%elem_of_generate_moves.
  - apply elem_of_reserve_moves in Hm as (sz & pos & -> & Hr & Hpos & _).
    unfold apply_move_in_place. simpl.
    unfold has_reserve, get_reserve in Hr.
    destruct (_reserves s !! (current_player s, sz)) as [n|]; [|done]. simpl.
    destruct (board_shape_get_stack
                (set_reserves s (<[(current_player s, sz) := n - 1]> (_reserves s)))
                pos Hshape Hpos) as [stack Hstack].
    unfold place_piece. rewrite Hstack. simpl.
    destruct (finish_move _ _ _) as [[r u] s'] eqn:Hf.
    exists r, u, s'. split; [done|].
    pose proof (finish_move_completed
      (set_stack (set_reserves s (<[(current_player s, sz) := n - 1]> (_reserves s)))
                 pos (stack ++ [mkPiece (current_player s) sz]))
      (place_move (current_player s) sz pos)
      (mkPiece (current_player s) sz)) as Hc.
    by rewrite Hf in Hc.
  - assert (Hplace : ∀ sl p tp, board_shape sl → tp ∈ all_positions →
      ∃ r u s',
        (place_piece sl p tp ≫= λ s2,
           Some (finish_move s2 (slide_move (current_player s) fp tp) p))
        = Some (r, u, s') ∧ move_completed u = true).
    { intros sl p tp Hsl Htp.
      destruct (board_shape_get_stack sl tp Hsl Htp) as [stack Hstack].
      unfold place_piece. rewrite Hstack. simpl.
      destruct (finish_move _ _ _) as [[r u] s'] eqn:Hf.
      exists r, u, s'. split; [done|].
      pose proof (finish_move_completed (set_stack sl tp (stack ++ [p]))
                    (slide_move (current_player s) fp tp) p) as Hc.
      by rewrite Hf in Hc. }
    unfold board_moves_from in Hm.
    destruct (get_top s fp) as [top|] eqn:Htop; [|by apply elem_of_nil in Hm].
    case_bool_decide as Hpl; [by apply elem_of_nil in Hm|].
    destruct (get_top_remove_top _ _ _ Htop) as [sl Hrm].
    rewrite Hrm in Hm.
    pose proof (board_shape_remove_top _ _ _ _ Hshape Hrm) as Hsl.
    unfold apply_move_in_place.
    destruct (get_winning_lines sl _) as [|l ls] eqn:HL.
    + apply elem_of_free_slides in Hm as (tp & -> & Htp & _). simpl.
      rewrite Hrm. simpl. rewrite HL. by apply Hplace.
    + apply list_elem_of_fmap in Hm as (tp & -> & Htp). simpl.
      rewrite Hrm. simpl. rewrite HL.
      apply elem_of_valid_targets in Htp as [Hsave Hne].
      pose proof Hsave as [(line & Hline & Hin) _].
      rewrite <- HL in Hline. apply elem_of_get_winning_lines in Hline.
      apply (can_save_true sl (slide_move (current_player s) fp tp)) in Hsave.
      rewrite Hsave. apply Hplace; [done|].
      by eapply winning_lines_positions.
Qed.

(** X1.  The reveal rule as the engine implements it.  For a slide of
    the mover's top piece from [fp] whose lift shows a non-empty list
    [L] of opponent lines:
    - the generator emits the slide to [tp] exactly when [tp] lies on at
      least one line of [L], the lifted piece strictly gobbles the top
      found at [tp], and [tp] is not the origin;
    - for a destination other than the origin, the in-place apply
      completes the slide under the same condition and otherwise ends in
      a reveal loss: the piece stays lifted and the opponent is returned
      as the winner. *)
Theorem reveal_rule_some_line (s sl : GameState) (fp tp : Position) (top : Piece) :
  board_shape s →
  remove_top s fp = Some (top, sl) →
  player top = current_player s →
  get_winning_lines sl (opponent (current_player s)) ≠ [] →
  let L := get_winning_lines sl (opponent (current_player s)) in
  let m := slide_move (current_player s) fp tp in
  (m ∈ generate_moves s ↔ saves_some_line sl top L tp ∧ tp ≠ fp) ∧
  (tp ≠ fp →
   ∃ r u s', apply_move_in_place s m = Some (r, u, s') ∧
     (move_completed u = true ↔ saves_some_line sl top L tp) ∧
     (move_completed u = false →
      r = winner (opponent (current_player s)) ∧ s' = sl)).
Proof.
  intros Hshape Hrm Hpl HL L m. split.
  - rewrite elem_of_generate_moves. split.
    + intros [Hm|(fp' & Hfp' & Hm)].
      * by apply from_pos_reserve_moves in Hm.
      * pose proof (from_pos_board_moves_from _ _ _ Hm) as [= <-].
        apply (board_moves_from_reveal _ _ _ _ _ Hrm Hpl HL) in Hm
          as (tp' & [= <-] & Hsave). done.
    + intros [Hsave Hne]. right. exists fp. split.
      * apply get_stack_all_positions with s; [done|].
        unfold remove_top in Hrm.
        destruct (get_stack s fp); [by eexists|done].
      * apply (board_moves_from_reveal _ _ _ _ _ Hrm Hpl HL). by exists tp.
  - intros Hne. unfold apply_move_in_place. subst m. simpl.
    rewrite Hrm. simpl. fold L.
    destruct L as [|l ls] eqn:HLs; [done|]. rewrite <- HLs.
    destruct (can_save sl _ top L) eqn:Hsave.
    + pose proof Hsave as Hsave'. apply can_save_true in Hsave'. simpl in Hsave'.
      pose proof Hsave' as [(line & Hline & Hin) _].
      apply elem_of_get_winning_lines in Hline.
      pose proof (winning_lines_positions _ _ Hline Hin) as Htp.
      pose proof (board_shape_remove_top _ _ _ _ Hshape Hrm) as Hsl.
      destruct (board_shape_get_stack sl tp Hsl Htp) as [stack Hstack].
      unfold place_piece. rewrite Hstack. simpl.
      destruct (finish_move _ _ _) as [[r u] s'] eqn:Hf.
      exists r, u, s'. split; [done|].
      pose proof (finish_move_completed (set_stack sl tp (stack ++ [top]))
                    (slide_move (current_player s) fp tp) top) as Hc.
      rewrite Hf in Hc. simpl in Hc. rewrite Hc. split; [done|]. done.
    + eexists _, _, _. split; [done|]. simpl. split; [|done].
      split; [done|]. intros Hs.
      apply (can_save_true sl (slide_move (current_player s) fp tp)) in Hs.
      congruence.
Qed.

(** C1.  The reveal rule asks for a destination on every revealed line,
    and so does the comment in [apply_move_in_place].  On
    [double_reveal_state] the lift of the centre piece reveals both
    diagonals of player TWO; the generator emits the slide to the corner
    (0,0), which lies on one of them only. *)
Lemma reveal_rule_every_line_counterexample :
  remove_top double_reveal_state (1, 1)%nat = Some (P1L, double_reveal_lifted) ∧
  player P1L = current_player double_reveal_state ∧
  get_winning_lines double_reveal_lifted TWO
    = [ [(0, 0); (1, 1); (2, 2)]; [(0, 2); (1, 1); (2, 0)] ]%nat ∧
  ¬ (slide_move ONE (1, 1)%nat (0, 0)%nat ∈ generate_moves double_reveal_state
     ↔ saves_every_line double_reveal_lifted P1L
         (get_winning_lines double_reveal_lifted TWO) (0, 0)%nat
       ∧ (0, 0)%nat ≠ (1, 1)%nat).
Proof.
  split; [reflexivity|]. split; [reflexivity|]. split; [reflexivity|].
  intros [H _].
  assert (Hgen : slide_move ONE (1, 1)%nat (0, 0)%nat
                 ∈ generate_moves double_reveal_state).
  { apply (bool_decide_unpack _). by vm_compute. }
  apply H in Hgen as [[Hevery _] _].
  specialize (Hevery [(0, 2); (1, 1); (2, 0)]%nat).
  assert (Hin : [(0, 2); (1, 1); (2, 0)]%nat
                ∈ get_winning_lines double_reveal_lifted TWO).
  { apply (bool_decide_unpack _). by vm_compute. }
  apply Hevery in Hin. revert Hin. apply (bool_decide_unpack _). by vm_compute.
Qed.

(** The in-place apply completes that slide; the winner check that
    follows finds the diagonal left open. *)
Example double_reveal_apply :
  ∃ s', apply_move_in_place double_reveal_state
          (slide_move ONE (1, 1)%nat (0, 0)%nat)
        = Some (PLAYER_TWO_WINS,
                mkUndo (slide_move ONE (1, 1)%nat (0, 0)%nat) P1L true false, s').
Proof. eexists. by vm_compute. Qed.

(** The in-place apply does not refuse a slide back onto its origin. *)
Example same_square_apply :
  ∃ s', apply_move_in_place double_reveal_state
          (slide_move ONE (1, 1)%nat (1, 1)%nat)
        = Some (ONGOING,
                mkUndo (slide_move ONE (1, 1)%nat (1, 1)%nat) P1L true true, s').
Proof. eexists. by vm_compute. Qed.

Lemma board_shape_initial : board_shape initial_state.
Proof. split; [reflexivity|]. by repeat constructor. Qed.

Lemma board_shape_double_reveal : board_shape double_reveal_state.
Proof. split; [reflexivity|]. by repeat constructor. Qed.

Lemma reveal_rule_some_line_witness :
  let s := double_reveal_state in
  let sl := double_reveal_lifted in
  let L := get_winning_lines sl (opponent (current_player s)) in
  let m := slide_move (current_player s) (1, 1)%nat (0, 0)%nat in
  (m ∈ generate_moves s
   ↔ saves_some_line sl P1L L (0, 0)%nat ∧ (0, 0)%nat ≠ (1, 1)%nat) ∧
  ((0, 0)%nat ≠ (1, 1)%nat →
   ∃ r u s', apply_move_in_place s m = Some (r, u, s') ∧
     (move_completed u = true ↔ saves_some_line sl P1L L (0, 0)%nat) ∧
     (move_completed u = false →
      r = winner (opponent (current_player s)) ∧ s' = sl)).
Proof.
  apply (reveal_rule_some_line double_reveal_state double_reveal_lifted
           (1, 1)%nat (0, 0)%nat P1L).
  - exact board_shape_double_reveal.
  - reflexivity.
  - reflexivity.
  - vm_compute. discriminate.
Defined.

Lemma slide_preserves_reserves_witness :
  (∀ r u s',
     apply_move_in_place double_reveal_state
       (slide_move ONE (1, 1)%nat (0, 0)%nat) = Some (r, u, s') →
     _reserves s' = _reserves double_reveal_state) ∧
  (∀ u s', move u = slide_move ONE (1, 1)%nat (0, 0)%nat →
     undo_move_in_place double_reveal_state u = Some s' →
     _reserves s' = _reserves double_reveal_state).
Proof.
  apply (slide_preserves_reserves double_reveal_state
           (slide_move ONE (1, 1)%nat (0, 0)%nat) (1, 1)%nat).
  reflexivity.
Defined.

(** C2.  For every position [p] and every generated move [m], the
    in-place apply succeeds and the undo of its record gives back [p]:
    the same stacks, the same reserves, the same side to move.  The undo
    restores the position after any apply that does not fail, a slide
    ended by a reveal loss included. *)
Theorem apply_undo_roundtrip (p : GameState) (m : Move) :
  board_shape p → m ∈ generate_moves p →
  (∃ r u p', apply_move_in_place p m = Some (r, u, p') ∧
             undo_move_in_place p' u = Some p) ∧
  (∀ m' r u p', apply_move_in_place p m' = Some (r, u, p') →
                undo_move_in_place p' u = Some p).
Proof.
  intros Hshape Hm. split.
  - destruct (generated_move_applies p m Hshape Hm) as (r & u & p' & H & _).
    exists r, u, p'. split; [done|]. by eapply undo_apply.
  - intros m' r u p'. apply undo_apply.
Qed.

Lemma apply_undo_roundtrip_witness :
  (∃ r u p',
     apply_move_in_place initial_state (place_move ONE SMALL (1, 1)%nat)
       = Some (r, u, p') ∧
     undo_move_in_place p' u = Some initial_state) ∧
  (∀ m' r u p', apply_move_in_place initial_state m' = Some (r, u, p') →
                undo_move_in_place p' u = Some initial_state).
Proof.
  apply (apply_undo_roundtrip initial_state (place_move ONE SMALL (1, 1)%nat)).
  - exact board_shape_initial.
  - apply (bool_decide_unpack _). by vm_compute.
Defined.

(** The reveal loss of [test_reveal_loss_roundtrip]: the large piece is
    lifted, the slide is not completed, and the undo puts it back. *)
Example reveal_loss_roundtrip :
  ∃ u s',
    apply_move_in_place reveal_loss_state (slide_move TWO (0, 0)%nat (1, 1)%nat)
      = Some (PLAYER_ONE_WINS, u, s') ∧
    reveal_loss u ∧ get_stack s' (0, 0)%nat = Some [P1S] ∧
    undo_move_in_place s' u = Some reveal_loss_state.
Proof.
  eexists _, _. split; [by vm_compute|].
  split; [reflexivity|]. split; [reflexivity|]. by vm_compute.
Qed.

(** * Properties of the encoding *)

(** ** Bit fields as arithmetic *)

Lemma land_shiftl_low a b n :
  0 ≤ n → 0 ≤ a < 2 ^ n → Z.land a (Z.shiftl b n) = 0.
Proof.
  intros Hn Ha. apply Z.bits_inj'. intros m Hm.
  rewrite Z.land_spec, Z.bits_0.
  destruct (decide (m < n)) as [Hlt|Hge].
  - rewrite (Z.shiftl_spec_low b n m Hlt). apply andb_false_r.
  - rewrite <- (Z.mod_small a (2 ^ n)) by lia.
    rewrite Z.mod_pow2_bits_high by lia. done.
Qed.

Lemma lor_shiftl_add a b n :
  0 ≤ n → 0 ≤ a < 2 ^ n → Z.lor a (Z.shiftl b n) = a + b * 2 ^ n.
Proof.
  intros Hn Ha.
  pose proof (Zbitwise.Z.add_lor_land a (Z.shiftl b n)) as H.
  rewrite land_shiftl_low in H by done.
  rewrite <- (Z.shiftl_mul_pow2 b n) by done. lia.
Qed.

Ltac lor_to_add :=
  repeat match goal with
         | |- context [Z.lor ?a (Z.shiftl ?b ?n)] =>
             rewrite (lor_shiftl_add a b n) by lia
         end.

Lemma lor_cells c0 c1 c2 c3 c4 c5 c6 c7 c8 p :
  is_cell c0 → is_cell c1 → is_cell c2 → is_cell c3 → is_cell c4 →
  is_cell c5 → is_cell c6 → is_cell c7 → is_cell c8 →
  Z.lor (Z.lor (Z.lor (Z.lor (Z.lor (Z.lor (Z.lor (Z.lor (Z.lor (Z.lor 0
     (Z.shiftl c0 0)) (Z.shiftl c1 6)) (Z.shiftl c2 12)) (Z.shiftl c3 18))
     (Z.shiftl c4 24)) (Z.shiftl c5 30)) (Z.shiftl c6 36)) (Z.shiftl c7 42))
     (Z.shiftl c8 48)) (Z.shiftl p 54)
  = pack c0 c1 c2 c3 c4 c5 c6 c7 c8 p.
Proof. unfold is_cell, pack. intros. lor_to_add. lia. Qed.

Lemma shiftr_cons c R n :
  is_cell c → 0 ≤ n → Z.shiftr (c + 64 * R) (n + 6) = Z.shiftr R n.
Proof.
  intros Hc Hn. replace (n + 6) with (6 + n) by lia.
  rewrite <- Z.shiftr_shiftr by lia.
  f_equal. rewrite Z.shiftr_div_pow2 by lia. change (2 ^ 6) with 64.
  replace (c + 64 * R) with (c + R * 64) by lia.
  rewrite Z.div_add by lia. rewrite Z.div_small by done. lia.
Qed.

Lemma land_cons c R : is_cell c → Z.land (c + 64 * R) 63 = c.
Proof.
  intros Hc. change 63 with (Z.ones 6). rewrite Z.land_ones by lia.
  change (2 ^ 6) with 64. replace (c + 64 * R) with (c + R * 64) by lia.
  rewrite Z.mod_add by lia. by apply Z.mod_small.
Qed.

Ltac name_shifts :=
  change (0 * 6) with 0; change (1 * 6) with (0 + 6);
  change (2 * 6) with (0 + 6 + 6); change (3 * 6) with (0 + 6 + 6 + 6);
  change (4 * 6) with (0 + 6 + 6 + 6 + 6);
  change (5 * 6) with (0 + 6 + 6 + 6 + 6 + 6);
  change (6 * 6) with (0 + 6 + 6 + 6 + 6 + 6 + 6);
  change (7 * 6) with (0 + 6 + 6 + 6 + 6 + 6 + 6 + 6);
  change (8 * 6) with (0 + 6 + 6 + 6 + 6 + 6 + 6 + 6 + 6);
  change 54 with (0 + 6 + 6 + 6 + 6 + 6 + 6 + 6 + 6 + 6).

(** Reading the fields of a packed integer. *)
Lemma cell_at_pack c0 c1 c2 c3 c4 c5 c6 c7 c8 p :
  is_cell c0 → is_cell c1 → is_cell c2 → is_cell c3 → is_cell c4 →
  is_cell c5 → is_cell c6 → is_cell c7 → is_cell c8 →
  cell_at (pack c0 c1 c2 c3 c4 c5 c6 c7 c8 p) 0 = c0 ∧
  cell_at (pack c0 c1 c2 c3 c4 c5 c6 c7 c8 p) 1 = c1 ∧
  cell_at (pack c0 c1 c2 c3 c4 c5 c6 c7 c8 p) 2 = c2 ∧
  cell_at (pack c0 c1 c2 c3 c4 c5 c6 c7 c8 p) 3 = c3 ∧
  cell_at (pack c0 c1 c2 c3 c4 c5 c6 c7 c8 p) 4 = c4 ∧
  cell_at (pack c0 c1 c2 c3 c4 c5 c6 c7 c8 p) 5 = c5 ∧
  cell_at (pack c0 c1 c2 c3 c4 c5 c6 c7 c8 p) 6 = c6 ∧
  cell_at (pack c0 c1 c2 c3 c4 c5 c6 c7 c8 p) 7 = c7 ∧
  cell_at (pack c0 c1 c2 c3 c4 c5 c6 c7 c8 p) 8 = c8 ∧
  Z.shiftr (pack c0 c1 c2 c3 c4 c5 c6 c7 c8 p) 54 = p.
Proof.
  unfold pack, cell_at. intros. name_shifts.
  rewrite !shiftr_cons by (done || lia).
  rewrite !Z.shiftr_0_r. rewrite !land_cons by done. done.
Qed.

Lemma is_cell_cell_at e i : is_cell (cell_at e i).
Proof.
  unfold is_cell, cell_at. change 63 with (Z.ones 6).
  rewrite Z.land_ones by lia. change (2 ^ 6) with 64.
  apply Z.mod_pos_bound. lia.
Qed.

Lemma split_low_cell e : e = Z.land e 63 + 64 * Z.shiftr e 6.
Proof.
  change 63 with (Z.ones 6). rewrite Z.land_ones by lia.
  rewrite Z.shiftr_div_pow2 by lia. change (2 ^ 6) with 64.
  pose proof (Z.div_mod e 64). lia.
Qed.

(** Every integer is the packing of its nine cell fields and of what lies
    above bit 54. *)
Lemma pack_cell_at e :
  e = pack (cell_at e 0) (cell_at e 1) (cell_at e 2) (cell_at e 3)
           (cell_at e 4) (cell_at e 5) (cell_at e 6) (cell_at e 7)
           (cell_at e 8) (Z.shiftr e 54).
Proof.
  unfold pack, cell_at. name_shifts.
  rewrite <- !(Z.shiftr_shiftr e) by lia. rewrite Z.shiftr_0_r.
  repeat (rewrite <- split_low_cell). done.
Qed.

Lemma is_encoding_pack c0 c1 c2 c3 c4 c5 c6 c7 c8 p :
  is_cell c0 → is_cell c1 → is_cell c2 → is_cell c3 → is_cell c4 →
  is_cell c5 → is_cell c6 → is_cell c7 → is_cell c8 → 0 ≤ p ≤ 1 →
  is_encoding (pack c0 c1 c2 c3 c4 c5 c6 c7 c8 p).
Proof. unfold is_cell, is_encoding, pack. intros. lia. Qed.

Lemma is_encoding_top_bit e :
  is_encoding e → 0 ≤ Z.shiftr e 54 ≤ 1.
Proof.
  unfold is_encoding. intros He. rewrite Z.shiftr_div_pow2 by lia.
  split.
  - apply Z.div_pos; lia.
  - assert (e / 2 ^ 54 < 2); [|lia]. apply Z.div_lt_upper_bound; lia.
Qed.

Lemma land_1_bit p : 0 ≤ p ≤ 1 → Z.land p 1 = p.
Proof. intros Hp. assert (p = 0 ∨ p = 1) as [-> | ->] by lia; done. Qed.

Lemma land_1_range p : 0 ≤ Z.land p 1 ≤ 1.
Proof.
  change 1 with (Z.ones 1) at 1 2. rewrite Z.land_ones by lia.
  change (2 ^ 1) with 2. pose proof (Z.mod_pos_bound p 2). lia.
Qed.

(** ** The two generators on cell fields *)

Lemma rotate_90_unfold e :
  _rotate_90 e =
  Z.lor (Z.lor (Z.lor (Z.lor (Z.lor (Z.lor (Z.lor (Z.lor (Z.lor (Z.lor 0
     (Z.shiftl (cell_at e 0) 12)) (Z.shiftl (cell_at e 1) 30))
     (Z.shiftl (cell_at e 2) 48)) (Z.shiftl (cell_at e 3) 6))
     (Z.shiftl (cell_at e 4) 24)) (Z.shiftl (cell_at e 5) 42))
     (Z.shiftl (cell_at e 6) 0)) (Z.shiftl (cell_at e 7) 18))
     (Z.shiftl (cell_at e 8) 36)) (Z.shiftl (Z.land (Z.shiftr e 54) 1) 54).
Proof. reflexivity. Qed.

Lemma reflect_horizontal_unfold e :
  _reflect_horizontal e =
  Z.lor (Z.lor (Z.lor (Z.lor (Z.lor (Z.lor (Z.lor (Z.lor (Z.lor (Z.lor 0
     (Z.shiftl (cell_at e 0) 12)) (Z.shiftl (cell_at e 1) 6))
     (Z.shiftl (cell_at e 2) 0)) (Z.shiftl (cell_at e 3) 30))
     (Z.shiftl (cell_at e 4) 24)) (Z.shiftl (cell_at e 5) 18))
     (Z.shiftl (cell_at e 6) 48)) (Z.shiftl (cell_at e 7) 42))
     (Z.shiftl (cell_at e 8) 36)) (Z.shiftl (Z.land (Z.shiftr e 54) 1) 54).
Proof. reflexivity. Qed.

(** [_rotate_90] moves cell field [i] of (r, c) to the field of
    (c, 2 - r) and keeps bit 54; nothing above bit 54 survives. *)
Lemma rotate_90_cells e :
  _rotate_90 e
  = pack (cell_at e 6) (cell_at e 3) (cell_at e 0) (cell_at e 7)
         (cell_at e 4) (cell_at e 1) (cell_at e 8) (cell_at e 5)
         (cell_at e 2) (Z.land (Z.shiftr e 54) 1).
Proof.
  rewrite <- lor_cells by apply is_cell_cell_at.
  rewrite rotate_90_unfold.
  apply Z.bits_inj'. intros n Hn. rewrite !Z.lor_spec. btauto.
Qed.

Lemma reflect_horizontal_cells e :
  _reflect_horizontal e
  = pack (cell_at e 2) (cell_at e 1) (cell_at e 0) (cell_at e 5)
         (cell_at e 4) (cell_at e 3) (cell_at e 8) (cell_at e 7)
         (cell_at e 6) (Z.land (Z.shiftr e 54) 1).
Proof.
  rewrite <- lor_cells by apply is_cell_cell_at.
  rewrite reflect_horizontal_unfold.
  apply Z.bits_inj'. intros n Hn. rewrite !Z.lor_spec. btauto.
Qed.

Lemma rotate_90_pack c0 c1 c2 c3 c4 c5 c6 c7 c8 p :
  is_cell c0 → is_cell c1 → is_cell c2 → is_cell c3 → is_cell c4 →
  is_cell c5 → is_cell c6 → is_cell c7 → is_cell c8 → 0 ≤ p ≤ 1 →
  _rotate_90 (pack c0 c1 c2 c3 c4 c5 c6 c7 c8 p)
  = pack c6 c3 c0 c7 c4 c1 c8 c5 c2 p.
Proof.
  intros H0 H1 H2 H3 H4 H5 H6 H7 H8 Hp. rewrite rotate_90_cells.
  destruct (cell_at_pack c0 c1 c2 c3 c4 c5 c6 c7 c8 p)
    as (-> & -> & -> & -> & -> & -> & -> & -> & -> & ->); try done.
  by rewrite land_1_bit.
Qed.

Lemma reflect_horizontal_pack c0 c1 c2 c3 c4 c5 c6 c7 c8 p :
  is_cell c0 → is_cell c1 → is_cell c2 → is_cell c3 → is_cell c4 →
  is_cell c5 → is_cell c6 → is_cell c7 → is_cell c8 → 0 ≤ p ≤ 1 →
  _reflect_horizontal (pack c0 c1 c2 c3 c4 c5 c6 c7 c8 p)
  = pack c2 c1 c0 c5 c4 c3 c8 c7 c6 p.
Proof.
  intros H0 H1 H2 H3 H4 H5 H6 H7 H8 Hp. rewrite reflect_horizontal_cells.
  destruct (cell_at_pack c0 c1 c2 c3 c4 c5 c6 c7 c8 p)
    as (-> & -> & -> & -> & -> & -> & -> & -> & -> & ->); try done.
  by rewrite land_1_bit.
Qed.

Lemma is_encoding_rotate_90 e : is_encoding (_rotate_90 e).
Proof.
  rewrite rotate_90_cells.
  apply is_encoding_pack; auto using is_cell_cell_at, land_1_range.
Qed.

Lemma is_encoding_reflect_horizontal e : is_encoding (_reflect_horizontal e).
Proof.
  rewrite reflect_horizontal_cells.
  apply is_encoding_pack; auto using is_cell_cell_at, land_1_range.
Qed.

(** ** The minimum over the symmetries *)

Lemma foldl_min_spec (rest : list Z) (x : Z) :
  (foldl Z.min x rest = x ∨ foldl Z.min x rest ∈ rest) ∧
  foldl Z.min x rest ≤ x ∧ ∀ y, y ∈ rest → foldl Z.min x rest ≤ y.
Proof.
  revert x. induction rest as [|z rest IH]; intros x; simpl.
  - split; [by left|]. split; [lia|]. by intros y ?%elem_of_nil.
  - destruct (IH (Z.min x z)) as (Hin & Hle & Hall). split; [|split].
    + destruct Hin as [Hin|Hin].
      * rewrite Hin. destruct (Z.min_spec x z) as [[_ ->]|[_ ->]];
          [by left|right; by left].
      * right. by right.
    + lia.
    + intros y [->|Hy]%elem_of_cons; [lia|by apply Hall].
Qed.

Lemma list_min_spec (l : list Z) (m : Z) :
  list_min l = Some m → m ∈ l ∧ ∀ y, y ∈ l → m ≤ y.
Proof.
  destruct l as [|x rest]; [done|]. simpl. intros [= <-].
  destruct (foldl_min_spec rest x) as (Hin & Hle & Hall). split.
  - destruct Hin as [->|Hin]; [by left|by right].
  - intros y [->|Hy]%elem_of_cons; [done|by apply Hall].
Qed.

Lemma list_min_same_elements (l1 l2 : list Z) :
  (∀ x, x ∈ l1 ↔ x ∈ l2) → list_min l1 = list_min l2.
Proof.
  intros Hsame.
  destruct (list_min l1) as [m1|] eqn:H1, (list_min l2) as [m2|] eqn:H2.
  - apply list_min_spec in H1 as [Hin1 Hle1].
    apply list_min_spec in H2 as [Hin2 Hle2].
    f_equal. apply Z.le_antisymm.
    + apply Hle1. by apply Hsame.
    + apply Hle2. by apply Hsame.
  - destruct l2; [|done]. apply list_min_spec in H1 as [Hin1 _].
    apply Hsame in Hin1. by apply elem_of_nil in Hin1.
  - destruct l1; [|done]. apply list_min_spec in H2 as [Hin2 _].
    apply Hsame in Hin2. by apply elem_of_nil in Hin2.
  - done.
Qed.

Lemma get_all_symmetries_unfold e :
  get_all_symmetries e =
  [ e; _reflect_horizontal e;
    _rotate_90 e; _reflect_horizontal (_rotate_90 e);
    _rotate_90 (_rotate_90 e);
    _reflect_horizontal (_rotate_90 (_rotate_90 e));
    _rotate_90 (_rotate_90 (_rotate_90 e));
    _reflect_horizontal (_rotate_90 (_rotate_90 (_rotate_90 e))) ].
Proof. reflexivity. Qed.

Ltac transform_packs :=
  repeat first [ rewrite rotate_90_pack by assumption
               | rewrite reflect_horizontal_pack by assumption ].

Lemma encoding_as_pack e :
  is_encoding e →
  ∃ c0 c1 c2 c3 c4 c5 c6 c7 c8 p,
    e = pack c0 c1 c2 c3 c4 c5 c6 c7 c8 p ∧
    is_cell c0 ∧ is_cell c1 ∧ is_cell c2 ∧ is_cell c3 ∧ is_cell c4 ∧
    is_cell c5 ∧ is_cell c6 ∧ is_cell c7 ∧ is_cell c8 ∧ 0 ≤ p ≤ 1.
Proof.
  intros He. eexists _, _, _, _, _, _, _, _, _, _.
  split; [apply pack_cell_at|].
  repeat (split; [apply is_cell_cell_at|]). by apply is_encoding_top_bit.
Qed.

(** The symmetries of a rotated, or reflected, encoding are those of the
    encoding itself. *)
Lemma canonicalize_rotate_90 e :
  is_encoding e → canonicalize (_rotate_90 e) = canonicalize e.
Proof.
  intros (c0 & c1 & c2 & c3 & c4 & c5 & c6 & c7 & c8 & p & -> &
          H0 & H1 & H2 & H3 & H4 & H5 & H6 & H7 & H8 & Hp)%encoding_as_pack.
  unfold canonicalize. f_equal. apply list_min_same_elements. intros x.
  rewrite !get_all_symmetries_unfold. transform_packs.
  rewrite !list_elem_of_In. simpl. tauto.
Qed.

Lemma canonicalize_reflect_horizontal e :
  is_encoding e → canonicalize (_reflect_horizontal e) = canonicalize e.
Proof.
  intros (c0 & c1 & c2 & c3 & c4 & c5 & c6 & c7 & c8 & p & -> &
          H0 & H1 & H2 & H3 & H4 & H5 & H6 & H7 & H8 & Hp)%encoding_as_pack.
  unfold canonicalize. f_equal. apply list_min_same_elements. intros x.
  rewrite !get_all_symmetries_unfold. transform_packs.
  rewrite !list_elem_of_In. simpl. tauto.
Qed.

Lemma canonicalize_elem e :
  canonicalize e ∈ get_all_symmetries e.
Proof.
  unfold canonicalize.
  destruct (list_min (get_all_symmetries e)) as [m|] eqn:Hm.
  - by apply list_min_spec in Hm as [Hin _].
  - by rewrite get_all_symmetries_unfold in Hm.
Qed.

Lemma canonicalize_symmetry e x :
  is_encoding e → x ∈ get_all_symmetries e → canonicalize x = canonicalize e.
Proof.
  intros He. rewrite get_all_symmetries_unfold.
  pose proof (is_encoding_rotate_90 e) as Hr1.
  pose proof (is_encoding_rotate_90 (_rotate_90 e)) as Hr2.
  pose proof (is_encoding_rotate_90 (_rotate_90 (_rotate_90 e))) as Hr3.
  intros Hx. repeat (apply elem_of_cons in Hx as [->|Hx]);
    [..|by apply elem_of_nil in Hx];
    rewrite ?canonicalize_reflect_horizontal, ?canonicalize_rotate_90;
    done.
Qed.

Lemma canonicalize_idempotent e :
  is_encoding e → canonicalize (canonicalize e) = canonicalize e.
Proof.
  intros He. apply canonicalize_symmetry; [done|]. apply canonicalize_elem.
Qed.

Lemma is_encoding_canonicalize e : is_encoding e → is_encoding (canonicalize e).
Proof.
  intros He. pose proof (canonicalize_elem e) as Hin.
  rewrite get_all_symmetries_unfold in Hin.
  repeat (apply elem_of_cons in Hin as [->|Hin]);
    [..|by apply elem_of_nil in Hin];
    auto using is_encoding_rotate_90, is_encoding_reflect_horizontal.
Qed.

(** ** Encoding a position *)

Lemma board_shape_inv s :
  board_shape s →
  ∃ a b c d e f g h i, _board s = [[a; b; c]; [d; e; f]; [g; h; i]].
Proof.
  intros [Hlen Hrows].
  destruct (_board s) as [|r0 [|r1 [|r2 [|r3 rest]]]]; try done.
  apply Forall_cons in Hrows as [H0 Hrows].
  apply Forall_cons in Hrows as [H1 Hrows].
  apply Forall_cons in Hrows as [H2 _].
  destruct r0 as [|a [|b [|c [|? ?]]]]; try done.
  destruct r1 as [|d [|e [|f [|? ?]]]]; try done.
  destruct r2 as [|g [|h [|i [|? ?]]]]; try done.
  by exists a, b, c, d, e, f, g, h, i.
Qed.

Lemma board_shape_3x3 a b c d e f g h i r p :
  board_shape (mkState [[a; b; c]; [d; e; f]; [g; h; i]] r p).
Proof. split; [done|]. by repeat constructor. Qed.

Lemma stack_owners_range (stack : list Piece) :
  0 ≤ (stack_owners stack).1.1 ≤ 2 ∧ 0 ≤ (stack_owners stack).1.2 ≤ 2 ∧
  0 ≤ (stack_owners stack).2 ≤ 2.
Proof.
  unfold stack_owners.
  assert (G : ∀ acc : Z * Z * Z,
    0 ≤ acc.1.1 ≤ 2 ∧ 0 ≤ acc.1.2 ≤ 2 ∧ 0 ≤ acc.2 ≤ 2 →
    let r := foldl (λ '(small_owner, medium_owner, large_owner) p,
           match size p with
           | SMALL => (player_value (player p), medium_owner, large_owner)
           | MEDIUM => (small_owner, player_value (player p), large_owner)
           | LARGE => (small_owner, medium_owner, player_value (player p))
           end) acc stack in
    0 ≤ r.1.1 ≤ 2 ∧ 0 ≤ r.1.2 ≤ 2 ∧ 0 ≤ r.2 ≤ 2).
  { induction stack as [|p stack IH]; intros [[a b] c] Hacc; [done|].
    simpl. apply IH. simpl in Hacc.
    destruct p as [[] []]; simpl; lia. }
  apply G. simpl. lia.
Qed.

Lemma is_cell_cell_bits (stack : list Piece) : is_cell (cell_bits stack).
Proof.
  unfold cell_bits, is_cell.
  pose proof (stack_owners_range stack) as (Ha & Hb & Hc).
  destruct (stack_owners stack) as [[a b] c]. simpl in *.
  lor_to_add. lia.
Qed.

Lemma player_bit_range pl : 0 ≤ player_bit pl ≤ 1.
Proof. by destruct pl. Qed.

(** The encoding of a position, cell by cell. *)
Lemma encode_state_pack a b c d e f g h i r p :
  encode_state (mkState [[a; b; c]; [d; e; f]; [g; h; i]] r p)
  = Some (pack (cell_bits a) (cell_bits b) (cell_bits c)
               (cell_bits d) (cell_bits e) (cell_bits f)
               (cell_bits g) (cell_bits h) (cell_bits i) (player_bit p)).
Proof.
  rewrite <- lor_cells by apply is_cell_cell_bits. reflexivity.
Qed.

Lemma encode_state_is_encoding s e :
  board_shape s → encode_state s = Some e → is_encoding e.
Proof.
  intros (a & b & c & d & e' & f & g & h & i & Hb)%board_shape_inv.
  destruct s as [bd r p]. simpl in Hb. subst bd.
  rewrite encode_state_pack. intros [= <-].
  apply is_encoding_pack; auto using is_cell_cell_bits, player_bit_range.
Qed.

Lemma encode_state_total s :
  board_shape s → ∃ e, encode_state s = Some e ∧ is_encoding e.
Proof.
  intros Hs.
  pose proof Hs as (a & b & c & d & e' & f & g & h & i & Hb)%board_shape_inv.
  destruct s as [bd r p]. simpl in Hb. subst bd.
  eexists. split; [apply encode_state_pack|].
  apply is_encoding_pack; auto using is_cell_cell_bits, player_bit_range.
Qed.

Lemma rotate_state_3x3 a b c d e f g h i r p :
  rotate_state (mkState [[a; b; c]; [d; e; f]; [g; h; i]] r p)
  = mkState [[g; d; a]; [h; e; b]; [i; f; c]] r p.
Proof. reflexivity. Qed.

Lemma reflect_state_3x3 a b c d e f g h i r p :
  reflect_state (mkState [[a; b; c]; [d; e; f]; [g; h; i]] r p)
  = mkState [[c; b; a]; [f; e; d]; [i; h; g]] r p.
Proof. reflexivity. Qed.

(** The transforms of a position commute with the encoding. *)
Lemma encode_rotate_state s :
  board_shape s →
  encode_state (rotate_state s) = _rotate_90 <$> encode_state s.
Proof.
  intros (a & b & c & d & e' & f & g & h & i & Hb)%board_shape_inv.
  destruct s as [bd r p]. simpl in Hb. subst bd.
  rewrite rotate_state_3x3, !encode_state_pack. unfold fmap, option_fmap, option_map.
  by rewrite rotate_90_pack by auto using is_cell_cell_bits, player_bit_range.
Qed.

Lemma encode_reflect_state s :
  board_shape s →
  encode_state (reflect_state s) = _reflect_horizontal <$> encode_state s.
Proof.
  intros (a & b & c & d & e' & f & g & h & i & Hb)%board_shape_inv.
  destruct s as [bd r p]. simpl in Hb. subst bd.
  rewrite reflect_state_3x3, !encode_state_pack. unfold fmap, option_fmap, option_map.
  by rewrite reflect_horizontal_pack
    by auto using is_cell_cell_bits, player_bit_range.
Qed.

Lemma board_shape_apply_generator g s :
  board_shape (apply_generator g s).
Proof. destruct g; apply board_shape_3x3. Qed.

Lemma canonicalize_apply_generator g s :
  board_shape s →
  canonicalize <$> encode_state (apply_generator g s)
  = canonicalize <$> encode_state s.
Proof.
  intros Hs. destruct (encode_state_total s Hs) as (e & He & Henc).
  destruct g; unfold apply_generator.
  - rewrite encode_rotate_state, He by done.
    unfold fmap, option_fmap, option_map. by rewrite canonicalize_rotate_90.
  - rewrite encode_reflect_state, He by done.
    unfold fmap, option_fmap, option_map.
    by rewrite canonicalize_reflect_horizontal.
Qed.

Lemma canonicalize_apply_transform t s :
  board_shape s →
  board_shape (apply_transform t s) ∧
  canonicalize <$> encode_state (apply_transform t s)
  = canonicalize <$> encode_state s.
Proof.
  intros Hs. induction t as [|g t [IHs IH]]; [done|]. simpl. split.
  - apply board_shape_apply_generator.
  - by rewrite canonicalize_apply_generator.
Qed.

(** C6.  The canonical key is the same for a position and for its image
    under any transform of the group generated by the quarter turn and
    the horizontal reflection, and [canonicalize] is idempotent on
    encodings (integers with no bit set above bit 54). *)
Theorem canonicalize_orbit_idempotent
    (p : GameState) (t : list D4_generator) (e : Z) :
  board_shape p → is_encoding e →
  (∃ k k', encode_state p = Some k ∧
           encode_state (apply_transform t p) = Some k' ∧
           canonicalize k = canonicalize k') ∧
  canonicalize (canonicalize e) = canonicalize e.
Proof.
  intros Hp He. split; [|by apply canonicalize_idempotent].
  destruct (canonicalize_apply_transform t p Hp) as [Hs Hc].
  destruct (encode_state_total p Hp) as (k & Hk & _).
  destruct (encode_state_total _ Hs) as (k' & Hk' & _).
  exists k, k'. rewrite Hk, Hk' in Hc. by injection Hc as ->.
Qed.

Lemma canonicalize_orbit_idempotent_witness :
  (∃ k k', encode_state double_reveal_state = Some k ∧
           encode_state (apply_transform [Rotate90; ReflectH] double_reveal_state)
           = Some k' ∧
           canonicalize k = canonicalize k') ∧
  canonicalize (canonicalize 9009398580019208) = canonicalize 9009398580019208.
Proof.
  apply (canonicalize_orbit_idempotent double_reveal_state
           [Rotate90; ReflectH] 9009398580019208).
  - exact board_shape_double_reveal.
  - unfold is_encoding. lia.
Defined.

(** Above bit 54 the idempotence is lost: the first symmetry listed is
    the integer itself, all others are cut to 55 bits. *)
Example canonicalize_not_idempotent_above_bit_54 :
  canonicalize (2 ^ 55 + 65) = 4160 ∧ canonicalize 4160 = 65.
Proof. by vm_compute. Qed.

(** ** Counting pieces *)

Lemma sum_list_with_insert {A} (f : A → nat) (l : list A) i x y :
  l !! i = Some x →
  (sum_list_with f (<[i := y]> l) + f x = sum_list_with f l + f y)%nat.
Proof.
  revert i. induction l as [|z l IH]; intros [|i] H; simpl in *; try done.
  - injection H as ->. lia.
  - specialize (IH i H). lia.
Qed.

Lemma count_in_stack_snoc k stack p :
  count_in_stack k (stack ++ [p])
  = (count_in_stack k stack + if decide (p = k) then 1 else 0)%nat.
Proof.
  unfold count_in_stack. rewrite filter_app, length_app. f_equal.
  rewrite filter_cons, filter_nil. by destruct (decide (p = k)).
Qed.

Lemma board_set_stack s pos stack :
  _board (set_stack s pos stack) = board_set (_board s) pos stack.
Proof.
  unfold set_stack, board_set. by destruct (_board s !! pos.1).
Qed.

Lemma count_board_set (b : list (list (list Piece))) pos old new k :
  b !! pos.1 ≫= (λ row, row !! pos.2) = Some old →
  (sum_list_with (sum_list_with (count_in_stack k)) (board_set b pos new)
   + count_in_stack k old
   = sum_list_with (sum_list_with (count_in_stack k)) b
     + count_in_stack k new)%nat.
Proof.
  unfold board_set. intros H.
  destruct (b !! pos.1) as [row|] eqn:Hrow; [|done]. simpl in H.
  pose proof (sum_list_with_insert
                (sum_list_with (count_in_stack k)) b pos.1 row
                (<[pos.2 := new]> row) Hrow) as H1.
  pose proof (sum_list_with_insert (count_in_stack k) row pos.2 old new H)
    as H2.
  lia.
Qed.

Lemma board_set_id (b : list (list (list Piece))) pos stack :
  b !! pos.1 ≫= (λ row, row !! pos.2) = Some stack →
  board_set b pos stack = b.
Proof.
  unfold board_set. intros H.
  destruct (b !! pos.1) as [row|] eqn:Hrow; [|done]. simpl in H.
  by rewrite (list_insert_id row), list_insert_id.
Qed.

Lemma board_set_get (b : list (list (list Piece))) pos stack :
  is_Some (b !! pos.1 ≫= (λ row, row !! pos.2)) →
  board_set b pos stack !! pos.1 ≫= (λ row, row !! pos.2) = Some stack.
Proof.
  intros H.
  pose proof (get_stack_set_stack_eq (mkState b ∅ ONE) pos stack H) as G.
  unfold get_stack in G. by rewrite board_set_stack in G.
Qed.

Lemma board_set_set (b : list (list (list Piece))) pos x y :
  board_set (board_set b pos x) pos y = board_set b pos y.
Proof.
  pose proof (set_stack_set_stack (mkState b ∅ ONE) pos x y) as G.
  apply (f_equal _board) in G. by rewrite !board_set_stack in G.
Qed.

(** ** One slot, one cell *)

Lemma land_3_range v : 0 ≤ Z.land v 3 ≤ 3.
Proof.
  change 3 with (Z.ones 2) at 1 2. rewrite Z.land_ones by lia.
  change (2 ^ 2) with 4. pose proof (Z.mod_pos_bound v 4). lia.
Qed.

Lemma decode_slot_valid pos sz owner s stack :
  get_stack s pos = Some stack → reserves_match_board s →
  0 ≤ owner ≤ 3 → owner ≠ 3 →
  ∃ s', decode_slot pos sz owner s = Some s' ∧
        _board s' = board_set (_board s) pos (stack ++ slot_pieces sz owner) ∧
        reserves_match_board s' ∧ current_player s' = current_player s.
Proof.
  intros Hstack Hres Hrange Hne. unfold decode_slot, slot_pieces.
  assert (owner = 0 ∨ owner = 1 ∨ owner = 2) as [->|Hpl] by lia.
  - exists s. simpl. rewrite app_nil_r.
    by rewrite board_set_id.
  - assert (∃ pl, Player_of_value owner = Some pl ∧ owner ≠ 0) as (pl & Hv & H0).
    { destruct Hpl as [-> | ->]; [by exists ONE|by exists TWO]. }
    rewrite decide_True by done. rewrite Hv. simpl.
    unfold place_piece. rewrite Hstack. simpl.
    rewrite reserves_set_stack, Hres. simpl.
    eexists. split; [done|]. simpl. split; [apply board_set_stack|].
    split; [|apply current_player_set_stack].
    intros pl' sz'. unfold count_on_board. simpl. rewrite board_set_stack.
    pose proof (count_board_set (_board s) pos stack
                  (stack ++ [mkPiece pl sz]) (mkPiece pl' sz') Hstack) as Hc.
    rewrite count_in_stack_snoc in Hc.
    destruct (decide ((pl, sz) = (pl', sz'))) as [[= <- <-]|Hk].
    + rewrite lookup_insert_eq. f_equal. unfold count_on_board.
      rewrite decide_True in Hc by done. lia.
    + rewrite lookup_insert_ne by done. rewrite Hres. f_equal.
      unfold count_on_board.
      rewrite decide_False in Hc by congruence. lia.
Qed.

Lemma decode_slot_invalid pos sz s : decode_slot pos sz 3 s = None.
Proof. reflexivity. Qed.

Lemma decode_cell_valid e s bit_pos pos stack :
  get_stack s pos = Some stack → reserves_match_board s →
  cell_valid (Z.land (Z.shiftr e bit_pos) 63) →
  ∃ s', decode_cell e (Some (s, bit_pos)) pos = Some (s', bit_pos + 6) ∧
        _board s' = board_set (_board s) pos
                      (stack ++ cell_pieces (Z.land (Z.shiftr e bit_pos) 63)) ∧
        reserves_match_board s' ∧ current_player s' = current_player s.
Proof.
  intros Hstack Hres (Hs & Hm & Hl). unfold decode_cell, cell_pieces. simpl.
  set (v := Z.land (Z.shiftr e bit_pos) 63) in *.
  destruct (decode_slot_valid pos SMALL (Z.land v 3) s stack Hstack Hres
              (land_3_range _) Hs) as (s1 & -> & Hb1 & Hr1 & Hp1).
  simpl.
  assert (Hstack1 : get_stack s1 pos
                    = Some (stack ++ slot_pieces SMALL (Z.land v 3))).
  { unfold get_stack. rewrite Hb1. apply board_set_get.
    unfold get_stack in Hstack. by rewrite Hstack. }
  destruct (decode_slot_valid pos MEDIUM (Z.land (Z.shiftr v 2) 3) s1 _
              Hstack1 Hr1 (land_3_range _) Hm) as (s2 & -> & Hb2 & Hr2 & Hp2).
  simpl.
  assert (Hstack2 : get_stack s2 pos
                    = Some ((stack ++ slot_pieces SMALL (Z.land v 3))
                            ++ slot_pieces MEDIUM (Z.land (Z.shiftr v 2) 3))).
  { unfold get_stack. rewrite Hb2. apply board_set_get.
    unfold get_stack in Hstack1. by rewrite Hstack1. }
  destruct (decode_slot_valid pos LARGE (Z.land (Z.shiftr v 4) 3) s2 _
              Hstack2 Hr2 (land_3_range _) Hl) as (s3 & -> & Hb3 & Hr3 & Hp3).
  simpl. exists s3. split; [done|]. split; [|split; [done|congruence]].
  rewrite Hb3, Hb2, Hb1, !board_set_set. by rewrite <- !app_assoc.
Qed.

Lemma decode_cell_invalid e s bit_pos pos stack :
  get_stack s pos = Some stack → reserves_match_board s →
  ¬ cell_valid (Z.land (Z.shiftr e bit_pos) 63) →
  decode_cell e (Some (s, bit_pos)) pos = None.
Proof.
  intros Hstack Hres Hinv. unfold decode_cell. simpl.
  set (v := Z.land (Z.shiftr e bit_pos) 63) in *.
  destruct (decide (Z.land v 3 = 3)) as [->|Hs]; [done|].
  destruct (decode_slot_valid pos SMALL (Z.land v 3) s stack Hstack Hres
              (land_3_range _) Hs) as (s1 & -> & Hb1 & Hr1 & Hp1).
  simpl.
  destruct (decide (Z.land (Z.shiftr v 2) 3 = 3)) as [->|Hm]; [done|].
  assert (Hstack1 : get_stack s1 pos
                    = Some (stack ++ slot_pieces SMALL (Z.land v 3))).
  { unfold get_stack. rewrite Hb1. apply board_set_get.
    unfold get_stack in Hstack. by rewrite Hstack. }
  destruct (decode_slot_valid pos MEDIUM (Z.land (Z.shiftr v 2) 3) s1 _
              Hstack1 Hr1 (land_3_range _) Hm) as (s2 & -> & Hb2 & Hr2 & Hp2).
  simpl.
  destruct (decide (Z.land (Z.shiftr v 4) 3 = 3)) as [->|Hl]; [done|].
  by destruct Hinv.
Qed.

Lemma foldl_decode_cell_None e (ps : list Position) :
  foldl (decode_cell e) None ps = None.
Proof. by induction ps. Qed.

Lemma reserves_match_board_initial : reserves_match_board initial_state.
Proof. by intros [] []. Qed.

(** ** The whole board *)

Lemma all_positions_unfold :
  all_positions
  = [(0, 0); (0, 1); (0, 2); (1, 0); (1, 1); (1, 2); (2, 0); (2, 1); (2, 2)]%nat.
Proof. reflexivity. Qed.

(** One round of the decoder loop on a cell that is still empty, with
    the board kept as an update of the board [b0] the loop started
    from. *)
Lemma decode_round e s bit_pos pos i b :
  _board s = b → b !! pos.1 ≫= (λ row, row !! pos.2) = Some [] →
  reserves_match_board s →
  bit_pos = i * 6 →
  (cell_valid (cell_at e i) →
   ∃ s', decode_cell e (Some (s, bit_pos)) pos = Some (s', (i + 1) * 6) ∧
         _board s' = board_set b pos (cell_pieces (cell_at e i)) ∧
         reserves_match_board s' ∧ current_player s' = current_player s) ∧
  (¬ cell_valid (cell_at e i) →
   decode_cell e (Some (s, bit_pos)) pos = None).
Proof.
  intros Hb Hget Hres ->. rewrite <- Hb in Hget. split; intros Hv.
  - destruct (decode_cell_valid e s (i * 6) pos [] Hget Hres Hv)
      as (s' & Hd & Hb' & Hr' & Hp').
    exists s'. rewrite Hd, Hb', Hb. split; [|done].
    do 2 f_equal. lia.
  - by eapply decode_cell_invalid.
Qed.

Ltac decode_next e s i pos Hb Hr Hp :=
  let s' := fresh "s" in
  let Hd := fresh "Hd" in
  let Hb' := fresh "Hb" in
  let Hr' := fresh "Hr" in
  let Hp' := fresh "Hp" in
  let Hno := fresh "Hno" in
  let Hv := fresh "Hv" in
  lazymatch type of Hb with
  | _ = ?b =>
      destruct (decode_round e s (i * 6) pos i b Hb eq_refl Hr eq_refl)
        as [Hd Hno]
  end;
  destruct (decide (cell_valid (cell_at e i))) as [Hv|Hv];
  [ destruct (Hd Hv) as (s' & -> & Hb' & Hr' & Hp'); clear Hd Hno;
    rewrite Hp in Hp'
  | rewrite (Hno Hv), ?foldl_decode_cell_None ].


(** [decode_state] fails exactly on a slot value 3; otherwise it builds,
    cell by cell, the stacks the cell fields stand for, with reserves
    that match the board and the side to move of bit 54. *)
Lemma decode_state_spec e :
  (slots_valid e →
   ∃ s, decode_state e = Some s ∧
     _board s =
       [ [cell_pieces (cell_at e 0); cell_pieces (cell_at e 1);
          cell_pieces (cell_at e 2)];
         [cell_pieces (cell_at e 3); cell_pieces (cell_at e 4);
          cell_pieces (cell_at e 5)];
         [cell_pieces (cell_at e 6); cell_pieces (cell_at e 7);
          cell_pieces (cell_at e 8)] ] ∧
     reserves_match_board s ∧
     current_player s
     = if decide (Z.land (Z.shiftr e 54) 1 = 0) then ONE else TWO) ∧
  (¬ slots_valid e → decode_state e = None).
Proof.
  unfold decode_state, slots_valid. rewrite all_positions_unfold.
  cbn [foldl].
  change (Some (initial_state, 0)) with (Some (initial_state, 0 * 6)).
  pose proof reserves_match_board_initial as Hr.
  assert (Hb : _board initial_state = empty_board) by done.
  assert (Hp : current_player initial_state = ONE) by done.
  decode_next e initial_state 0 (0, 0)%nat Hb Hr Hp.
  2: { split; [|done]. intros Hall. by apply Forall_cons in Hall as [? _]. }
  decode_next e s (0 + 1) (0, 1)%nat Hb0 Hr0 Hp0.
  2: { split; [|done]. intros Hall.
       by do 2 (apply Forall_cons in Hall as [? Hall]). }
  decode_next e s0 (0 + 1 + 1) (0, 2)%nat Hb1 Hr1 Hp1.
  2: { split; [|done]. intros Hall.
       by do 3 (apply Forall_cons in Hall as [? Hall]). }
  decode_next e s1 (0 + 1 + 1 + 1) (1, 0)%nat Hb2 Hr2 Hp2.
  2: { split; [|done]. intros Hall.
       by do 4 (apply Forall_cons in Hall as [? Hall]). }
  decode_next e s2 (0 + 1 + 1 + 1 + 1) (1, 1)%nat Hb3 Hr3 Hp3.
  2: { split; [|done]. intros Hall.
       by do 5 (apply Forall_cons in Hall as [? Hall]). }
  decode_next e s3 (0 + 1 + 1 + 1 + 1 + 1) (1, 2)%nat Hb4 Hr4 Hp4.
  2: { split; [|done]. intros Hall.
       by do 6 (apply Forall_cons in Hall as [? Hall]). }
  decode_next e s4 (0 + 1 + 1 + 1 + 1 + 1 + 1) (2, 0)%nat Hb5 Hr5 Hp5.
  2: { split; [|done]. intros Hall.
       by do 7 (apply Forall_cons in Hall as [? Hall]). }
  decode_next e s5 (0 + 1 + 1 + 1 + 1 + 1 + 1 + 1) (2, 1)%nat Hb6 Hr6 Hp6.
  2: { split; [|done]. intros Hall.
       by do 8 (apply Forall_cons in Hall as [? Hall]). }
  decode_next e s6 (0 + 1 + 1 + 1 + 1 + 1 + 1 + 1 + 1) (2, 2)%nat Hb7 Hr7 Hp7.
  2: { split; [|done]. intros Hall.
       by do 9 (apply Forall_cons in Hall as [? Hall]). }
  split.
  - intros _. exists (set_current_player s7
      (if decide (Z.land (Z.shiftr e 54) 1 = 0) then ONE else TWO)).
    split; [reflexivity|]. split; [exact Hb8|]. split; [exact Hr8|].
    reflexivity.
  - intros Hno. exfalso. apply Hno.
    repeat (apply Forall_cons; split; [assumption|]). by apply Forall_nil.
Qed.

(** ** Sorted stacks *)

Lemma stack_sorted_inv (stack : list Piece) :
  stack_sorted stack →
  stack = [] ∨ (∃ x, stack = [x]) ∨
  (∃ x y, stack = [x; y] ∧ size_lt x y) ∨
  (∃ x y z, stack = [x; y; z] ∧
            size x = SMALL ∧ size y = MEDIUM ∧ size z = LARGE).
Proof.
  unfold stack_sorted, size_lt. intros Hs.
  destruct stack as [|x [|y [|z [|w rest]]]]; [by left|right; left; by exists x|..].
  - right. right. left. exists x, y. split; [done|].
    apply StronglySorted_inv in Hs as [_ H].
    by apply Forall_cons in H as [H _].
  - right. right. right. exists x, y, z. split; [done|].
    apply StronglySorted_inv in Hs as [Hs Hx].
    apply StronglySorted_inv in Hs as [_ Hy].
    apply Forall_cons in Hx as [Hxy _]. apply Forall_cons in Hy as [Hyz _].
    destruct x as [? []], y as [? []], z as [? []]; simpl in *; done || lia.
  - exfalso.
    apply StronglySorted_inv in Hs as [Hs Hx].
    apply StronglySorted_inv in Hs as [Hs Hy].
    apply StronglySorted_inv in Hs as [_ Hz].
    apply Forall_cons in Hx as [Hxy _]. apply Forall_cons in Hy as [Hyz _].
    apply Forall_cons in Hz as [Hzw _].
    destruct x as [? []], y as [? []], z as [? []], w as [? []];
      simpl in *; lia.
Qed.

(** Invariants 3 and 4 follow from invariant 2. *)
Lemma stack_sorted_distinct_height (stack : list Piece) :
  stack_sorted stack → stack_sizes_distinct stack ∧ stack_height_ok stack.
Proof.
  unfold stack_sizes_distinct, stack_height_ok, size_lt.
  intros [->|[(x & ->)|[(x & y & -> & Hxy)|(x & y & z & -> & Hx & Hy & Hz)]]]
    %stack_sorted_inv; simpl.
  - split; [constructor|lia].
  - split; [|lia]. apply NoDup_singleton.
  - split; [|lia]. apply NoDup_cons. split; [|apply NoDup_singleton].
    intros Heq%list_elem_of_singleton. unfold size_lt in Hxy.
    rewrite Heq in Hxy. lia.
  - split; [|lia]. rewrite Hx, Hy, Hz.
    apply (bool_decide_unpack _). by vm_compute.
Qed.

Lemma stack_sorted_snoc (stack : list Piece) (p : Piece) :
  stack_sorted stack → (∀ t, last stack = Some t → size_lt t p) →
  stack_sorted (stack ++ [p]).
Proof.
  unfold stack_sorted. intros Hs Hlast.
  apply StronglySorted_app_2; [|done|by repeat constructor].
  intros x y Hx ->%list_elem_of_singleton.
  destruct stack as [|z stack _] using rev_ind; [by apply elem_of_nil in Hx|].
  rewrite last_snoc in Hlast. specialize (Hlast z eq_refl).
  apply elem_of_app in Hx as [Hx| ->%list_elem_of_singleton]; [|done].
  pose proof (StronglySorted_app_1_elem_of _ _ _ x z Hs Hx) as Hlt.
  unfold size_lt in *.
  assert (size_value (size x) < size_value (size z)); [|lia].
  apply Hlt. by apply list_elem_of_singleton.
Qed.

Lemma stack_sorted_prefix (rest : list Piece) (p : Piece) :
  stack_sorted (rest ++ [p]) → stack_sorted rest.
Proof. unfold stack_sorted. apply StronglySorted_app_1_l. Qed.

(** ** Cell fields and stacks *)

Lemma cell_pieces_sorted v : stack_sorted (cell_pieces v).
Proof.
  unfold cell_pieces, slot_pieces, stack_sorted.
  destruct (Player_of_value (Z.land v 3)),
           (Player_of_value (Z.land (Z.shiftr v 2) 3)),
           (Player_of_value (Z.land (Z.shiftr v 4) 3)); simpl;
    repeat (constructor; [|repeat constructor; unfold size_lt; simpl; lia]);
    constructor.
Qed.

Lemma cell_bits_roundtrip (stack : list Piece) :
  stack_sorted stack →
  cell_valid (cell_bits stack) ∧ cell_pieces (cell_bits stack) = stack.
Proof.
  unfold size_lt.
  intros [->|[(x & ->)|[(x & y & -> & Hxy)|(x & y & z & -> & Hx & Hy & Hz)]]]
    %stack_sorted_inv.
  - by vm_compute.
  - destruct x as [[] []]; by vm_compute.
  - unfold size_lt in Hxy.
    destruct x as [[] []], y as [[] []]; simpl in Hxy; try lia; by vm_compute.
  - destruct x as [[] ?], y as [[] ?], z as [[] ?]; simpl in *; subst;
      by vm_compute.
Qed.

(** ** What [decode_state] checks *)

Lemma well_formed_position_invariants s :
  well_formed s ↔ position_invariants s.
Proof.
  unfold well_formed, position_invariants, stacks_sorted. split.
  - intros (Hshape & Hres & Hsorted). split; [done|]. split; [done|].
    intros pos stack Hget. specialize (Hsorted pos stack Hget).
    split; [done|]. by apply stack_sorted_distinct_height.
  - intros (Hshape & Hres & Hstacks). split; [done|]. split; [done|].
    intros pos stack Hget. by destruct (Hstacks pos stack Hget).
Qed.

Lemma get_stack_3x3 a b c d e f g h i r p pos stack :
  get_stack (mkState [[a; b; c]; [d; e; f]; [g; h; i]] r p) pos = Some stack →
  stack ∈ [a; b; c; d; e; f; g; h; i].
Proof.
  destruct pos as [row col]. unfold get_stack. simpl.
  destruct row as [|[|[|row]]]; simpl; [..|done];
    (destruct col as [|[|[|col]]]; simpl; [..|done]);
    intros [= <-]; apply list_elem_of_In; simpl; tauto.
Qed.

Lemma decode_state_well_formed e s :
  decode_state e = Some s → well_formed s.
Proof.
  intros Hdec. destruct (decode_state_spec e) as [Hvalid Hinvalid].
  destruct (decide (slots_valid e)) as [Hv|Hv];
    [|rewrite (Hinvalid Hv) in Hdec; done].
  destruct (Hvalid Hv) as (s' & Hdec' & Hb & Hr & _).
  rewrite Hdec in Hdec'. injection Hdec' as <-.
  destruct s as [bd r p]. simpl in Hb. subst bd.
  split; [apply board_shape_3x3|]. split; [done|].
  intros pos stack Hin%get_stack_3x3.
  repeat (apply elem_of_cons in Hin as [->|Hin]; [apply cell_pieces_sorted|]).
  by apply elem_of_nil in Hin.
Qed.

(** C9, as the decoder behaves.  [decode_state] rejects nothing but a
    slot value 3, on which [Player(3)] raises; it has no InvalidEncoding
    error and does not look at the piece counts.  Every other integer
    decodes to a position that has the board shape, sorted stacks with
    distinct sizes and at most three pieces, and reserves equal to 2
    minus the on-board count, which is negative when a kind of piece is
    encoded more than twice. *)
Theorem decode_state_checks_slots_only (e : Z) :
  if decide (slots_valid e)
  then ∃ s, decode_state e = Some s ∧ position_invariants s
  else decode_state e = None.
Proof.
  destruct (decode_state_spec e) as [Hvalid Hinvalid].
  destruct (decide (slots_valid e)) as [Hv|Hv]; [|by apply Hinvalid].
  destruct (Hvalid Hv) as (s & Hdec & _). exists s. split; [done|].
  apply well_formed_position_invariants. by eapply decode_state_well_formed.
Qed.

(** The base64 string [AAAAAAAAEEE] holds the integer 4161: a small
    piece of player ONE on each square of the top row.  It decodes to a
    position, with a reserve count of -1. *)
Lemma decode_corrupt_counterexample :
  base64_to_int "AAAAAAAAEEE" = Some 4161 ∧
  ∃ s, base64_to_state "AAAAAAAAEEE" = Some s ∧
       count_on_board s ONE SMALL = 3%nat ∧
       _reserves s !! (ONE, SMALL) = Some (-1).
Proof. split; [by vm_compute|]. eexists. by vm_compute. Qed.

(** Scenario S6 of the specification. *)
Example decode_initial_base64 :
  base64_to_state "AAAAAAAAAAA" = Some initial_state.
Proof. by vm_compute. Qed.

(** ** What a generated move does to the position *)

Lemma finish_move_fields s m p r u s' :
  finish_move s m p = (r, u, s') →
  _board s' = _board s ∧ _reserves s' = _reserves s.
Proof.
  unfold finish_move. by destruct (check_winner s); intros [= _ _ <-].
Qed.

Lemma place_piece_fields s p pos s' :
  place_piece s p pos = Some s' →
  ∃ stack, get_stack s pos = Some stack ∧
           _board s' = board_set (_board s) pos (stack ++ [p]) ∧
           _reserves s' = _reserves s.
Proof.
  unfold place_piece. destruct (get_stack s pos) as [stack|]; [|done].
  intros [= <-]. exists stack. split; [done|].
  by rewrite board_set_stack, reserves_set_stack.
Qed.

Lemma remove_top_fields s pos p s' :
  remove_top s pos = Some (p, s') →
  ∃ rest, get_stack s pos = Some (rest ++ [p]) ∧
          s' = set_stack s pos rest.
Proof.
  unfold remove_top. destruct (get_stack s pos) as [stack|]; [|done]. simpl.
  destruct (pop_stack stack) as [[q rest]|] eqn:Hpop; [|done].
  intros [= -> <-]. apply pop_stack_Some in Hpop as ->. by exists rest.
Qed.

(** A placement from the reserve: one piece less in the reserve, one
    piece more on the destination. *)
Lemma apply_place_fields s m r u s' :
  from_pos m = None →
  apply_move_in_place s m = Some (r, u, s') →
  ∃ sz n stack,
    move_size m = Some sz ∧
    _reserves s !! (current_player s, sz) = Some n ∧
    get_stack s (to_pos m) = Some stack ∧
    _board s' = board_set (_board s) (to_pos m)
                  (stack ++ [mkPiece (current_player s) sz]) ∧
    _reserves s' = <[(current_player s, sz) := n - 1]> (_reserves s).
Proof.
  unfold apply_move_in_place. intros -> H.
  destruct (move_size m) as [sz|]; [|done]. simpl in H.
  destruct (_reserves s !! (current_player s, sz)) as [n|] eqn:Hn; [|done].
  simpl in H.
  destruct (place_piece _ _ _) as [s2|] eqn:Hp; [|done]. simpl in H.
  injection H as H. apply finish_move_fields in H as [Hb Hr].
  apply place_piece_fields in Hp as (stack & Hget & Hb2 & Hr2).
  exists sz, n, stack. repeat split; try done.
  - by rewrite Hb, Hb2.
  - by rewrite Hr, Hr2.
Qed.

(** A completed slide: the top of the origin moves to the destination. *)
Lemma apply_slide_fields s m fp r u s' :
  from_pos m = Some fp →
  apply_move_in_place s m = Some (r, u, s') →
  move_completed u = true →
  ∃ top rest stack,
    get_stack s fp = Some (rest ++ [top]) ∧
    get_stack (set_stack s fp rest) (to_pos m) = Some stack ∧
    _board s' = board_set (board_set (_board s) fp rest) (to_pos m)
                  (stack ++ [top]) ∧
    _reserves s' = _reserves s.
Proof.
  unfold apply_move_in_place. intros -> H Hc.
  destruct (remove_top s fp) as [[top sl]|] eqn:Hrm; [|done]. simpl in H.
  apply remove_top_fields in Hrm as (rest & Hget & ->).
  assert (Hplace :
    (place_piece (set_stack s fp rest) top (to_pos m)
       ≫= λ s2, Some (finish_move s2 m top)) = Some (r, u, s') →
    ∃ stack,
      get_stack (set_stack s fp rest) (to_pos m) = Some stack ∧
      _board s' = board_set (board_set (_board s) fp rest) (to_pos m)
                    (stack ++ [top]) ∧
      _reserves s' = _reserves s).
  { intros Hp.
    destruct (place_piece _ top (to_pos m)) as [s2|] eqn:Hp2; [|done].
    injection Hp as Hf. apply finish_move_fields in Hf as [Hb Hr].
    apply place_piece_fields in Hp2 as (stack & Hget2 & Hb2 & Hr2).
    exists stack. split; [done|].
    rewrite Hb, Hb2, Hr, Hr2, board_set_stack, reserves_set_stack. done. }
  exists top, rest.
  destruct (get_winning_lines _ _) as [|l ls].
  - destruct (Hplace H) as (stack & ?). by exists stack.
  - destruct (can_save _ m top (l :: ls)).
    + destruct (Hplace H) as (stack & ?). by exists stack.
    + injection H as _ <- _. done.
Qed.

(** The gobble law for generated moves: the moved piece lands on an
    empty square or on a strictly smaller top, and a slide never lands on
    its origin. *)
Lemma generated_place_gobbles s m :
  m ∈ generate_moves s → from_pos m = None →
  ∃ sz, move_size m = Some sz ∧ to_pos m ∈ all_positions ∧
        has_reserve s (current_player s) sz = true ∧
        can_place_at (mkPiece (current_player s) sz) (to_pos m) s = true.
Proof.
  intros [Hm|(fp & _ & Hm)]%elem_of_generate_moves Hfrom.
  - apply elem_of_reserve_moves in Hm as (sz & pos & -> & Hr & Hpos & Hc).
    by exists sz.
  - apply from_pos_board_moves_from in Hm. congruence.
Qed.

Lemma generated_slide_gobbles s m fp :
  board_shape s → m ∈ generate_moves s → from_pos m = Some fp →
  ∃ top rest,
    get_stack s fp = Some (rest ++ [top]) ∧
    player top = current_player s ∧ fp ≠ to_pos m ∧
    to_pos m ∈ all_positions ∧
    can_place_at top (to_pos m) (set_stack s fp rest) = true.
Proof.
  intros Hshape [Hm|(fp' & Hfp & Hm)]%elem_of_generate_moves Hfrom.
  { apply from_pos_reserve_moves in Hm. congruence. }
  pose proof (from_pos_board_moves_from _ _ _ Hm) as Hfrom'.
  assert (fp' = fp) as -> by congruence. clear Hfrom'.
  unfold board_moves_from in Hm.
  destruct (get_top s fp) as [top|] eqn:Htop; [|by apply elem_of_nil in Hm].
  case_bool_decide as Hpl; [by apply elem_of_nil in Hm|].
  destruct (get_top_remove_top _ _ _ Htop) as [sl Hrm].
  rewrite Hrm in Hm.
  apply remove_top_fields in Hrm as (rest & Hget & ->).
  exists top, rest. split; [done|]. split; [by destruct (decide (player top = current_player s))|].
  destruct (get_winning_lines _ _) as [|l ls] eqn:HL.
  - apply elem_of_free_slides in Hm as (tp & -> & Htp & Hne & Hc). simpl.
    split; [done|]. split; [done|].
    unfold can_place_at, get_top in *.
    by rewrite get_stack_set_stack_ne.
  - apply list_elem_of_fmap in Hm as (tp & -> & Htp). simpl.
    apply elem_of_valid_targets in Htp as [[(line & Hline & Hin) (t & Ht & Hg)] Hne].
    split; [done|]. split.
    + rewrite <- HL in Hline. apply elem_of_get_winning_lines in Hline.
      by eapply winning_lines_positions.
    + unfold can_place_at. by rewrite Ht.
Qed.

(** ** The invariants along the game *)

Lemma can_place_at_size_lt s p pos stack :
  get_stack s pos = Some stack → can_place_at p pos s = true →
  ∀ t, last stack = Some t → size_lt t p.
Proof.
  unfold can_place_at, get_top. intros -> Hc t Ht. rewrite Ht in Hc.
  unfold can_gobble, size_can_gobble in Hc. unfold size_lt. lia.
Qed.

Lemma stacks_sorted_set_stack s pos stack :
  stacks_sorted s → stack_sorted stack →
  stacks_sorted (set_stack s pos stack).
Proof.
  intros Hs Hstack pos' stack' Hget.
  destruct (decide (pos = pos')) as [<-|Hne].
  - destruct (get_stack s pos) as [old|] eqn:Hold.
    + rewrite get_stack_set_stack_eq in Hget by (by rewrite Hold).
      by injection Hget as <-.
    + unfold set_stack, get_stack in *.
      destruct (_board s !! pos.1) as [row|] eqn:Hrow; simpl in *.
      * rewrite list_lookup_insert_eq in Hget by (by eapply lookup_lt_Some).
        simpl in Hget. apply lookup_ge_None in Hold.
        rewrite list_insert_ge in Hget by done.
        apply lookup_lt_Some in Hget. lia.
      * by rewrite Hrow in Hget.
  - rewrite get_stack_set_stack_ne in Hget by done. by eapply Hs.
Qed.

Lemma stacks_sorted_fields s s' :
  _board s' = _board s → stacks_sorted s → stacks_sorted s'.
Proof.
  intros Hb Hs pos stack Hget. apply (Hs pos). unfold get_stack in *.
  by rewrite <- Hb.
Qed.

Lemma board_shape_fields s s' :
  _board s' = _board s → board_shape s → board_shape s'.
Proof. unfold board_shape. by intros ->. Qed.

Lemma count_on_board_set_stack s pos old new pl sz :
  get_stack s pos = Some old →
  (count_on_board (set_stack s pos new) pl sz
   + count_in_stack (mkPiece pl sz) old
   = count_on_board s pl sz + count_in_stack (mkPiece pl sz) new)%nat.
Proof.
  intros Hget. unfold count_on_board. rewrite board_set_stack.
  by apply count_board_set.
Qed.

(** Every generated move keeps the board shape, invariant 1 and
    invariant 2. *)
Lemma well_formed_apply s m r u s' :
  well_formed s → m ∈ generate_moves s →
  apply_move_in_place s m = Some (r, u, s') → well_formed s'.
Proof.
  intros (Hshape & Hres & Hsorted) Hm Happ.
  destruct (from_pos m) as [fp|] eqn:Hfrom.
  - destruct (generated_move_applies s m Hshape Hm) as (r' & u' & s'' & Happ' & Hc).
    rewrite Happ in Happ'. injection Happ' as <- <- <-.
    destruct (apply_slide_fields s m fp r u s' Hfrom Happ Hc)
      as (top & rest & stack & Hget & Hget2 & Hb & Hr).
    destruct (generated_slide_gobbles s m fp Hshape Hm Hfrom)
      as (top' & rest' & Hget' & Hpl & Hne & Htp & Hcan).
    rewrite Hget in Hget'. injection Hget' as Heq.
    apply app_inj_tail in Heq as [<- <-].
    set (sl := set_stack s fp rest) in *.
    assert (Hb' : _board s' = _board (set_stack sl (to_pos m) (stack ++ [top]))).
    { rewrite Hb. unfold sl. by rewrite !board_set_stack. }
    assert (Hsl : stacks_sorted sl).
    { apply stacks_sorted_set_stack; [done|].
      eapply stack_sorted_prefix. by eapply Hsorted. }
    split; [|split].
    + eapply board_shape_fields; [exact Hb'|].
      by do 2 apply board_shape_set_stack.
    + intros pl sz. rewrite Hr, Hres.
      assert (Hcount : count_on_board s' pl sz
                = count_on_board (set_stack sl (to_pos m) (stack ++ [top])) pl sz).
      { unfold count_on_board. by rewrite Hb'. }
      rewrite Hcount.
      pose proof (count_on_board_set_stack sl (to_pos m) stack
                    (stack ++ [top]) pl sz Hget2) as H2.
      pose proof (count_on_board_set_stack s fp (rest ++ [top]) rest
                    pl sz Hget) as H1.
      fold sl in H1. rewrite !count_in_stack_snoc in *.
      f_equal. lia.
    + eapply stacks_sorted_fields; [exact Hb'|].
      apply stacks_sorted_set_stack; [done|].
      apply stack_sorted_snoc; [by eapply Hsl|].
      by eapply can_place_at_size_lt.
  - destruct (apply_place_fields s m r u s' Hfrom Happ)
      as (sz & n & stack & Hsz & Hn & Hget & Hb & Hr).
    destruct (generated_place_gobbles s m Hm Hfrom)
      as (sz' & Hsz' & Htp & _ & Hcan).
    assert (sz' = sz) as -> by congruence.
    set (p := mkPiece (current_player s) sz) in *.
    assert (Hb' : _board s' = _board (set_stack s (to_pos m) (stack ++ [p]))).
    { by rewrite Hb, board_set_stack. }
    split; [|split].
    + eapply board_shape_fields; [exact Hb'|].
      by apply board_shape_set_stack.
    + intros pl' sz'. rewrite Hr.
      pose proof (count_on_board_set_stack s (to_pos m) stack
                    (stack ++ [p]) pl' sz' Hget) as Hc.
      rewrite count_in_stack_snoc in Hc.
      assert (Hcount : count_on_board s' pl' sz'
                = count_on_board (set_stack s (to_pos m) (stack ++ [p])) pl' sz').
      { unfold count_on_board. by rewrite Hb'. }
      rewrite Hcount.
      destruct (decide ((current_player s, sz) = (pl', sz'))) as [[= <- <-]|Hk].
      * rewrite lookup_insert_eq. f_equal. rewrite Hres in Hn.
        injection Hn as <-. rewrite decide_True in Hc by done. lia.
      * rewrite lookup_insert_ne by done. rewrite Hres. f_equal.
        rewrite decide_False in Hc by (subst p; congruence). lia.
    + eapply stacks_sorted_fields; [exact Hb'|].
      apply stacks_sorted_set_stack; [done|].
      apply stack_sorted_snoc; [by eapply Hsorted|].
      by eapply can_place_at_size_lt.
Qed.

Lemma well_formed_initial : well_formed initial_state.
Proof.
  split; [apply board_shape_initial|].
  split; [apply reserves_match_board_initial|].
  intros pos stack Hin%get_stack_3x3.
  repeat (apply elem_of_cons in Hin as [->|Hin]; [constructor|]).
  by apply elem_of_nil in Hin.
Qed.

(** Reserve conservation and stack order hold in every reachable
    position. *)
Lemma reachable_well_formed s : reachable s → well_formed s.
Proof.
  induction 1 as [|p m r u p' _ IH Hm Happ]; [apply well_formed_initial|].
  by eapply well_formed_apply.
Qed.

(** ** Decoding an encoding *)

Lemma slots_valid_pack c0 c1 c2 c3 c4 c5 c6 c7 c8 p :
  is_cell c0 → is_cell c1 → is_cell c2 → is_cell c3 → is_cell c4 →
  is_cell c5 → is_cell c6 → is_cell c7 → is_cell c8 →
  cell_valid c0 → cell_valid c1 → cell_valid c2 → cell_valid c3 →
  cell_valid c4 → cell_valid c5 → cell_valid c6 → cell_valid c7 →
  cell_valid c8 →
  slots_valid (pack c0 c1 c2 c3 c4 c5 c6 c7 c8 p).
Proof.
  intros H0 H1 H2 H3 H4 H5 H6 H7 H8 V0 V1 V2 V3 V4 V5 V6 V7 V8.
  destruct (cell_at_pack c0 c1 c2 c3 c4 c5 c6 c7 c8 p)
    as (E0 & E1 & E2 & E3 & E4 & E5 & E6 & E7 & E8 & _); try done.
  unfold slots_valid.
  repeat (apply Forall_cons; split;
          [by rewrite ?E0, ?E1, ?E2, ?E3, ?E4, ?E5, ?E6, ?E7, ?E8|]).
  by apply Forall_nil.
Qed.

Lemma reserves_match_board_unique s s' :
  _board s = _board s' → reserves_match_board s → reserves_match_board s' →
  _reserves s = _reserves s'.
Proof.
  intros Hb Hr Hr'. apply map_eq. intros [pl sz].
  rewrite Hr, Hr'. unfold count_on_board. by rewrite Hb.
Qed.

(** A position with the board shape, matching reserves and sorted stacks
    is what [decode_state] gives back from its encoding. *)
Lemma decode_encode s :
  well_formed s →
  ∃ e, encode_state s = Some e ∧ is_encoding e ∧ decode_state e = Some s.
Proof.
  intros (Hshape & Hres & Hsorted).
  pose proof Hshape as (a & b & c & d & e' & f & g & h & i & Hb)%board_shape_inv.
  destruct s as [bd r p]. simpl in Hb. subst bd.
  eexists. split; [apply encode_state_pack|].
  set (e := pack _ _ _ _ _ _ _ _ _ _).
  assert (Hst : ∀ stack, stack ∈ [a; b; c; d; e'; f; g; h; i] →
                         cell_valid (cell_bits stack) ∧
                         cell_pieces (cell_bits stack) = stack).
  { intros stack Hin. apply cell_bits_roundtrip.
    apply elem_of_cons in Hin as [->|Hin];
      [exact (Hsorted (0, 0)%nat _ eq_refl)|].
    apply elem_of_cons in Hin as [->|Hin];
      [exact (Hsorted (0, 1)%nat _ eq_refl)|].
    apply elem_of_cons in Hin as [->|Hin];
      [exact (Hsorted (0, 2)%nat _ eq_refl)|].
    apply elem_of_cons in Hin as [->|Hin];
      [exact (Hsorted (1, 0)%nat _ eq_refl)|].
    apply elem_of_cons in Hin as [->|Hin];
      [exact (Hsorted (1, 1)%nat _ eq_refl)|].
    apply elem_of_cons in Hin as [->|Hin];
      [exact (Hsorted (1, 2)%nat _ eq_refl)|].
    apply elem_of_cons in Hin as [->|Hin];
      [exact (Hsorted (2, 0)%nat _ eq_refl)|].
    apply elem_of_cons in Hin as [->|Hin];
      [exact (Hsorted (2, 1)%nat _ eq_refl)|].
    apply elem_of_cons in Hin as [->|Hin];
      [exact (Hsorted (2, 2)%nat _ eq_refl)|].
    by apply elem_of_nil in Hin. }
  assert (Ha := Hst a ltac:(apply list_elem_of_In; simpl; tauto)).
  assert (Hb := Hst b ltac:(apply list_elem_of_In; simpl; tauto)).
  assert (Hc := Hst c ltac:(apply list_elem_of_In; simpl; tauto)).
  assert (Hd := Hst d ltac:(apply list_elem_of_In; simpl; tauto)).
  assert (He := Hst e' ltac:(apply list_elem_of_In; simpl; tauto)).
  assert (Hf := Hst f ltac:(apply list_elem_of_In; simpl; tauto)).
  assert (Hg := Hst g ltac:(apply list_elem_of_In; simpl; tauto)).
  assert (Hh := Hst h ltac:(apply list_elem_of_In; simpl; tauto)).
  assert (Hi := Hst i ltac:(apply list_elem_of_In; simpl; tauto)).
  clear Hst.
  destruct Ha as [Va Ra], Hb as [Vb Rb], Hc as [Vc Rc], Hd as [Vd Rd],
           He as [Ve Re], Hf as [Vf Rf], Hg as [Vg Rg], Hh as [Vh Rh],
           Hi as [Vi Ri].
  split.
  { apply is_encoding_pack; auto using is_cell_cell_bits, player_bit_range. }
  destruct (decode_state_spec e) as [Hvalid _].
  destruct Hvalid as (s' & Hdec & Hb' & Hr' & Hp').
  { apply slots_valid_pack; auto using is_cell_cell_bits. }
  rewrite Hdec. f_equal.
  destruct (cell_at_pack (cell_bits a) (cell_bits b) (cell_bits c)
              (cell_bits d) (cell_bits e') (cell_bits f) (cell_bits g)
              (cell_bits h) (cell_bits i) (player_bit p))
    as (E0 & E1 & E2 & E3 & E4 & E5 & E6 & E7 & E8 & Ep);
    try apply is_cell_cell_bits.
  fold e in E0, E1, E2, E3, E4, E5, E6, E7, E8, Ep.
  rewrite E0, E1, E2, E3, E4, E5, E6, E7, E8 in Hb'.
  rewrite Ra, Rb, Rc, Rd, Re, Rf, Rg, Rh, Ri in Hb'.
  rewrite Ep in Hp'.
  assert (Hr'' : _reserves s' = r).
  { apply (reserves_match_board_unique s'
             (mkState [[a; b; c]; [d; e'; f]; [g; h; i]] r p)); done. }
  destruct s' as [bd' r' p']. simpl in *. subst bd' r'. f_equal.
  rewrite Hp'. by destruct p.
Qed.

(** C5.  For every reachable position, decoding its encoding yields the
    position itself: the same stack in every cell, the same reserve
    count for every player and size, the same side to move.  The
    reserves of a reachable position are 2 minus the on-board counts,
    which is how the decoder derives them. *)
Theorem encode_decode_roundtrip (p : GameState) :
  reachable p →
  ∃ e, encode_state p = Some e ∧ decode_state e = Some p ∧
       ∀ pl sz, _reserves p !! (pl, sz)
                = Some (2 - Z.of_nat (count_on_board p pl sz)).
Proof.
  intros Hwf%reachable_well_formed.
  destruct (decode_encode p Hwf) as (e & Henc & _ & Hdec).
  exists e. split; [done|]. split; [done|]. by destruct Hwf as (_ & Hres & _).
Qed.

Lemma reachable_after_first_move :
  ∃ p, apply_move_in_place initial_state (place_move ONE LARGE (1, 1)%nat)
       = Some (ONGOING,
               mkUndo (place_move ONE LARGE (1, 1)%nat) P1L true true, p) ∧
       reachable p.
Proof.
  eexists. split; [by vm_compute|].
  eapply (reachable_move initial_state (place_move ONE LARGE (1, 1)%nat));
    [apply reachable_initial| |by vm_compute].
  apply (bool_decide_unpack _). by vm_compute.
Qed.

Lemma encode_decode_roundtrip_witness :
  ∃ e, encode_state initial_state = Some e ∧
       decode_state e = Some initial_state ∧
       ∀ pl sz, _reserves initial_state !! (pl, sz)
                = Some (2 - Z.of_nat (count_on_board initial_state pl sz)).
Proof.
  apply (encode_decode_roundtrip initial_state). apply reachable_initial.
Defined.

(** * Properties of the solver *)

(** ** A position without moves *)

Lemma create_frame_no_moves table log s c :
  generate_moves s = [] →
  _create_frame_fast table log s c
  = Some (None, <[c := mover_loses (current_player s)]> table,
          log ++ [(c, mover_loses (current_player s))], s).
Proof. unfold _create_frame_fast. by intros ->. Qed.

Lemma prune_frame_no_outcomes prune pl f :
  child_outcomes f = [] → prune_frame prune pl f = f.
Proof.
  unfold prune_frame. intros ->. destruct prune; [|done]. by destruct pl.
Qed.

(** C4.  A position whose mover has no legal move is given the loss of
    the mover, WIN_P2 with player ONE to move and WIN_P1 with player TWO
    to move:
    - [_create_frame_fast] builds no frame for it and stores that
      outcome under the key it was given;
    - [solve] on such a root, when it does not answer from the table,
      returns that outcome and stores it under the canonical key;
    - a frame that comes to its end with no child outcome is given that
      outcome as well. *)
Theorem zugzwang_mover_loses (s : GameState) :
  generate_moves s = [] →
  let loss := mover_loses (current_player s) in
  (loss = match current_player s with ONE => WIN_P2 | TWO => WIN_P1 end) ∧
  (∀ table log c,
     _create_frame_fast table log s c
     = Some (None, <[c := loss]> table, log ++ [(c, loss)], s)) ∧
  (∀ table e prune force fuel,
     encode_state s = Some e →
     force = true ∨ table !! canonicalize e = None →
     solve table (Some s) prune force fuel
     = Some (loss, <[canonicalize e := loss]> table,
             [(canonicalize e, loss)])) ∧
  (∀ prune run f rest run',
     run_state run = s → run_stack run = f :: rest →
     moves f = [] → child_outcomes f = [] →
     solve_step prune run = Some run' →
     run_table run' = <[canonical f := loss]> (run_table run)).
Proof.
  intros Hgen loss. split; [by destruct (current_player s)|].
  split; [|split].
  - intros table log c. by apply create_frame_no_moves.
  - intros table e prune force fuel He Hmiss.
    unfold solve, _solve_iterative_fast. cbn [from_option id]. rewrite He.
    cbn [fmap option_fmap option_map mbind option_bind].
    assert ((if force then None else table !! canonicalize e) = None) as ->.
    { destruct Hmiss as [->|Hnone]; [done|]. by destruct force. }
    rewrite create_frame_no_moves by done. cbn [mbind option_bind].
    by rewrite lookup_insert_eq.
  - intros prune run f rest run' Hs Hstack Hmoves Hout.
    unfold solve_step. rewrite Hstack, Hs.
    rewrite prune_frame_no_outcomes by done. rewrite Hmoves. simpl.
    rewrite Hout. unfold best_for.
    assert (match
              match current_player s with
              | ONE => max_outcome []
              | TWO => min_outcome []
              end
            with Some o => o | None => mover_loses (current_player s) end
            = loss) as -> by (by destruct (current_player s)).
    destruct (match undo_on_pop f with
              | Some undo => undo_move_in_place s undo
              | None => Some s
              end) as [s1|]; [|done].
    simpl. by intros [= <-].
Qed.

Lemma zugzwang_mover_loses_witness :
  let loss := mover_loses (current_player zugzwang_state) in
  (loss = match current_player zugzwang_state with
          | ONE => WIN_P2 | TWO => WIN_P1 end) ∧
  (∀ table log c,
     _create_frame_fast table log zugzwang_state c
     = Some (None, <[c := loss]> table, log ++ [(c, loss)], zugzwang_state)) ∧
  (∀ table e prune force fuel,
     encode_state zugzwang_state = Some e →
     force = true ∨ table !! canonicalize e = None →
     solve table (Some zugzwang_state) prune force fuel
     = Some (loss, <[canonicalize e := loss]> table,
             [(canonicalize e, loss)])) ∧
  (∀ prune run f rest run',
     run_state run = zugzwang_state → run_stack run = f :: rest →
     moves f = [] → child_outcomes f = [] →
     solve_step prune run = Some run' →
     run_table run' = <[canonical f := loss]> (run_table run)).
Proof.
  apply (zugzwang_mover_loses zugzwang_state). by vm_compute.
Defined.

(** ** Two outcomes under one key *)

Lemma play_moves_reachable ms s s' :
  reachable s → play_moves s ms = Some s' → reachable s'.
Proof.
  revert s. induction ms as [|m ms IH]; intros s Hs; simpl.
  - by intros [= <-].
  - case_bool_decide as Hm; [|done].
    destruct (apply_move_in_place s m) as [[[r u] s1]|] eqn:Happ; [|done].
    destruct r; try done. apply IH.
    by eapply reachable_move.
Qed.

Lemma two_line_state_reachable : reachable two_line_state.
Proof.
  apply (play_moves_reachable moves_to_two_line_state initial_state);
    [apply reachable_initial|]. by vm_compute.
Qed.

(** On [two_line_state] the large piece of player ONE on (0,2) covers a
    small piece of player TWO; lifting it shows row 0 and column 2 of
    player TWO.  The slide to (1,2) blocks the column, leaves the row and
    completes row 1 of player ONE: [check_winner] meets row 0 first and
    returns player TWO.  The slide to (0,1) blocks the row, leaves the
    column and completes column 1 of player ONE: [check_winner] meets
    column 1 before column 2 and returns player ONE.  The two final
    boards are mirror images in the anti-diagonal and share the
    canonical key. *)
Lemma two_line_slide_results :
  (λ x, (x.1.1, canonicalize_state x.2))
    <$> apply_move_in_place two_line_state
          (slide_move ONE (0, 2)%nat (1, 2)%nat)
  = Some (PLAYER_TWO_WINS, Some 19795774932482) ∧
  (λ x, (x.1.1, canonicalize_state x.2))
    <$> apply_move_in_place two_line_state
          (slide_move ONE (0, 2)%nat (0, 1)%nat)
  = Some (PLAYER_ONE_WINS, Some 19795774932482).
Proof. split; by vm_compute. Qed.

Lemma two_line_slides :
  let m1 := slide_move ONE (0, 2)%nat (1, 2)%nat in
  let m2 := slide_move ONE (0, 2)%nat (0, 1)%nat in
  m1 ∈ generate_moves two_line_state ∧ m2 ∈ generate_moves two_line_state ∧
  ∃ u1 s1 u2 s2,
    apply_move_in_place two_line_state m1 = Some (PLAYER_TWO_WINS, u1, s1) ∧
    apply_move_in_place two_line_state m2 = Some (PLAYER_ONE_WINS, u2, s2) ∧
    canonicalize_state s1 = Some 19795774932482 ∧
    canonicalize_state s2 = Some 19795774932482.
Proof.
  intros m1 m2.
  split; [apply (bool_decide_unpack _); by vm_compute|].
  split; [apply (bool_decide_unpack _); by vm_compute|].
  destruct two_line_slide_results as [H1 H2]. fold m1 in H1. fold m2 in H2.
  destruct (apply_move_in_place two_line_state m1) as [[[r1 u1] s1]|];
    [|discriminate H1].
  destruct (apply_move_in_place two_line_state m2) as [[[r2 u2] s2]|];
    [|discriminate H2].
  cbn in H1, H2. injection H1 as -> Hc1. injection H2 as -> Hc2.
  by exists u1, s1, u2, s2.
Qed.

(** The writes of the pruned solve of [two_line_state] from an empty
    table. *)
Lemma solve_two_line_log :
  (λ x, (x.1.1, x.2)) <$> solve ∅ (Some two_line_state) true false 100
  = Some (WIN_P1,
          [(301270751642130, WIN_P1); (19795774932482, WIN_P1);
           (19795774932482, WIN_P2); (1128103495729682, WIN_P1);
           (1128103495729682, WIN_P1); (19795774931474, WIN_P1)]).
Proof. by vm_compute. Qed.

(** C3.  The pruned solve of the reachable position [two_line_state]
    from an empty table writes the key 19795774932482 twice, first with
    the outcome WIN_P1 and then with WIN_P2: the writes of one solve are
    not monotone. *)
Theorem solve_writes_not_monotone :
  reachable two_line_state ∧
  ∃ o table log,
    solve ∅ (Some two_line_state) true false 100 = Some (o, table, log) ∧
    log !! 1%nat = Some (19795774932482, WIN_P1) ∧
    log !! 2%nat = Some (19795774932482, WIN_P2) ∧
    ¬ writes_monotone log.
Proof.
  split; [exact two_line_state_reachable|].
  pose proof solve_two_line_log as H.
  destruct (solve ∅ (Some two_line_state) true false 100)
    as [[[o table] log]|]; [|discriminate H].
  cbn in H. injection H as -> ->.
  eexists _, table, _. split; [reflexivity|].
  split; [reflexivity|]. split; [reflexivity|].
  intros Hmono.
  by specialize (Hmono 1%nat 2%nat 19795774932482 WIN_P1 WIN_P2
                       ltac:(lia) eq_refl eq_refl).
Qed.

(** The two writes come from the loop over the moves in
    [_create_frame_fast], with or without pruning. *)
Lemma create_frame_writes_not_monotone :
  (λ x, x.1.2) <$> _create_frame_fast ∅ [] two_line_state 19795774931474
  = Some [(301270751642130, WIN_P1); (19795774932482, WIN_P1);
          (19795774932482, WIN_P2); (1128103495729682, WIN_P1);
          (1128103495729682, WIN_P1)].
Proof. by vm_compute. Qed.

Lemma double_reveal_state_reachable : reachable double_reveal_state.
Proof.
  apply (play_moves_reachable moves_to_double_reveal_state initial_state);
    [apply reachable_initial|]. by vm_compute.
Qed.

(** * The breadth-first enumerator *)

(** ** Keys that decode *)

Lemma slots_valid_rotate_90 e : slots_valid e → slots_valid (_rotate_90 e).
Proof.
  intros Hv. rewrite rotate_90_cells. unfold slots_valid in Hv.
  repeat (apply Forall_cons in Hv as [? Hv]).
  apply slots_valid_pack; auto using is_cell_cell_at.
Qed.

Lemma slots_valid_reflect_horizontal e :
  slots_valid e → slots_valid (_reflect_horizontal e).
Proof.
  intros Hv. rewrite reflect_horizontal_cells. unfold slots_valid in Hv.
  repeat (apply Forall_cons in Hv as [? Hv]).
  apply slots_valid_pack; auto using is_cell_cell_at.
Qed.

Lemma slots_valid_canonicalize e : slots_valid e → slots_valid (canonicalize e).
Proof.
  intros Hv. pose proof (canonicalize_elem e) as Hin.
  rewrite get_all_symmetries_unfold in Hin.
  repeat (apply elem_of_cons in Hin as [->|Hin];
          [auto using slots_valid_rotate_90, slots_valid_reflect_horizontal|]).
  by apply elem_of_nil in Hin.
Qed.

Lemma well_formed_slots_valid s e :
  well_formed s → encode_state s = Some e → slots_valid e.
Proof.
  intros Hwf He. destruct (decode_encode s Hwf) as (e' & He' & _ & Hdec).
  rewrite He in He'. injection He' as <-.
  destruct (decide (slots_valid e)) as [|Hno]; [done|].
  destruct (decode_state_spec e) as [_ Hnone].
  rewrite (Hnone Hno) in Hdec. done.
Qed.

Lemma well_formed_canonical_key s :
  well_formed s →
  ∃ k, canonicalize_state s = Some k ∧ slots_valid k.
Proof.
  intros Hwf. destruct (decode_encode s Hwf) as (e & He & _ & _).
  exists (canonicalize e). unfold canonicalize_state. rewrite He.
  split; [done|]. apply slots_valid_canonicalize.
  by eapply well_formed_slots_valid.
Qed.

Lemma slots_valid_decode k :
  slots_valid k → ∃ s, decode_state k = Some s ∧ well_formed s.
Proof.
  intros Hv. destruct (decode_state_spec k) as [Hsome _].
  destruct (Hsome Hv) as (s & Hdec & _). exists s. split; [done|].
  by eapply decode_state_well_formed.
Qed.

(** ** The loop over the moves, without the state *)

Lemma child_key_Some s m k :
  child_key s m = Some k ↔
  ∃ u s', apply_move_in_place s m = Some (ONGOING, u, s') ∧
          canonicalize_state s' = Some k.
Proof.
  unfold child_key. split.
  - destruct (apply_move_in_place s m) as [[[r u] s']|]; [|done].
    destruct r; try done. intros Hk. by exists u, s'.
  - intros (u & s' & -> & Hk). done.
Qed.

Lemma elem_of_child_keys s k :
  k ∈ child_keys s ↔
  ∃ m u s', m ∈ generate_moves s ∧
            apply_move_in_place s m = Some (ONGOING, u, s') ∧
            canonicalize_state s' = Some k.
Proof.
  unfold child_keys. rewrite list_elem_of_omap. split.
  - intros (m & Hm & (u & s' & Happ & Hk)%child_key_Some). by exists m, u, s'.
  - intros (m & u & s' & Hm & Happ & Hk). exists m. split; [done|].
    apply child_key_Some. by exists u, s'.
Qed.

Lemma child_keys_valid s k :
  well_formed s → k ∈ child_keys s → slots_valid k.
Proof.
  intros Hwf (m & u & s' & Hm & Happ & Hk)%elem_of_child_keys.
  assert (Hwf' : well_formed s') by (by eapply well_formed_apply).
  destruct (well_formed_canonical_key s' Hwf') as (k' & Hk' & Hv).
  rewrite Hk in Hk'. by injection Hk' as <-.
Qed.

Lemma bfs_rounds_pure table depth s ms run :
  well_formed s → (∀ m, m ∈ ms → m ∈ generate_moves s) →
  foldl (bfs_round table depth) (Some (run, s)) ms
  = Some (foldl (bfs_record table depth) run (omap (child_key s) ms), s).
Proof.
  intros Hwf. revert run. induction ms as [|m ms IH]; intros run Hms; [done|].
  assert (Hm : m ∈ generate_moves s) by (apply Hms; left).
  destruct (generated_move_applies s m) as (r & u & s1 & Happ & _);
    [apply Hwf|done|].
  pose proof (undo_apply _ _ _ _ _ Happ) as Hundo.
  assert (Hwf1 : well_formed s1) by (by eapply well_formed_apply).
  destruct (well_formed_canonical_key s1 Hwf1) as (k & Hk & _).
  assert (Hkey : child_key s m
                 = match r with ONGOING => Some k | _ => None end).
  { unfold child_key. rewrite Happ. by destruct r. }
  change (omap (child_key s) (m :: ms))
    with (match child_key s m with
          | Some y => y :: omap (child_key s) ms
          | None => omap (child_key s) ms
          end).
  cbn [foldl].
  assert (Hround : bfs_round table depth (Some (run, s)) m
            = Some (match r with
                    | ONGOING => bfs_record table depth run k
                    | _ => run
                    end, s)).
  { unfold bfs_round. cbn [mbind option_bind]. rewrite Happ.
    cbn [mbind option_bind]. unfold canonicalize_state in Hk. rewrite Hk.
    destruct r; (destruct (decide _) as [Hr|Hr]; [try discriminate Hr|
                 try (exfalso; by apply Hr)]);
      cbn [mbind option_bind]; by rewrite Hundo. }
  rewrite Hround, Hkey.
  rewrite IH by (intros m' Hm'; apply Hms; by right).
  by destruct r.
Qed.

Lemma bfs_expand_pure table run k depth rest :
  bfs_queue run = (k, depth) :: rest → slots_valid k →
  ∃ s, decode_state k = Some s ∧ well_formed s ∧
       bfs_expand table run
       = Some (foldl (bfs_record table depth)
                 (mkBfs (bfs_unsolved run) (bfs_visited run) rest)
                 (child_keys s)).
Proof.
  intros Hq Hv. destruct (slots_valid_decode k Hv) as (s & Hdec & Hwf).
  exists s. split; [done|]. split; [done|].
  unfold bfs_expand. rewrite Hq, Hdec. cbn [mbind option_bind].
  by rewrite bfs_rounds_pure.
Qed.

(** ** The invariant of the loop *)

Lemma solved_key_path_valid table k0 n k :
  slots_valid k0 → solved_key_path table k0 n k → slots_valid k.
Proof.
  intros Hv0 Hpath. destruct Hpath as [|n k k' _ _ (s & Hdec & Hin)]; [done|].
  eapply child_keys_valid; [|done]. by eapply decode_state_well_formed.
Qed.

Lemma bfs_inv_start table k0 :
  bfs_inv table k0 0 None {[k0 := 0%nat]} [(k0, 0%nat)] [] (bfs_start k0).
Proof.
  split; simpl.
  - done.
  - apply lookup_singleton_eq.
  - intros k. rewrite elem_of_singleton, lookup_singleton_is_Some. naive_solver.
  - intros k d. by rewrite lookup_empty.
  - intros k d [<- <-]%lookup_singleton_Some. constructor.
  - intros k d [[= -> ->]|[]%elem_of_nil]%elem_of_cons.
    split; [done|]. split; [apply lookup_singleton_eq|by left].
  - intros k d []%elem_of_nil.
  - intros k d [_ <-]%lookup_singleton_Some. lia.
  - intros k d [<- <-]%lookup_singleton_Some _ Hnot. exfalso. apply Hnot.
    by left.
  - intros n k Hpath Hn. assert (n = 0%nat) as -> by lia.
    inversion Hpath; subst. exists 0%nat. by rewrite lookup_singleton_eq.
Qed.

Lemma bfs_inv_record table k0 L kc D Q1 Q2 run c :
  bfs_inv table k0 L (Some kc) D Q1 Q2 run →
  D !! kc = Some L → expands table k0 kc → key_step kc c →
  ∃ D' Q2',
    bfs_inv table k0 L (Some kc) D' Q1 Q2' (bfs_record table L run c) ∧
    D ⊆ D' ∧ is_Some (D' !! c).
Proof.
  intros [Hq Hroot Hdom Hu Hpath Hq1 Hq2 Hb Hcl Hco] HkL Hexp Hstep.
  unfold bfs_record. destruct (decide (c ∈ bfs_visited run)) as [Hin|Hnin].
  { exists D, Q2. split; [by constructor|]. split; [done|]. by apply Hdom. }
  assert (HDc : D !! c = None).
  { apply eq_None_not_Some. by rewrite <- Hdom. }
  assert (Hck0 : c ≠ k0) by (intros ->; by rewrite Hroot in HDc).
  assert (Hsub : D ⊆ <[c := S L]> D) by (by apply insert_subseteq).
  assert (Hpc : solved_key_path table k0 (S L) c).
  { eapply solved_key_path_step; [by apply Hpath|done|done]. }
  assert (Hdom' : ∀ k, k ∈ ({[c]} ∪ bfs_visited run : gset Z)
                       ↔ is_Some (<[c := S L]> D !! k)).
  { intros k. rewrite elem_of_union, elem_of_singleton,
      lookup_insert_is_Some, Hdom.
    destruct (decide (c = k)) as [->|]; naive_solver. }
  assert (Hpath' : ∀ k d, <[c := S L]> D !! k = Some d →
                          solved_key_path table k0 d k).
  { intros k d [[<- <-]|[Hne Hk]]%lookup_insert_Some; [done|by apply Hpath]. }
  assert (Hb' : ∀ k d, <[c := S L]> D !! k = Some d → (d ≤ S L)%nat).
  { intros k d [[<- <-]|[Hne Hk]]%lookup_insert_Some; [lia|by eapply Hb]. }
  assert (Hco' : ∀ n k, solved_key_path table k0 n k → (n ≤ L)%nat →
                        ∃ d, <[c := S L]> D !! k = Some d ∧ (d ≤ n)%nat).
  { intros n k Hp Hn. destruct (Hco n k Hp Hn) as (d & Hd & Hle).
    exists d. split; [by eapply lookup_weaken|done]. }
  assert (Hq1' : ∀ k d, (k, d) ∈ Q1 →
             d = L ∧ <[c := S L]> D !! k = Some d ∧ expands table k0 k).
  { intros k d Hk. destruct (Hq1 k d Hk) as (? & ? & ?).
    split; [done|]. split; [by eapply lookup_weaken|done]. }
  assert (Hq2' : ∀ k d, (k, d) ∈ Q2 →
             d = S L ∧ <[c := S L]> D !! k = Some d ∧ expands table k0 k).
  { intros k d Hk. destruct (Hq2 k d Hk) as (? & ? & ?).
    split; [done|]. split; [by eapply lookup_weaken|done]. }
  assert (Hroot' : <[c := S L]> D !! k0 = Some 0%nat)
    by (by rewrite lookup_insert_ne).
  destruct (table !! c) as [o|] eqn:Htc.
  - exists (<[c := S L]> D), (Q2 ++ [(c, S L)]).
    split; [|split; [done|rewrite lookup_insert_eq; eauto]].
    split; simpl; try done.
    + by rewrite Hq, app_assoc.
    + intros k d Hk. destruct (Hu k d Hk) as [HDk Htk].
      split; [by eapply lookup_weaken|done].
    + intros k d [Hk|[= -> ->]%list_elem_of_singleton]%elem_of_app;
        [by apply Hq2'|].
      split; [done|]. split; [apply lookup_insert_eq|].
      right. by rewrite Htc.
    + intros k d HDk Hexpk Hnq Hcur k' Hst.
      apply lookup_insert_Some in HDk as [[<- <-]|[Hne HDk]].
      * exfalso. apply Hnq. rewrite app_assoc, fmap_app, elem_of_app.
        right. by left.
      * destruct (Hcl k d HDk Hexpk) with k' as (d' & Hd' & Hle);
          [|done|done|].
        { intros Hkq. apply Hnq. rewrite app_assoc, fmap_app, elem_of_app.
          by left. }
        exists d'. split; [by eapply lookup_weaken|done].
  - exists (<[c := S L]> D), Q2.
    split; [|split; [done|rewrite lookup_insert_eq; eauto]].
    split; simpl; try done.
    + intros k d [[<- <-]|[Hne Hk]]%lookup_insert_Some.
      * split; [apply lookup_insert_eq|done].
      * destruct (Hu k d Hk) as [HDk Htk].
        split; [by eapply lookup_weaken|done].
    + intros k d HDk Hexpk Hnq Hcur k' Hst.
      apply lookup_insert_Some in HDk as [[<- <-]|[Hne HDk]].
      * exfalso. destruct Hexpk as [?|Hs]; [done|].
        rewrite Htc in Hs. by destruct Hs.
      * destruct (Hcl k d HDk Hexpk Hnq Hcur k' Hst) as (d' & Hd' & Hle).
        exists d'. split; [by eapply lookup_weaken|done].
Qed.

Lemma bfs_inv_records table k0 L kc Q1 cs :
  ∀ D Q2 run,
    bfs_inv table k0 L (Some kc) D Q1 Q2 run →
    D !! kc = Some L → expands table k0 kc →
    (∀ c, c ∈ cs → key_step kc c) →
    ∃ D' Q2',
      bfs_inv table k0 L (Some kc) D' Q1 Q2'
              (foldl (bfs_record table L) run cs) ∧
      D ⊆ D' ∧ ∀ c, c ∈ cs → is_Some (D' !! c).
Proof.
  induction cs as [|c cs IH]; intros D Q2 run Hinv HkL Hexp Hcs.
  { exists D, Q2. split; [done|]. split; [done|]. by intros c ?%elem_of_nil. }
  destruct (bfs_inv_record table k0 L kc D Q1 Q2 run c)
    as (D1 & Q21 & Hinv1 & Hsub1 & Hc1); [done|done|done|apply Hcs; by left|].
  destruct (IH D1 Q21 (bfs_record table L run c))
    as (D2 & Q22 & Hinv2 & Hsub2 & Hc2);
    [done|by eapply lookup_weaken|done|intros; apply Hcs; by right|].
  exists D2, Q22. split; [done|]. split; [by etrans|].
  intros c' [->|Hin]%elem_of_cons; [|by apply Hc2].
  destruct Hc1 as [d Hd]. exists d. by eapply lookup_weaken.
Qed.

(** The front part of the queue is used up: the back part becomes the
    front part, one level deeper. *)
Lemma bfs_inv_advance table k0 L D Q2 run :
  bfs_inv table k0 L None D [] Q2 run →
  bfs_inv table k0 (S L) None D Q2 [] run.
Proof.
  intros [Hq Hroot Hdom Hu Hpath Hq1 Hq2 Hb Hcl Hco].
  split; try done.
  - by rewrite app_nil_r.
  - intros k d []%elem_of_nil.
  - intros k d Hk. apply Hb in Hk. lia.
  - intros k d HDk Hexpk Hnq. rewrite app_nil_r in Hnq. by apply Hcl.
  - intros n k Hp Hn. destruct (decide (n ≤ L)%nat) as [Hle|Hgt].
    { by apply Hco. }
    assert (n = S L) as -> by lia.
    inversion Hp as [|n' k1 k' Hp1 Hexp1 Hstep]; subst.
    destruct (Hco L k1 Hp1) as (d1 & Hd1 & Hle1); [lia|].
    destruct (Hcl k1 d1 Hd1 Hexp1) with k as (d' & Hd' & Hle'); [|done|done|].
    + simpl. intros ((k2 & d2) & -> & Hin)%list_elem_of_fmap.
      destruct (Hq2 _ _ Hin) as (-> & Hd2 & _). simpl in Hd1.
      rewrite Hd1 in Hd2. injection Hd2 as ->. lia.
    + exists d'. split; [done|lia].
Qed.

(** One pass of the loop keeps the invariant, and raises nothing. *)
Lemma bfs_inv_expand table k0 L D Q1 Q2 run :
  slots_valid k0 →
  bfs_inv table k0 L None D Q1 Q2 run → bfs_queue run ≠ [] →
  ∃ run' L' D' Q1' Q2',
    bfs_expand table run = Some run' ∧
    bfs_inv table k0 L' None D' Q1' Q2' run'.
Proof.
  intros Hv0 Hinv Hne.
  assert (∃ L1 k Q1' Q2', bfs_inv table k0 L1 None D ((k, L1) :: Q1') Q2' run)
    as (L1 & k & Q1' & Q21 & Hinv1).
  { destruct Q1 as [|[k d] Q1'].
    - apply bfs_inv_advance in Hinv. destruct Q2 as [|[k d] Q2'].
      + exfalso. apply Hne. by rewrite (inv_queue _ _ _ _ _ _ _ _ Hinv).
      + destruct (inv_q1 _ _ _ _ _ _ _ _ Hinv k d) as (-> & _); [by left|].
        by exists (S L), k, Q2', [].
    - destruct (inv_q1 _ _ _ _ _ _ _ _ Hinv k d) as (-> & _); [by left|].
      by exists L, k, Q1', Q2. }
  clear Hinv. destruct Hinv1 as [Hq Hroot Hdom Hu Hpath Hq1 Hq2 Hb Hcl Hco].
  destruct (Hq1 k L1) as (_ & HkL & Hexp); [by left|].
  assert (Hvk : slots_valid k).
  { eapply solved_key_path_valid; [done|]. by apply Hpath. }
  destruct (bfs_expand_pure table run k L1 (Q1' ++ Q21)) as (s & Hdec & Hwf & Hex);
    [done|done|].
  set (run0 := mkBfs (bfs_unsolved run) (bfs_visited run) (Q1' ++ Q21)) in *.
  assert (Hinv0 : bfs_inv table k0 L1 (Some k) D Q1' Q21 run0).
  { split; try done.
    - intros k1 d1 Hin. apply Hq1. by right.
    - intros k1 d1 HD1 Hexp1 Hnq Hcur. apply Hcl; [done|done| |done].
      simpl. intros [->|Hin]%elem_of_cons; [done|]. by apply Hnq. }
  destruct (bfs_inv_records table k0 L1 k Q1' (child_keys s) D Q21 run0)
    as (D' & Q2' & Hinv' & Hsub & Hall); [done|done|done| |].
  { intros c Hc. by exists s. }
  exists (foldl (bfs_record table L1) run0 (child_keys s)), L1, D', Q1', Q2'.
  split; [done|].
  destruct Hinv' as [Hq' Hroot' Hdom' Hu' Hpath' Hq1' Hq2' Hb' Hcl' Hco'].
  split; try done.
  intros k1 d1 HD1 Hexp1 Hnq _ k' Hstep.
  destruct (decide (k1 = k)) as [->|Hk1].
  - destruct Hstep as (s' & Hdec' & Hin'). rewrite Hdec in Hdec'.
    injection Hdec' as <-. destruct (Hall k' Hin') as [d' Hd'].
    exists d'. split; [done|].
    assert (d1 = L1) as ->.
    { pose proof (lookup_weaken _ _ _ _ HkL Hsub) as HkL'.
      rewrite HD1 in HkL'. by injection HkL'. }
    by eapply Hb'.
  - apply (Hcl' k1 d1); try done. intros [= ->]. done.
Qed.

Lemma bfs_inv_loop table k0 n :
  slots_valid k0 →
  ∀ L D Q1 Q2 run,
    bfs_inv table k0 L None D Q1 Q2 run →
    ∃ run' L' D' Q1' Q2',
      bfs_loop table n run = Some run' ∧
      bfs_inv table k0 L' None D' Q1' Q2' run'.
Proof.
  intros Hv0. induction n as [|n IH]; intros L D Q1 Q2 run Hinv.
  { by exists run, L, D, Q1, Q2. }
  simpl. destruct (bfs_queue run) as [|x q] eqn:Hq.
  { by exists run, L, D, Q1, Q2. }
  destruct (bfs_inv_expand table k0 L D Q1 Q2 run)
    as (run1 & L1 & D1 & Q11 & Q21 & Hex & Hinv1);
    [done|done|by rewrite Hq|].
  rewrite Hex. cbn [mbind option_bind]. by eapply IH.
Qed.

(** What the invariant says about an entry of [unsolved]. *)
Lemma bfs_inv_minimal table k0 L cur D Q1 Q2 run c d :
  bfs_inv table k0 L cur D Q1 Q2 run →
  bfs_unsolved run !! c = Some d →
  table !! c = None ∧ solved_key_path table k0 d c ∧
  ∀ n, solved_key_path table k0 n c → (d ≤ n)%nat.
Proof.
  intros [Hq Hroot Hdom Hu Hpath Hq1 Hq2 Hb Hcl Hco] Hc.
  destruct (Hu c d Hc) as [HD Ht]. split; [done|].
  split; [by apply Hpath|]. intros n Hp.
  destruct (decide (n ≤ L)%nat) as [Hle|Hgt].
  - destruct (Hco n c Hp Hle) as (d' & Hd' & Hle').
    rewrite HD in Hd'. injection Hd' as <-. done.
  - apply Hb in HD. lia.
Qed.

(** * The rules under the symmetries of the board *)

(** ** Lines, as sets of squares *)

Lemma winning_lines_length line :
  line ∈ WINNING_LINES → ∃ a b c, line = [a; b; c].
Proof.
  intros Hin. unfold WINNING_LINES in Hin.
  repeat (apply elem_of_cons in Hin as [->|Hin]; [by eexists _, _, _|]).
  by apply elem_of_nil in Hin.
Qed.

Lemma line_full_3 s pl a b c :
  line_full s pl [a; b; c] ↔
  ∃ ta tb tc, get_top s a = Some ta ∧ get_top s b = Some tb ∧
              get_top s c = Some tc ∧
              player ta = pl ∧ player tb = pl ∧ player tc = pl.
Proof.
  unfold line_full. split.
  - intros H. destruct (H a) as (ta & ? & ?); [by left|].
    destruct (H b) as (tb & ? & ?); [right; by left|].
    destruct (H c) as (tc & ? & ?); [right; right; by left|].
    by exists ta, tb, tc.
  - intros (ta & tb & tc & Ha & Hb & Hc & ? & ? & ?) pos Hpos.
    repeat (apply elem_of_cons in Hpos as [->|Hpos]; [eauto|]).
    by apply elem_of_nil in Hpos.
Qed.

Lemma line_winner_full s line w :
  line ∈ WINNING_LINES → line_winner s line = Some w ↔ line_full s w line.
Proof.
  intros (a & b & c & ->)%winning_lines_length. rewrite line_full_3.
  unfold line_winner. cbn [map]. split.
  - destruct (get_top s a) as [ta|]; [|done].
    destruct (get_top s b) as [tb|]; [|done].
    destruct (get_top s c) as [tc|]; [|done].
    case_decide as Hd; [|done]. intros [= <-]. destruct Hd as [H1 H2].
    exists ta, tb, tc. repeat split; congruence.
  - intros (ta & tb & tc & -> & -> & -> & H1 & H2 & H3).
    rewrite decide_True; [by rewrite H1|]. split; congruence.
Qed.

Lemma first_winner_None s lines :
  first_winner s lines = None ↔
  ∀ line, line ∈ lines → line_winner s line = None.
Proof.
  induction lines as [|l ls IH]; simpl.
  - split; [by intros _ line ?%elem_of_nil|done].
  - destruct (line_winner s l) as [w|] eqn:Hl.
    + split; [done|]. intros H. rewrite H in Hl; [done|by left].
    + rewrite IH. split.
      * intros H line [->|Hin]%elem_of_cons; [done|by apply H].
      * intros H line Hin. apply H. by right.
Qed.

Lemma check_winner_None s :
  check_winner s = None ↔
  ∀ line w, line ∈ WINNING_LINES → ¬ line_full s w line.
Proof.
  unfold check_winner. rewrite first_winner_None. split.
  - intros H line w Hin Hfull. apply line_winner_full in Hfull; [|done].
    rewrite (H line Hin) in Hfull. done.
  - intros H line Hin. destruct (line_winner s line) as [w|] eqn:Hw; [|done].
    exfalso. apply (H line w Hin). by apply line_winner_full.
Qed.

Lemma elem_of_get_winning_lines_full s pl line :
  line ∈ get_winning_lines s pl ↔
  line ∈ WINNING_LINES ∧ line_full s pl line.
Proof.
  unfold get_winning_lines.
  rewrite list_elem_of_In, filter_In, <- list_elem_of_In, forallb_forall.
  apply and_iff_compat_l. unfold line_full. split.
  - intros H pos Hpos.
    assert (Hin : In (get_top s pos) (map (get_top s) line))
      by (apply in_map; by apply list_elem_of_In).
    apply H in Hin. destruct (get_top s pos) as [t|]; [|done].
    exists t. split; [done|]. by apply bool_decide_eq_true in Hin.
  - intros H o (pos & <- & Hpos%list_elem_of_In)%in_map_iff.
    destruct (H pos Hpos) as (t & -> & Ht). by apply bool_decide_eq_true.
Qed.

Lemma get_winning_lines_nil s pl :
  get_winning_lines s pl = [] ↔
  ∀ line, line ∈ WINNING_LINES → ¬ line_full s pl line.
Proof.
  split.
  - intros Hnil line Hin Hfull.
    assert (line ∈ get_winning_lines s pl)
      by (by apply elem_of_get_winning_lines_full).
    rewrite Hnil in H. by apply elem_of_nil in H.
  - intros H. destruct (get_winning_lines s pl) as [|l ls] eqn:HL; [done|].
    assert (Hl : l ∈ get_winning_lines s pl) by (rewrite HL; by left).
    apply elem_of_get_winning_lines_full in Hl as [Hin Hfull].
    by destruct (H l Hin).
Qed.

(** ** Moves of one origin, in general *)

Lemma elem_of_board_moves_from s fp m :
  m ∈ board_moves_from s fp ↔
  ∃ top sl,
    remove_top s fp = Some (top, sl) ∧ player top = current_player s ∧
    ((get_winning_lines sl (opponent (current_player s)) = [] ∧
      m ∈ free_slides s top fp) ∨
     (get_winning_lines sl (opponent (current_player s)) ≠ [] ∧
      ∃ tp, m = slide_move (current_player s) fp tp ∧
            saves_some_line sl top
              (get_winning_lines sl (opponent (current_player s))) tp ∧
            tp ≠ fp)).
Proof.
  split.
  - intros Hm. pose proof Hm as Hm'. unfold board_moves_from in Hm.
    destruct (get_top s fp) as [top|] eqn:Htop; [|by apply elem_of_nil in Hm].
    case_bool_decide as Hpl; [by apply elem_of_nil in Hm|].
    assert (Hpl' : player top = current_player s).
    { destruct (decide (player top = current_player s)); [done|].
      by destruct Hpl. }
    destruct (get_top_remove_top s fp top Htop) as [sl Hrm].
    rewrite Hrm in Hm. exists top, sl. split; [done|]. split; [done|].
    destruct (get_winning_lines sl (opponent (current_player s)))
      as [|l ls] eqn:HL.
    + left. done.
    + right. split; [done|]. rewrite <- HL.
      eapply board_moves_from_reveal; [done|done| |done]. by rewrite HL.
  - intros (top & sl & Hrm & Hpl & [[HL Hm]|[HL Hm]]).
    + unfold board_moves_from.
      rewrite (remove_top_get_top _ _ _ _ Hrm), Hrm.
      rewrite bool_decide_eq_false_2 by (intros Hne; by apply Hne).
      by rewrite HL.
    + by eapply board_moves_from_reveal.
Qed.

Lemma generated_on_board s m : m ∈ generate_moves s → move_on_board m.
Proof.
  intros [Hm|(fp & Hfp & Hm)]%elem_of_generate_moves.
  - apply elem_of_reserve_moves in Hm as (sz & pos & -> & _ & Hpos & _).
    split; [done|]. by intros fp [=].
  - apply elem_of_board_moves_from in Hm
      as (top & sl & _ & _ & [[_ Hm]|[_ (tp & -> & Hsave & _)]]).
    + apply elem_of_free_slides in Hm as (tp & -> & Htp & _).
      split; [done|]. by intros fp' [= <-].
    + split; [|by intros fp' [= <-]].
      destruct Hsave as [(line & Hline & Htp) _].
      apply elem_of_get_winning_lines in Hline.
      by eapply winning_lines_positions.
Qed.

Lemma finish_move_cases s m pc :
  (check_winner s = None ∧
   finish_move s m pc
   = (ONGOING, mkUndo m pc true true,
      set_current_player s (opponent (current_player s)))) ∨
  (∃ w, check_winner s = Some w ∧
        finish_move s m pc = (winner w, mkUndo m pc true false, s)).
Proof.
  unfold finish_move. destruct (check_winner s) as [w|]; [right|left]; eauto.
Qed.

Lemma winner_not_ongoing w : winner w ≠ ONGOING.
Proof. by destruct w. Qed.

(** ** A symmetry of the board *)

Section board_symmetry.
Variable σ : Position → Position.
Variable g : GameState → GameState.

Hypothesis σ_on_board :
  ∀ pos, pos ∈ all_positions → σ pos ∈ all_positions.
Hypothesis σ_inj :
  ∀ p q, p ∈ all_positions → q ∈ all_positions → σ p = σ q → p = q.
Hypothesis σ_lines :
  ∀ line, line ∈ WINNING_LINES →
          ∃ line', line' ∈ WINNING_LINES ∧ line' ≡ₚ σ <$> line.
Hypothesis σ_lines_inv :
  ∀ line', line' ∈ WINNING_LINES →
           ∃ line, line ∈ WINNING_LINES ∧ line' ≡ₚ σ <$> line.
Hypothesis g_shape : ∀ s, board_shape s → board_shape (g s).
Hypothesis g_stack :
  ∀ s pos, board_shape s → pos ∈ all_positions →
           get_stack (g s) (σ pos) = get_stack s pos.
Hypothesis g_set_stack :
  ∀ s pos stack, board_shape s → pos ∈ all_positions →
                 g (set_stack s pos stack) = set_stack (g s) (σ pos) stack.
Hypothesis g_reserves : ∀ s, _reserves (g s) = _reserves s.
Hypothesis g_player : ∀ s, current_player (g s) = current_player s.
Hypothesis g_set_reserves :
  ∀ s r, g (set_reserves s r) = set_reserves (g s) r.
Hypothesis g_set_player :
  ∀ s pl, g (set_current_player s pl) = set_current_player (g s) pl.

Lemma sym_get_top s pos :
  board_shape s → pos ∈ all_positions →
  get_top (g s) (σ pos) = get_top s pos.
Proof. intros Hs Hpos. unfold get_top. by rewrite g_stack. Qed.

Lemma sym_can_place_at s pc pos :
  board_shape s → pos ∈ all_positions →
  can_place_at pc (σ pos) (g s) = can_place_at pc pos s.
Proof. intros Hs Hpos. unfold can_place_at. by rewrite sym_get_top. Qed.

Lemma sym_place_piece s pc pos :
  board_shape s → pos ∈ all_positions →
  place_piece (g s) pc (σ pos) = g <$> place_piece s pc pos.
Proof.
  intros Hs Hpos. unfold place_piece. rewrite g_stack by done.
  destruct (get_stack s pos) as [stack|]; [|done].
  cbn. by rewrite g_set_stack.
Qed.

Lemma sym_remove_top s pos :
  board_shape s → pos ∈ all_positions →
  remove_top (g s) (σ pos) = prod_map id g <$> remove_top s pos.
Proof.
  intros Hs Hpos. unfold remove_top. rewrite g_stack by done.
  destruct (get_stack s pos) as [stack|]; [|done]. cbn.
  destruct (pop_stack stack) as [[top rest]|]; [|done].
  cbn. by rewrite g_set_stack.
Qed.

Lemma sym_has_reserve s pl sz :
  has_reserve (g s) pl sz = has_reserve s pl sz.
Proof. unfold has_reserve, get_reserve. by rewrite g_reserves. Qed.

Lemma sym_line_full s pl line line' :
  board_shape s → line ∈ WINNING_LINES → line' ≡ₚ σ <$> line →
  line_full (g s) pl line' ↔ line_full s pl line.
Proof.
  intros Hs Hline Hperm. unfold line_full. split.
  - intros H pos Hpos.
    assert (Hon : pos ∈ all_positions)
      by (by eapply winning_lines_positions).
    rewrite <- sym_get_top by done. apply H. rewrite Hperm.
    by apply list_elem_of_fmap_2.
  - intros H q Hq. rewrite Hperm in Hq.
    apply list_elem_of_fmap in Hq as (pos & -> & Hpos).
    rewrite sym_get_top; [by apply H|done|].
    by eapply winning_lines_positions.
Qed.

Lemma sym_check_winner_None s :
  board_shape s → check_winner (g s) = None ↔ check_winner s = None.
Proof.
  intros Hs. rewrite !check_winner_None. split.
  - intros H line w Hline Hfull.
    destruct (σ_lines line Hline) as (line' & Hline' & Hperm).
    apply (H line' w Hline').
    by apply (sym_line_full s w line line' Hs Hline Hperm).
  - intros H line' w Hline' Hfull.
    destruct (σ_lines_inv line' Hline') as (line & Hline & Hperm).
    apply (H line w Hline).
    by apply (sym_line_full s w line line' Hs Hline Hperm).
Qed.

Lemma sym_winning_lines_nil s pl :
  board_shape s →
  get_winning_lines (g s) pl = [] ↔ get_winning_lines s pl = [].
Proof.
  intros Hs. rewrite !get_winning_lines_nil. split.
  - intros H line Hline Hfull.
    destruct (σ_lines line Hline) as (line' & Hline' & Hperm).
    apply (H line' Hline').
    by apply (sym_line_full s pl line line' Hs Hline Hperm).
  - intros H line' Hline' Hfull.
    destruct (σ_lines_inv line' Hline') as (line & Hline & Hperm).
    apply (H line Hline).
    by apply (sym_line_full s pl line line' Hs Hline Hperm).
Qed.

Lemma sym_saves_some_line sl top pl tp :
  board_shape sl → tp ∈ all_positions →
  saves_some_line (g sl) top (get_winning_lines (g sl) pl) (σ tp) ↔
  saves_some_line sl top (get_winning_lines sl pl) tp.
Proof.
  intros Hs Htp. unfold saves_some_line. rewrite sym_get_top by done.
  apply and_iff_compat_r. split.
  - intros (line' & [Hline' Hfull]%elem_of_get_winning_lines_full & Hin).
    destruct (σ_lines_inv line' Hline') as (line & Hline & Hperm).
    exists line. split.
    + apply elem_of_get_winning_lines_full. split; [done|].
      by apply (sym_line_full sl pl line line' Hs Hline Hperm).
    + rewrite Hperm in Hin.
      apply list_elem_of_fmap in Hin as (pos & Heq & Hpos).
      apply σ_inj in Heq as ->; [done|done|].
      by eapply winning_lines_positions.
  - intros (line & [Hline Hfull]%elem_of_get_winning_lines_full & Hin).
    destruct (σ_lines line Hline) as (line' & Hline' & Hperm).
    exists line'. split.
    + apply elem_of_get_winning_lines_full. split; [done|].
      by apply (sym_line_full sl pl line line' Hs Hline Hperm).
    + rewrite Hperm. by apply list_elem_of_fmap_2.
Qed.

Lemma sym_finish_move s m m' pc r u s' :
  board_shape s → finish_move s m pc = (r, u, s') →
  ∃ r', finish_move (g s) m' pc
        = (r', mkUndo m' pc true (player_switched u), g s') ∧
        (r = ONGOING ↔ r' = ONGOING) ∧
        piece u = pc ∧ move_completed u = true.
Proof.
  intros Hs Hfin.
  destruct (finish_move_cases s m pc) as [[Hw Heq]|(w & Hw & Heq)];
    rewrite Heq in Hfin; injection Hfin as <- <- <-;
    destruct (finish_move_cases (g s) m' pc) as [[Hw' Heq']|(w' & Hw' & Heq')];
    rewrite Heq'.
  - exists ONGOING. rewrite g_set_player, g_player. by repeat split.
  - apply (sym_check_winner_None s Hs) in Hw. by rewrite Hw in Hw'.
  - apply (sym_check_winner_None s Hs) in Hw'. by rewrite Hw in Hw'.
  - exists (winner w'). split; [done|]. split; [|done].
    split; intros H; by apply winner_not_ongoing in H.
Qed.

Lemma board_shape_set_reserves s r :
  board_shape s → board_shape (set_reserves s r).
Proof. done. Qed.

(** The in-place apply commutes with the symmetry: the same piece,
    the same flags, the image of the resulting position, and a result
    that is ongoing on both sides or on neither.  Which player a
    finished game names may differ. *)
Lemma sym_apply s m r u s' :
  board_shape s → move_on_board m →
  apply_move_in_place s m = Some (r, u, s') →
  ∃ r', apply_move_in_place (g s) (move_image σ m)
        = Some (r', mkUndo (move_image σ m) (piece u) (move_completed u)
                           (player_switched u), g s') ∧
        (r = ONGOING ↔ r' = ONGOING).
Proof.
  intros Hs [Hto Hfrom]. unfold apply_move_in_place.
  rewrite g_player, g_reserves. destruct m as [mp tp fp msz].
  cbn [from_pos to_pos move_size move_image] in *.
  destruct fp as [fp|]; cbn [fmap option_fmap option_map].
  - specialize (Hfrom fp eq_refl).
    rewrite sym_remove_top by done.
    destruct (remove_top s fp) as [[pc s1]|] eqn:Hrm; [|done].
    cbn [fmap option_fmap option_map prod_map id mbind option_bind fst snd].
    assert (Hs1 : board_shape s1) by (by eapply board_shape_remove_top).
    pose proof (sym_winning_lines_nil s1
                  (opponent (current_player s)) Hs1) as Hnil.
    pose proof (sym_saves_some_line s1 pc
                  (opponent (current_player s)) tp Hs1 Hto) as Hsave.
    set (m := mkMove mp tp (Some fp) msz) in *.
    set (m' := move_image σ m) in *.
    assert (Hplace : ∀ r u s',
      (s2 ← place_piece s1 pc tp; Some (finish_move s2 m pc))
      = Some (r, u, s') →
      ∃ r', (s2 ← place_piece (g s1) pc (σ tp); Some (finish_move s2 m' pc))
            = Some (r', mkUndo m' (piece u) (move_completed u)
                               (player_switched u), g s') ∧
            (r = ONGOING ↔ r' = ONGOING)).
    { intros r0 u0 s0. rewrite sym_place_piece by done.
      destruct (place_piece s1 pc tp) as [s2|] eqn:Hpl; [|done].
      cbn. intros [= Hfin].
      destruct (sym_finish_move s2 m m' pc r0 u0 s0) as (r' & -> & ? & -> & ->);
        [by eapply board_shape_place_piece|done|].
      by exists r'. }
    destruct (get_winning_lines s1 (opponent (current_player s)))
      as [|l ls] eqn:HL.
    + rewrite (proj2 Hnil) by done. apply Hplace.
    + destruct (get_winning_lines (g s1) (opponent (current_player s)))
        as [|l' ls'] eqn:HL'.
      { destruct Hnil as [Hnil _]. by specialize (Hnil eq_refl). }
      destruct (can_save s1 m pc (l :: ls)) eqn:Hcs.
      * rewrite (proj2 (can_save_true (g s1) m' pc _)); [apply Hplace|].
        apply can_save_true in Hcs. by apply Hsave.
      * assert (can_save (g s1) m' pc (l' :: ls') = false) as ->.
        { apply not_true_is_false. intros Hcs'%can_save_true.
          apply Hsave in Hcs'. apply (can_save_true s1 m pc) in Hcs'.
          by rewrite Hcs in Hcs'. }
        intros [= <- <- <-]. by eexists.
  - destruct msz as [sz|]; [|done]. cbn [mbind option_bind].
    destruct (_reserves s !! (current_player s, sz)) as [n|]; [|done].
    cbn [mbind option_bind].
    set (pc := mkPiece (current_player s) sz).
    set (r1 := <[(current_player s, sz) := n - 1]> (_reserves s)).
    set (m := mkMove mp tp None (Some sz)).
    replace (set_reserves (g s) r1) with (g (set_reserves s r1))
      by apply g_set_reserves.
    rewrite (sym_place_piece (set_reserves s r1)) by done.
    destruct (place_piece (set_reserves s r1) pc tp) as [s2|] eqn:Hpl;
      [|done].
    cbn [fmap option_fmap option_map mbind option_bind].
    intros [= Hfin].
    destruct (sym_finish_move s2 m (move_image σ m) pc r u s')
      as (r' & -> & ? & -> & ->);
      [exact (board_shape_place_piece (set_reserves s r1) s2 pc tp Hs Hpl)
      |done|].
    by exists r'.
Qed.

(** Move generation commutes with the symmetry. *)
Lemma sym_generate_moves s m :
  board_shape s → m ∈ generate_moves s →
  move_image σ m ∈ generate_moves (g s).
Proof.
  intros Hs [Hm|(fp & Hfp & Hm)]%elem_of_generate_moves;
    apply elem_of_generate_moves.
  - left. apply elem_of_reserve_moves in Hm as (sz & pos & -> & Hr & Hpos & Hc).
    apply elem_of_reserve_moves. exists sz, (σ pos).
    rewrite g_player, sym_has_reserve, sym_can_place_at by done.
    split; [done|]. split; [done|]. split; [by apply σ_on_board|done].
  - right. exists (σ fp). split; [by apply σ_on_board|].
    apply elem_of_board_moves_from in Hm as (top & sl & Hrm & Hpl & Hm).
    assert (Hsl : board_shape sl) by (by eapply board_shape_remove_top).
    apply elem_of_board_moves_from. exists top, (g sl).
    rewrite sym_remove_top, Hrm, g_player by done.
    split; [done|]. split; [done|].
    destruct Hm as [[HL Hm]|[HL (tp & -> & Hsave & Hne)]].
    + left. split; [by apply sym_winning_lines_nil|].
      apply elem_of_free_slides in Hm as (tp & -> & Htp & Hne & Hc).
      apply elem_of_free_slides. exists (σ tp). rewrite g_player.
      split; [done|]. split; [by apply σ_on_board|].
      split; [|by rewrite sym_can_place_at].
      intros Heq. apply σ_inj in Heq; done.
    + right. split; [by rewrite sym_winning_lines_nil|].
      assert (Htp : tp ∈ all_positions).
      { destruct Hsave as [(line & Hline & Htp) _].
        apply elem_of_get_winning_lines in Hline.
        by eapply winning_lines_positions. }
      exists (σ tp). split; [done|].
      split; [by apply sym_saves_some_line|].
      intros Heq. apply σ_inj in Heq; done.
Qed.

Lemma sym_ongoing_move p p' :
  board_shape p → ongoing_move p p' → ongoing_move (g p) (g p').
Proof.
  intros Hp (m & u & Hm & Happ).
  destruct (sym_apply p m ONGOING u p') as (r' & Happ' & Hr);
    [done|by eapply generated_on_board|done|].
  rewrite (proj1 Hr eq_refl) in Happ'.
  eexists _, _. split; [by apply sym_generate_moves|done].
Qed.
End board_symmetry.

(** ** The two generators are symmetries of the board *)

Lemma generator_pos_on_board g pos :
  pos ∈ all_positions → generator_pos g pos ∈ all_positions.
Proof.
  rewrite !elem_of_all_positions. destruct g; unfold generator_pos, rotate_pos,
    reflect_pos; simpl; lia.
Qed.

Lemma generator_pos_inj g p q :
  p ∈ all_positions → q ∈ all_positions →
  generator_pos g p = generator_pos g q → p = q.
Proof.
  rewrite !elem_of_all_positions. destruct p as [r c], q as [r' c'].
  destruct g; unfold generator_pos, rotate_pos, reflect_pos; simpl;
    intros ? ? [= ? ?]; f_equal; lia.
Qed.

Lemma generator_lines g line :
  line ∈ WINNING_LINES →
  ∃ line', line' ∈ WINNING_LINES ∧ line' ≡ₚ generator_pos g <$> line.
Proof.
  assert (H : Forall (λ line, Exists (λ line', line' ≡ₚ generator_pos g <$> line)
                                     WINNING_LINES) WINNING_LINES).
  { destruct g; apply (bool_decide_unpack _); by vm_compute. }
  intros Hline. rewrite Forall_forall in H. specialize (H line Hline).
  apply Exists_exists in H as (line' & Hin & Hperm). by exists line'.
Qed.

Lemma generator_lines_inv g line' :
  line' ∈ WINNING_LINES →
  ∃ line, line ∈ WINNING_LINES ∧ line' ≡ₚ generator_pos g <$> line.
Proof.
  assert (H : Forall (λ line', Exists (λ line, line' ≡ₚ generator_pos g <$> line)
                                      WINNING_LINES) WINNING_LINES).
  { destruct g; apply (bool_decide_unpack _); by vm_compute. }
  intros Hline. rewrite Forall_forall in H. specialize (H line' Hline).
  apply Exists_exists in H as (line & Hin & Hperm). by exists line.
Qed.

Lemma generator_get_stack g s pos :
  board_shape s → pos ∈ all_positions →
  get_stack (apply_generator g s) (generator_pos g pos) = get_stack s pos.
Proof.
  intros (a & b & c & d & e & f & g' & h & i & Hb)%board_shape_inv Hpos.
  destruct s as [bd r p]. simpl in Hb. subst bd.
  rewrite all_positions_unfold in Hpos.
  destruct g; unfold apply_generator;
    rewrite ?rotate_state_3x3, ?reflect_state_3x3;
    repeat (apply elem_of_cons in Hpos as [->|Hpos]; [reflexivity|]);
    by apply elem_of_nil in Hpos.
Qed.

Lemma generator_set_stack g s pos stack :
  board_shape s → pos ∈ all_positions →
  apply_generator g (set_stack s pos stack)
  = set_stack (apply_generator g s) (generator_pos g pos) stack.
Proof.
  intros (a & b & c & d & e & f & g' & h & i & Hb)%board_shape_inv Hpos.
  destruct s as [bd r p]. simpl in Hb. subst bd.
  rewrite all_positions_unfold in Hpos.
  destruct g; unfold apply_generator;
    repeat (apply elem_of_cons in Hpos as [->|Hpos]; [reflexivity|]);
    by apply elem_of_nil in Hpos.
Qed.

Lemma generator_reserves g s :
  _reserves (apply_generator g s) = _reserves s.
Proof. by destruct g. Qed.

Lemma generator_player g s :
  current_player (apply_generator g s) = current_player s.
Proof. by destruct g. Qed.

Lemma generator_set_reserves g s r :
  apply_generator g (set_reserves s r) = set_reserves (apply_generator g s) r.
Proof. by destruct g. Qed.

Lemma generator_set_player g s pl :
  apply_generator g (set_current_player s pl)
  = set_current_player (apply_generator g s) pl.
Proof. by destruct g. Qed.

Lemma generator_ongoing_move g p p' :
  board_shape p → ongoing_move p p' →
  ongoing_move (apply_generator g p) (apply_generator g p').
Proof.
  apply (sym_ongoing_move (generator_pos g) (apply_generator g)).
  - apply generator_pos_on_board.
  - apply generator_pos_inj.
  - apply generator_lines.
  - apply generator_lines_inv.
  - apply generator_get_stack.
  - apply generator_set_stack.
  - apply generator_reserves.
  - apply generator_player.
  - apply generator_set_reserves.
  - apply generator_set_player.
Qed.

(** ** Words in the generators *)

Lemma generator_pos_surj g pos :
  pos ∈ all_positions →
  ∃ q, q ∈ all_positions ∧ generator_pos g q = pos.
Proof.
  assert (H : Forall (λ pos, Exists (λ q, generator_pos g q = pos)
                                    all_positions) all_positions).
  { destruct g; apply (bool_decide_unpack _); by vm_compute. }
  intros Hpos. rewrite Forall_forall in H. specialize (H pos Hpos).
  apply Exists_exists in H as (q & Hq & Heq). by exists q.
Qed.

Lemma count_on_board_apply_generator g s pl sz :
  board_shape s →
  count_on_board (apply_generator g s) pl sz = count_on_board s pl sz.
Proof.
  intros (a & b & c & d & e & f & g' & h & i & Hb)%board_shape_inv.
  destruct s as [bd r p]. simpl in Hb. subst bd.
  destruct g; unfold apply_generator;
    rewrite ?rotate_state_3x3, ?reflect_state_3x3;
    unfold count_on_board; cbn [_board sum_list_with]; lia.
Qed.

Lemma well_formed_apply_generator g s :
  well_formed s → well_formed (apply_generator g s).
Proof.
  intros (Hshape & Hres & Hsorted).
  split; [apply board_shape_apply_generator|]. split.
  - intros pl sz. rewrite generator_reserves.
    by rewrite count_on_board_apply_generator.
  - intros pos stack Hget.
    assert (Hpos : pos ∈ all_positions).
    { apply (get_stack_all_positions (apply_generator g s));
        [apply board_shape_apply_generator|by rewrite Hget]. }
    destruct (generator_pos_surj g pos Hpos) as (q & Hq & <-).
    rewrite generator_get_stack in Hget by done. by eapply Hsorted.
Qed.

Lemma well_formed_apply_transform t s :
  well_formed s → well_formed (apply_transform t s).
Proof.
  intros Hs. induction t as [|g t IH]; [done|].
  by apply well_formed_apply_generator.
Qed.

Lemma board_shape_apply_transform t s :
  board_shape s → board_shape (apply_transform t s).
Proof. intros Hs. by apply canonicalize_apply_transform. Qed.

Lemma ongoing_move_apply_transform t p p' :
  board_shape p → ongoing_move p p' →
  ongoing_move (apply_transform t p) (apply_transform t p').
Proof.
  intros Hp Hmove. induction t as [|g t IH]; [done|].
  apply generator_ongoing_move; [|done]. by apply board_shape_apply_transform.
Qed.

Lemma apply_transform_app t1 t2 s :
  apply_transform (t1 ++ t2) s = apply_transform t1 (apply_transform t2 s).
Proof. unfold apply_transform. by rewrite foldr_app. Qed.

Lemma generator_inverse_cancel g s :
  board_shape s →
  apply_transform (generator_inverse g) (apply_generator g s) = s.
Proof.
  intros (a & b & c & d & e & f & g' & h & i & Hb)%board_shape_inv.
  destruct s as [bd r p]. simpl in Hb. subst bd.
  destruct g; cbn [generator_inverse apply_transform foldr apply_generator];
    by rewrite ?rotate_state_3x3, ?reflect_state_3x3.
Qed.

Lemma transform_inverse t :
  ∃ t', ∀ s, board_shape s → apply_transform t' (apply_transform t s) = s.
Proof.
  induction t as [|g t [t' IH]].
  - by exists [].
  - exists (t' ++ generator_inverse g). intros s Hs.
    rewrite apply_transform_app. cbn [apply_transform foldr].
    rewrite generator_inverse_cancel by (by apply board_shape_apply_transform).
    by apply IH.
Qed.

Lemma encode_apply_transform t s e :
  board_shape s → encode_state s = Some e →
  encode_state (apply_transform t s) = Some (transform_encoding t e).
Proof.
  intros Hs He. induction t as [|g t IH]; [done|].
  cbn [apply_transform transform_encoding foldr].
  pose proof (board_shape_apply_transform t s Hs) as Ht.
  destruct g; cbn [apply_generator generator_encoding].
  - rewrite encode_rotate_state by done. unfold apply_transform in IH.
    by rewrite IH.
  - rewrite encode_reflect_state by done. unfold apply_transform in IH.
    by rewrite IH.
Qed.

Lemma canonicalize_is_transform e :
  ∃ t, canonicalize e = transform_encoding t e.
Proof.
  pose proof (canonicalize_elem e) as Hin.
  rewrite get_all_symmetries_unfold in Hin.
  assert (Hword : ∀ t x, x = foldr generator_encoding e t →
                         ∃ t', x = transform_encoding t' e) by eauto.
  apply elem_of_cons in Hin as [->|Hin]; [apply (Hword []); cbn [foldr generator_encoding]; reflexivity|].
  apply elem_of_cons in Hin as [->|Hin];
    [apply (Hword [ReflectH]); cbn [foldr generator_encoding]; reflexivity|].
  apply elem_of_cons in Hin as [->|Hin];
    [apply (Hword [Rotate90]); cbn [foldr generator_encoding]; reflexivity|].
  apply elem_of_cons in Hin as [->|Hin];
    [apply (Hword [ReflectH; Rotate90]); cbn [foldr generator_encoding]; reflexivity|].
  apply elem_of_cons in Hin as [->|Hin];
    [apply (Hword [Rotate90; Rotate90]); cbn [foldr generator_encoding]; reflexivity|].
  apply elem_of_cons in Hin as [->|Hin];
    [apply (Hword [ReflectH; Rotate90; Rotate90]); cbn [foldr generator_encoding]; reflexivity|].
  apply elem_of_cons in Hin as [->|Hin];
    [apply (Hword [Rotate90; Rotate90; Rotate90]); cbn [foldr generator_encoding]; reflexivity|].
  apply elem_of_cons in Hin as [->|Hin];
    [apply (Hword [ReflectH; Rotate90; Rotate90; Rotate90]); cbn [foldr generator_encoding]; reflexivity|].
  by apply elem_of_nil in Hin.
Qed.

(** The canonical key of a well-formed position decodes to one of the
    eight images of the position. *)
Lemma canonical_key_decodes p :
  well_formed p →
  ∃ k t, canonicalize_state p = Some k ∧
         decode_state k = Some (apply_transform t p).
Proof.
  intros Hwf. destruct (decode_encode p Hwf) as (e & He & _ & _).
  destruct (canonicalize_is_transform e) as [t Ht].
  exists (canonicalize e), t. unfold canonicalize_state. rewrite He.
  split; [done|]. rewrite Ht.
  destruct (decode_encode (apply_transform t p)) as (e' & He' & _ & Hdec);
    [by apply well_formed_apply_transform|].
  rewrite (encode_apply_transform t p e) in He' by (done || apply Hwf).
  by injection He' as <-.
Qed.

Lemma canonicalize_state_apply_transform t s :
  board_shape s →
  canonicalize_state (apply_transform t s) = canonicalize_state s.
Proof. intros Hs. by apply canonicalize_apply_transform. Qed.

(** * The enumerator and the lines of play *)

(** ** Keys and positions *)

Lemma ongoing_move_well_formed p p' :
  well_formed p → ongoing_move p p' → well_formed p'.
Proof. intros Hp (m & u & Hm & Happ). by eapply well_formed_apply. Qed.

(** The children of the position a key decodes to have the keys of the
    children of any position of that key. *)
Lemma key_step_ongoing_move p k k' :
  well_formed p → canonicalize_state p = Some k →
  key_step k k' ↔
  ∃ p', ongoing_move p p' ∧ canonicalize_state p' = Some k'.
Proof.
  intros Hwf Hk. destruct (canonical_key_decodes p Hwf) as (k1 & t & Hk1 & Hdec).
  rewrite Hk in Hk1. injection Hk1 as <-.
  assert (Hp : board_shape p) by apply Hwf.
  unfold key_step. split.
  - intros (s & Hs & Hin). rewrite Hdec in Hs. injection Hs as <-.
    apply elem_of_child_keys in Hin as (m & u & q' & Hm & Happ & Hq').
    assert (Hmove : ongoing_move (apply_transform t p) q') by (by exists m, u).
    destruct (transform_inverse t) as [t' Hinv].
    apply (ongoing_move_apply_transform t') in Hmove;
      [|by apply board_shape_apply_transform].
    rewrite Hinv in Hmove by done.
    exists (apply_transform t' q'). split; [done|].
    rewrite canonicalize_state_apply_transform; [done|].
    eapply well_formed_apply; [|done|done].
    by apply well_formed_apply_transform.
  - intros (p' & Hmove & Hk').
    exists (apply_transform t p). split; [done|].
    pose proof (ongoing_move_well_formed p p' Hwf Hmove) as Hwf'.
    apply (ongoing_move_apply_transform t) in Hmove as (m & u & Hm & Happ);
      [|done].
    apply elem_of_child_keys. exists m, u, (apply_transform t p').
    split; [done|]. split; [done|].
    rewrite canonicalize_state_apply_transform; [done|apply Hwf'].
Qed.

Lemma solved_line_well_formed table root n p :
  well_formed root → solved_line table root n p → well_formed p.
Proof.
  intros Hroot Hline. induction Hline as [|n p p' _ IH _ Hmove]; [done|].
  by eapply ongoing_move_well_formed.
Qed.

Lemma solved_line_key_path table root k0 n p :
  well_formed root → canonicalize_state root = Some k0 →
  solved_line table root n p →
  ∃ k, canonicalize_state p = Some k ∧ solved_key_path table k0 n k.
Proof.
  intros Hroot Hk0 Hline.
  induction Hline as [|n p p' Hline (k & Hk & Hpath) Hexp Hmove].
  { exists k0. split; [done|constructor]. }
  assert (Hp : well_formed p) by (by eapply solved_line_well_formed).
  assert (Hp' : well_formed p') by (by eapply ongoing_move_well_formed).
  destruct (well_formed_canonical_key p' Hp') as (k' & Hk' & _).
  exists k'. split; [done|].
  eapply solved_key_path_step; [done| |].
  - destruct Hexp as [Heq|(k1 & Hk1 & Ht)].
    + left. rewrite Hk, Hk0 in Heq. by injection Heq.
    + right. rewrite Hk in Hk1. by injection Hk1 as <-.
  - apply (key_step_ongoing_move p k k' Hp Hk). by exists p'.
Qed.

Lemma solved_key_path_line table root k0 n k :
  well_formed root → canonicalize_state root = Some k0 →
  solved_key_path table k0 n k →
  ∃ p, solved_line table root n p ∧ canonicalize_state p = Some k.
Proof.
  intros Hroot Hk0 Hpath.
  induction Hpath as [|n k k' Hpath (p & Hline & Hk) Hexp Hstep].
  { exists root. split; [constructor|done]. }
  assert (Hp : well_formed p) by (by eapply solved_line_well_formed).
  apply (key_step_ongoing_move p k k' Hp Hk) in Hstep as (p' & Hmove & Hk').
  exists p'. split; [|done].
  eapply solved_line_move; [done| |done].
  destruct Hexp as [->|Ht].
  - left. by rewrite Hk, Hk0.
  - right. by exists k.
Qed.

Lemma initial_canonical_key : canonicalize_state initial_state = Some 0.
Proof. by vm_compute. Qed.

Lemma slots_valid_0 : slots_valid 0.
Proof. apply (bool_decide_unpack _). by vm_compute. Qed.

(** ** What the enumerator returns *)

(** The enumerator raises nothing, whenever it is stopped, and its
    containers satisfy the invariant of the loop. *)
Lemma enumerate_invariant table stop_after :
  ∃ run L D Q1 Q2,
    bfs_loop table stop_after (bfs_start 0) = Some run ∧
    _enumerate_with_encoding_queue table stop_after
    = Some (bfs_unsolved run) ∧
    bfs_inv table 0 L None D Q1 Q2 run.
Proof.
  destruct (bfs_inv_loop table 0 stop_after slots_valid_0 0%nat
              {[0 := 0%nat]} [(0, 0%nat)] [] (bfs_start 0))
    as (run & L & D & Q1 & Q2 & Hloop & Hinv); [apply bfs_inv_start|].
  exists run, L, D, Q1, Q2. split; [done|]. split; [|done].
  unfold _enumerate_with_encoding_queue.
  pose proof initial_canonical_key as Hk. unfold canonicalize_state in Hk.
  rewrite Hk. cbn [mbind option_bind]. by rewrite Hloop.
Qed.

(** C8, as the enumerator behaves.  Whenever the enumerator is stopped,
    it returns a frontier map, and for every entry (c, d) of it: c is
    not in the table, and d is the least number of moves over the lines
    of play from the initial position to a position of key c in which
    every position before the last is the root or has its key in the
    table.  Lines of play through positions outside the table are not
    counted. *)
Theorem bfs_depth_least_among_solved_lines
    (table : gmap Z Outcome) (stop_after : nat) :
  ∃ unsolved,
    _enumerate_with_encoding_queue table stop_after = Some unsolved ∧
    ∀ c d, unsolved !! c = Some d →
           table !! c = None ∧
           least_solved_depth table initial_state c d.
Proof.
  destruct (enumerate_invariant table stop_after)
    as (run & L & D & Q1 & Q2 & _ & Henum & Hinv).
  exists (bfs_unsolved run). split; [done|]. intros c d Hc.
  destruct (bfs_inv_minimal table 0 L None D Q1 Q2 run c d Hinv Hc)
    as (Ht & Hpath & Hmin).
  split; [done|]. split.
  - eapply solved_key_path_line;
      [apply well_formed_initial|apply initial_canonical_key|done].
  - intros n p Hline Hp.
    destruct (solved_line_key_path table initial_state 0 n p)
      as (k & Hk & Hkp);
      [apply well_formed_initial|apply initial_canonical_key|done|].
    rewrite Hp in Hk. injection Hk as <-. by apply Hmin.
Qed.

(** ** A depth that is not the least *)

Lemma play_moves_line_of_play ms :
  ∀ root n p, line_of_play root n p →
    ∀ p', play_moves p ms = Some p' →
          line_of_play root (n + length ms) p'.
Proof.
  induction ms as [|m ms IH]; intros root n p Hline p'; simpl.
  - intros [= <-]. by rewrite Nat.add_0_r.
  - case_bool_decide as Hm; [|done].
    destruct (apply_move_in_place p m) as [[[r u] p1]|] eqn:Happ; [|done].
    destruct r; try done. intros Hplay.
    replace (n + S (length ms))%nat with (S n + length ms)%nat by lia.
    eapply IH; [|done]. eapply line_of_play_move; [done|]. by exists m, u.
Qed.

Lemma short_line_key :
  play_moves initial_state short_line ≫= canonicalize_state = Some 129.
Proof. by vm_compute. Qed.

Lemma bfs_example_result :
  (λ unsolved, unsolved !! 129)
    <$> _enumerate_with_encoding_queue bfs_example_table 10
  = Some (Some 4%nat).
Proof. by vm_compute. Qed.

(** With the three positions of [bfs_example_table] in the table the
    enumerator records the key 129 at depth 4, the length of
    [long_line]; the two moves of [short_line] reach a position of that
    key, through a position that is not in the table. *)
Lemma bfs_depth_not_least_counterexample :
  ∃ unsolved,
    _enumerate_with_encoding_queue bfs_example_table 10 = Some unsolved ∧
    unsolved !! 129 = Some 4%nat ∧
    ¬ least_depth initial_state 129 4.
Proof.
  pose proof bfs_example_result as Hres.
  destruct (_enumerate_with_encoding_queue bfs_example_table 10)
    as [unsolved|]; [|done].
  injection Hres as Hres. exists unsolved. split; [done|]. split; [done|].
  intros [_ Hmin].
  pose proof short_line_key as Hkey.
  destruct (play_moves initial_state short_line) as [p|] eqn:Hplay; [|done].
  cbn [mbind option_bind] in Hkey.
  pose proof (play_moves_line_of_play short_line initial_state 0
                initial_state (line_of_play_root _) p Hplay) as Hline.
  specialize (Hmin _ p Hline Hkey). simpl in Hmin. lia.
Qed.

(** * More on the move engine *)

Lemma current_player_finish_move s m p r u s' :
  finish_move s m p = (r, u, s') →
  (player_switched u = true ↔ r = ONGOING) ∧
  current_player s'
  = (if player_switched u then opponent (current_player s)
     else current_player s) ∧
  move u = m ∧ move_completed u = true ∧
  r = match check_winner s with Some w => winner w | None => ONGOING end ∧
  _board s' = _board s.
Proof.
  destruct (finish_move_cases s m p) as [[Hw ->]|(w & Hw & ->)];
    intros [= <- <- <-]; rewrite Hw; cbn.
  - done.
  - repeat split; try done. intros H. by apply winner_not_ongoing in H.
Qed.

Lemma check_winner_board s s' :
  _board s' = _board s → check_winner s' = check_winner s.
Proof.
  intros Hb. unfold check_winner.
  assert (Htop : ∀ pos, get_top s' pos = get_top s pos).
  { intros pos. unfold get_top, get_stack. by rewrite Hb. }
  induction WINNING_LINES as [|line lines IH]; [done|].
  cbn [first_winner]. rewrite IH.
  assert (line_winner s' line = line_winner s line) as ->; [|done].
  unfold line_winner.
  assert (map (get_top s') line = map (get_top s) line) as ->; [|done].
  apply map_ext. intros pos. apply Htop.
Qed.

(** X2.  Every move the generator emits is applied by the in-place
    engine without an exception and is completed: the generator never
    emits a slide that would end in a reveal loss.  The undo record
    names the move. *)
Theorem generated_moves_complete (s : GameState) (m : Move) :
  board_shape s → m ∈ generate_moves s →
  ∃ r u s', apply_move_in_place s m = Some (r, u, s') ∧
            move_completed u = true ∧ ¬ reveal_loss u.
Proof.
  intros Hs Hm.
  destruct (generated_move_applies s m Hs Hm) as (r & u & s' & Happ & Hc).
  exists r, u, s'. split; [done|]. split; [done|].
  unfold reveal_loss. by rewrite Hc.
Qed.

Lemma generated_moves_complete_witness :
  ∃ r u s',
    apply_move_in_place initial_state (place_move ONE SMALL (0, 0)%nat)
    = Some (r, u, s') ∧
    move_completed u = true ∧ ¬ reveal_loss u.
Proof.
  apply (generated_moves_complete initial_state
           (place_move ONE SMALL (0, 0)%nat)).
  - split; [reflexivity|]. by repeat constructor.
  - apply (bool_decide_unpack _). by vm_compute.
Defined.

(** X3.  The side to move changes exactly when the game goes on: after
    a move that ends the game, by a full line or by a reveal loss, the
    mover is still the current player, as the comments in
    [apply_move_in_place] say; the flag [player_switched] of the undo
    record tells which. *)
Theorem apply_switches_player_iff_ongoing
    (s : GameState) (m : Move) (r : GameResult) (u : UndoInfo)
    (s' : GameState) :
  apply_move_in_place s m = Some (r, u, s') →
  (player_switched u = true ↔ r = ONGOING) ∧
  current_player s'
  = (if player_switched u then opponent (current_player s)
     else current_player s) ∧
  move u = m.
Proof.
  unfold apply_move_in_place. intros Happ.
  assert (Hfin : ∀ s2, current_player s2 = current_player s →
            finish_move s2 m (piece u) = (r, u, s') →
            (player_switched u = true ↔ r = ONGOING) ∧
            current_player s'
            = (if player_switched u then opponent (current_player s)
               else current_player s) ∧ move u = m).
  { intros s2 Hcp Hf.
    destruct (current_player_finish_move _ _ _ _ _ _ Hf)
      as (H1 & H2 & H3 & _). rewrite Hcp in H2. done. }
  destruct (from_pos m) as [fp|].
  - destruct (remove_top s fp) as [[p s1]|] eqn:Hrm; [|done].
    cbn [mbind option_bind] in Happ.
    pose proof (current_player_remove_top _ _ _ _ Hrm) as Hcp1.
    assert (Hplace : (s2 ← place_piece s1 p (to_pos m);
                      Some (finish_move s2 m p)) = Some (r, u, s') →
              (player_switched u = true ↔ r = ONGOING) ∧
              current_player s'
              = (if player_switched u then opponent (current_player s)
                 else current_player s) ∧ move u = m).
    { destruct (place_piece s1 p (to_pos m)) as [s2|] eqn:Hpl; [|done].
      cbn [mbind option_bind]. intros [= Hf].
      assert (piece u = p) as Hp.
      { destruct (finish_move_cases s2 m p) as [[_ Heq]|(w & _ & Heq)];
          rewrite Heq in Hf; by injection Hf as <- <- <-. }
      apply (Hfin s2); [|by rewrite Hp].
      rewrite (current_player_place_piece _ _ _ _ Hpl). done. }
    destruct (get_winning_lines s1 (opponent (current_player s))).
    + by apply Hplace.
    + destruct (can_save s1 m p _); [by apply Hplace|].
      injection Happ as <- <- <-. cbn. split; [|by rewrite Hcp1].
      split; [done|]. intros H. by apply winner_not_ongoing in H.
  - destruct (move_size m) as [sz|]; [|done].
    cbn [mbind option_bind] in Happ.
    destruct (_reserves s !! (current_player s, sz)) as [n|]; [|done].
    cbn [mbind option_bind] in Happ.
    destruct (place_piece _ _ (to_pos m)) as [s2|] eqn:Hpl; [|done].
    cbn [mbind option_bind] in Happ. injection Happ as Hf.
    assert (piece u = mkPiece (current_player s) sz) as Hp.
    { destruct (finish_move_cases s2 m (mkPiece (current_player s) sz))
        as [[_ Heq]|(w & _ & Heq)];
        rewrite Heq in Hf; by injection Hf as <- <- <-. }
    apply (Hfin s2); [|by rewrite Hp].
    by rewrite (current_player_place_piece _ _ _ _ Hpl).
Qed.

Lemma apply_switches_player_iff_ongoing_witness :
  (player_switched
     (mkUndo (place_move ONE LARGE (1, 1)%nat) P1L true true) = true
   ↔ ONGOING = ONGOING) ∧
  current_player
    (mkState [[[]; []; []]; [[]; [P1L]; []]; [[]; []; []]]
             (reserves_of 2 2 1 2 2 2) TWO)
  = (if player_switched
          (mkUndo (place_move ONE LARGE (1, 1)%nat) P1L true true)
     then opponent (current_player initial_state)
     else current_player initial_state) ∧
  move (mkUndo (place_move ONE LARGE (1, 1)%nat) P1L true true)
  = place_move ONE LARGE (1, 1)%nat.
Proof.
  apply (apply_switches_player_iff_ongoing initial_state
           (place_move ONE LARGE (1, 1)%nat) ONGOING). by vm_compute.
Defined.

(** X4.  The result of a completed move is the verdict of
    [check_winner] on the position the move leaves: ongoing when no line
    is full, and otherwise the owner of the first full line in the
    order of [WINNING_LINES], who need not be the mover.  A move that is
    not completed is a slide, and its result is a win of the opponent. *)
Theorem apply_result_is_winner_check
    (s : GameState) (m : Move) (r : GameResult) (u : UndoInfo)
    (s' : GameState) :
  apply_move_in_place s m = Some (r, u, s') →
  (move_completed u = true →
   r = match check_winner s' with
       | Some w => winner w
       | None => ONGOING
       end) ∧
  (move_completed u = false →
   r = winner (opponent (current_player s)) ∧ is_Some (from_pos m)).
Proof.
  unfold apply_move_in_place. intros Happ.
  assert (Hfin : ∀ s2 p, finish_move s2 m p = (r, u, s') →
            (move_completed u = true →
             r = match check_winner s' with
                 | Some w => winner w
                 | None => ONGOING
                 end) ∧
            (move_completed u = false →
             r = winner (opponent (current_player s)) ∧
             is_Some (from_pos m))).
  { intros s2 p Hf.
    destruct (current_player_finish_move _ _ _ _ _ _ Hf)
      as (_ & _ & _ & Hc & Hr & Hb).
    rewrite (check_winner_board s2 s' Hb). split; [done|].
    intros Hc'. by rewrite Hc in Hc'. }
  destruct (from_pos m) as [fp|].
  - destruct (remove_top s fp) as [[p s1]|]; [|done].
    cbn [mbind option_bind] in Happ.
    assert (Hplace : (s2 ← place_piece s1 p (to_pos m);
                      Some (finish_move s2 m p)) = Some (r, u, s') →
              (move_completed u = true →
               r = match check_winner s' with
                   | Some w => winner w
                   | None => ONGOING
                   end) ∧
              (move_completed u = false →
               r = winner (opponent (current_player s)) ∧
               is_Some (Some fp))).
    { destruct (place_piece s1 p (to_pos m)) as [s2|]; [|done].
      cbn [mbind option_bind]. intros [= Hf].
      destruct (Hfin s2 p Hf) as [H1 H2]. split; [done|].
      intros Hc. destruct (H2 Hc) as [-> _]. by split. }
    destruct (get_winning_lines s1 (opponent (current_player s))).
    + by apply Hplace.
    + destruct (can_save s1 m p _); [by apply Hplace|].
      injection Happ as <- <- <-. cbn. split; [done|]. by split.
  - destruct (move_size m) as [sz|]; [|done].
    cbn [mbind option_bind] in Happ.
    destruct (_reserves s !! (current_player s, sz)) as [n|]; [|done].
    cbn [mbind option_bind] in Happ.
    destruct (place_piece _ _ (to_pos m)) as [s2|]; [|done].
    cbn [mbind option_bind] in Happ. injection Happ as Hf.
    destruct (Hfin s2 _ Hf) as [H1 H2]. split; [done|].
    intros Hc. destruct (current_player_finish_move _ _ _ _ _ _ Hf)
      as (_ & _ & _ & Hc' & _). by rewrite Hc in Hc'.
Qed.

Lemma apply_result_is_winner_check_witness :
  (move_completed (mkUndo (slide_move TWO (0, 0)%nat (1, 1)%nat)
                          P2L false false) = true →
   PLAYER_ONE_WINS
   = match check_winner
             (mkState [ [[P1S]; []; []]; [[P1M]; []; []]; [[P1L]; []; []] ]
                      (reserves_of 1 1 1 2 2 1) TWO) with
     | Some w => winner w
     | None => ONGOING
     end) ∧
  (move_completed (mkUndo (slide_move TWO (0, 0)%nat (1, 1)%nat)
                          P2L false false) = false →
   PLAYER_ONE_WINS = winner (opponent (current_player reveal_loss_state)) ∧
   is_Some (from_pos (slide_move TWO (0, 0)%nat (1, 1)%nat))).
Proof.
  apply (apply_result_is_winner_check reveal_loss_state
           (slide_move TWO (0, 0)%nat (1, 1)%nat)). by vm_compute.
Defined.

(** ** Reachable positions *)

(** X5.  Every position reached from the initial one by generated moves
    satisfies the four invariants of the data model: reserve plus
    on-board count is 2 for each player and size, the sizes of a stack
    increase strictly from bottom to top, no stack holds a size twice,
    and no stack holds more than three pieces. *)
Theorem reachable_position_invariants (s : GameState) :
  reachable s → position_invariants s.
Proof.
  intros Hr. apply well_formed_position_invariants.
  by apply reachable_well_formed.
Qed.

Lemma reachable_position_invariants_witness :
  position_invariants initial_state.
Proof.
  apply (reachable_position_invariants initial_state).
  apply reachable_initial.
Defined.

Lemma reserves_after_generated_move s m r u s' k :
  board_shape s → m ∈ generate_moves s →
  apply_move_in_place s m = Some (r, u, s') →
  _reserves s' !! k = _reserves s !! k ∨
  ∃ n, _reserves s !! k = Some n ∧ 0 < n ∧ _reserves s' !! k = Some (n - 1).
Proof.
  intros Hs Hm Happ. destruct (from_pos m) as [fp|] eqn:Hfrom.
  - left.
    destruct (generated_move_applies s m Hs Hm) as (r' & u' & s'' & Happ' & Hc).
    rewrite Happ in Happ'. injection Happ' as <- <- <-.
    destruct (apply_slide_fields s m fp r u s' Hfrom Happ Hc)
      as (_ & _ & _ & _ & _ & _ & ->). done.
  - destruct (generated_place_gobbles s m Hm Hfrom) as (sz & Hsz & _ & Hres & _).
    destruct (place_decrements_reserve s m r u s' Hfrom Happ)
      as (sz' & n & Hsz' & Hn & ->).
    rewrite Hsz in Hsz'. injection Hsz' as <-.
    destruct (decide (k = (current_player s, sz))) as [->|Hk].
    + right. exists n. split; [done|]. rewrite lookup_insert_eq.
      split; [|done]. unfold has_reserve, get_reserve in Hres.
      rewrite Hn in Hres. lia.
    + left. by rewrite lookup_insert_ne.
Qed.

(** X6.  In every reachable position each reserve count is 0, 1 or 2:
    the generator offers a placement only for a size the mover still
    holds, so no count goes below zero. *)
Theorem reachable_reserves_in_range (s : GameState) (pl : Player) (sz : Size) :
  reachable s →
  ∃ n, _reserves s !! (pl, sz) = Some n ∧ 0 ≤ n ≤ 2.
Proof.
  intros Hr. induction Hr as [|p m r u p' Hr (n & Hn & Hrange) Hm Happ].
  - exists 2. split; [|lia]. by destruct pl, sz.
  - assert (Hp : board_shape p) by (by apply reachable_well_formed).
    destruct (reserves_after_generated_move p m r u p' (pl, sz) Hp Hm Happ)
      as [Heq|(n' & Hn' & Hpos & Hnew)].
    + exists n. by rewrite Heq.
    + rewrite Hn in Hn'. injection Hn' as <-. exists (n - 1).
      split; [done|lia].
Qed.

Lemma reachable_reserves_in_range_witness :
  ∃ n, _reserves two_line_state !! (TWO, SMALL) = Some n ∧ 0 ≤ n ≤ 2.
Proof.
  apply (reachable_reserves_in_range two_line_state TWO SMALL).
  apply (play_moves_reachable moves_to_two_line_state initial_state);
    [apply reachable_initial|]. by vm_compute.
Defined.



(** X8.  The reveal check only takes moves away: every move of
    [generate_moves] is a move of [generate_basic_moves]. *)
Theorem generate_moves_subset_basic (s : GameState) (m : Move) :
  board_shape s → m ∈ generate_moves s → m ∈ generate_basic_moves s.
Proof.
  intros Hs [Hm|(fp & Hfp & Hm)]%elem_of_generate_moves;
    unfold generate_basic_moves; apply elem_of_app; [by left|right].
  apply list_elem_of_bind. exists fp. split; [|done].
  apply elem_of_board_moves_from in Hm as (top & sl & Hrm & Hpl & Hm).
  rewrite (remove_top_get_top _ _ _ _ Hrm).
  rewrite bool_decide_eq_true_2 by done.
  destruct Hm as [[_ Hm]|[_ (tp & -> & Hsave & Hne)]]; [done|].
  apply elem_of_free_slides. exists tp. split; [done|].
  destruct Hsave as [(line & Hline & Htp) (t & Ht & Hcan)].
  apply elem_of_get_winning_lines in Hline.
  split; [by eapply winning_lines_positions|]. split; [done|].
  destruct (remove_top_fields _ _ _ _ Hrm) as (rest & _ & ->).
  unfold can_place_at. unfold get_top in Ht |- *.
  rewrite get_stack_set_stack_ne in Ht by done.
  destruct (get_stack s tp) as [stack|]; [|done]. by rewrite Ht.
Qed.

Lemma generate_moves_subset_basic_witness :
  slide_move ONE (1, 1)%nat (0, 0)%nat
  ∈ generate_basic_moves double_reveal_state.
Proof.
  apply (generate_moves_subset_basic double_reveal_state).
  - split; [reflexivity|]. by repeat constructor.
  - apply (bool_decide_unpack _). by vm_compute.
Defined.

(** X9.  A generated move is a move of the side to move, names squares
    of the board, and is either a placement, with a size the mover holds
    in reserve and no origin, or a slide, with an origin whose top piece
    is the mover's and no size. *)
Theorem generated_move_shape (s : GameState) (m : Move) :
  board_shape s → m ∈ generate_moves s →
  move_player m = current_player s ∧ move_on_board m ∧
  match from_pos m with
  | None => ∃ sz, move_size m = Some sz ∧
                  has_reserve s (current_player s) sz = true
  | Some fp => move_size m = None ∧ fp ≠ to_pos m ∧
               ∃ top, get_top s fp = Some top ∧
                      player top = current_player s
  end.
Proof.
  intros Hs Hm. split; [|split; [by eapply generated_on_board|]].
  - apply elem_of_generate_moves in Hm as [Hm|(fp & Hfp & Hm)].
    + by apply elem_of_reserve_moves in Hm as (sz & pos & -> & _).
    + apply elem_of_board_moves_from in Hm
        as (top & sl & _ & _ & [[_ Hm]|[_ (tp & -> & _)]]); [|done].
      by apply elem_of_free_slides in Hm as (tp & -> & _).
  - destruct (from_pos m) as [fp|] eqn:Hfrom.
    + destruct (generated_slide_gobbles s m fp Hs Hm Hfrom)
        as (top & rest & Hg & Hpl & Hne & _).
      split; [|split; [done|]].
      * apply elem_of_generate_moves in Hm as [Hm|(fp' & Hfp & Hm)].
        -- apply from_pos_reserve_moves in Hm. congruence.
        -- apply elem_of_board_moves_from in Hm
             as (top' & sl & _ & _ & [[_ Hm]|[_ (tp & -> & _)]]); [|done].
           by apply elem_of_free_slides in Hm as (tp & -> & _).
      * exists top. split; [|done]. unfold get_top. rewrite Hg.
        by rewrite last_snoc.
    + destruct (generated_place_gobbles s m Hm Hfrom) as (sz & Hsz & _ & Hres & _).
      by exists sz.
Qed.

Lemma generated_move_shape_witness :
  let m := slide_move ONE (1, 1)%nat (0, 0)%nat in
  move_player m = current_player double_reveal_state ∧ move_on_board m ∧
  match from_pos m with
  | None => ∃ sz, move_size m = Some sz ∧
                  has_reserve double_reveal_state
                    (current_player double_reveal_state) sz = true
  | Some fp => move_size m = None ∧ fp ≠ to_pos m ∧
               ∃ top, get_top double_reveal_state fp = Some top ∧
                      player top = current_player double_reveal_state
  end.
Proof.
  apply (generated_move_shape double_reveal_state).
  - split; [reflexivity|]. by repeat constructor.
  - apply (bool_decide_unpack _). by vm_compute.
Defined.

(** X10.  A placement takes exactly one piece of the placed size from
    the reserve of the mover and leaves every other reserve count as it
    was. *)
Theorem place_takes_one_from_reserve
    (s : GameState) (m : Move) (r : GameResult) (u : UndoInfo)
    (s' : GameState) :
  from_pos m = None →
  apply_move_in_place s m = Some (r, u, s') →
  ∃ sz n, move_size m = Some sz ∧
          _reserves s !! (current_player s, sz) = Some n ∧
          _reserves s' !! (current_player s, sz) = Some (n - 1) ∧
          ∀ k, k ≠ (current_player s, sz) →
               _reserves s' !! k = _reserves s !! k.
Proof.
  intros Hfrom Happ.
  destruct (place_decrements_reserve s m r u s' Hfrom Happ)
    as (sz & n & Hsz & Hn & ->).
  exists sz, n. split; [done|]. split; [done|].
  split; [apply lookup_insert_eq|].
  intros k Hk. by rewrite lookup_insert_ne.
Qed.

Lemma place_takes_one_from_reserve_witness :
  ∃ sz n,
    move_size (place_move ONE LARGE (1, 1)%nat) = Some sz ∧
    _reserves initial_state !! (current_player initial_state, sz) = Some n ∧
    _reserves (mkState [[[]; []; []]; [[]; [P1L]; []]; [[]; []; []]]
                       (reserves_of 2 2 1 2 2 2) TWO)
      !! (current_player initial_state, sz) = Some (n - 1) ∧
    ∀ k, k ≠ (current_player initial_state, sz) →
         _reserves (mkState [[[]; []; []]; [[]; [P1L]; []]; [[]; []; []]]
                            (reserves_of 2 2 1 2 2 2) TWO) !! k
         = _reserves initial_state !! k.
Proof.
  apply (place_takes_one_from_reserve initial_state
           (place_move ONE LARGE (1, 1)%nat) ONGOING
           (mkUndo (place_move ONE LARGE (1, 1)%nat) P1L true true)).
  - reflexivity.
  - by vm_compute.
Defined.
